(** * soundcloud_local: a shallow embedding of [main.py]

    The development follows the source file top-down: Python strings and
    the helpers that work on them ([clean_filename], the regular
    expressions of [find_client_id]), the JSON values handed back by the
    API, a small state-and-exception monad for the code that talks to the
    network and the file system, and then the credential pipeline, the
    resolver, the rendition selector and the download orchestration. *)

From Stdlib Require Import List NArith ZArith Lia Bool String Ascii.
From Stdlib Require Import DecimalString DecimalNat FinFun.
Import ListNotations.

(** ** Python strings

    A Python [str] is a sequence of Unicode code points.  Code points are
    kept as [N], so that the whitespace class of [str.strip] and of the
    regular-expression escape [\s] can be written down exactly. *)

Module Py.

Local Open Scope N_scope.

Definition char := N.
Definition str := list char.

(** An ASCII literal of the source as a [str]. *)
Definition lit (s : string) : str :=
  map N_of_ascii (list_ascii_of_string s).

Definition char_eqb (a b : char) : bool := N.eqb a b.

Fixpoint str_eqb (a b : str) : bool :=
  match a, b with
  | [], [] => true
  | x :: a', y :: b' => char_eqb x y && str_eqb a' b'
  | _, _ => false
  end.

(** [str.isspace] on one code point, which is also the class [\s] of the
    [re] module on [str] patterns. *)
Definition isspace (c : char) : bool :=
  ((9 <=? c) && (c <=? 13)) || ((28 <=? c) && (c <=? 32))
  || (c =? 133) || (c =? 160) || (c =? 5760)
  || ((8192 <=? c) && (c <=? 8202))
  || (c =? 8232) || (c =? 8233) || (c =? 8239) || (c =? 8287)
  || (c =? 12288).

(** [[0-9a-zA-Z]] *)
Definition isalnum62 (c : char) : bool :=
  ((48 <=? c) && (c <=? 57)) || ((65 <=? c) && (c <=? 90))
  || ((97 <=? c) && (c <=? 122)).

Fixpoint lstrip (s : str) : str :=
  match s with
  | [] => []
  | c :: t => if isspace c then lstrip t else s
  end.

Definition rstrip (s : str) : str := rev (lstrip (rev s)).

(** [s.strip()] *)
Definition strip (s : str) : str := rstrip (lstrip s).

(** [s.startswith(p)] *)
Fixpoint startswith (p s : str) : bool :=
  match p, s with
  | [], _ => true
  | a :: p', b :: s' => char_eqb a b && startswith p' s'
  | _ :: _, [] => false
  end.

(** [p in s] for two strings: [p] occurs in [s] as a substring. *)
Fixpoint contains (p s : str) : bool :=
  startswith p s ||
  match s with
  | [] => false
  | _ :: t => contains p t
  end.

(** [s.replace(a, b)] for one-character [a] and [b]. *)
Definition replace_char (a b : char) (s : str) : str :=
  map (fun c => if char_eqb c a then b else c) s.

(** [str(n)] for a non-negative integer. *)
Definition of_nat (n : nat) : str :=
  lit (NilEmpty.string_of_uint (Nat.to_uint n)).

End Py.

Import Py.

Local Open Scope N_scope.

(** ** [clean_filename] *)

(** The character class of the first substitution: less-than,
    greater-than, colon, double quote, backslash, bar, question mark,
    star, and the code points 0x00 to 0x1F. *)
Definition unsafe_char (c : char) : bool :=
  (c =? 60) || (c =? 62) || (c =? 58) || (c =? 34) || (c =? 92)
  || (c =? 124) || (c =? 63) || (c =? 42) || (c <=? 31).

(** The first [re.sub]: every character of that class is deleted. *)
Definition remove_unsafe (s : str) : str :=
  filter (fun c => negb (unsafe_char c)) s.

(** The second [re.sub], of [\s+] by one space: every maximal run of
    whitespace becomes one space.  [in_run] tells that the previous
    character belonged to the run being replaced. *)
Fixpoint sub_ws (in_run : bool) (s : str) : str :=
  match s with
  | [] => []
  | c :: t =>
      if isspace c
      then (if in_run then sub_ws true t else 32 :: sub_ws true t)
      else c :: sub_ws false t
  end.

Definition default_name : str := lit "audio".

Definition clean_filename (name : str) : str :=
  let name := replace_char 47 45 (strip name) in
  let name := remove_unsafe name in
  let name := strip (sub_ws false name) in
  match name with
  | [] => default_name
  | _ => name
  end.

(** ** The regular expressions of [find_client_id]

    The four client-id patterns are sequences of three kinds of atoms: a
    literal, the greedy [\s*], and the capturing group
    [([0-9a-zA-Z]{n})].  [match_atoms] is the backtracking matcher of the
    [re] module restricted to such sequences; it returns group 1. *)

Inductive atom : Type :=
| ALit (l : str)
| ASpaces
| AToken (n : nat).

Definition pattern := list atom.

(** Consume a literal. *)
Fixpoint eat (l s : str) : option str :=
  match l, s with
  | [], _ => Some s
  | a :: l', b :: s' => if char_eqb a b then eat l' s' else None
  | _ :: _, [] => None
  end.

(** [[0-9a-zA-Z]{n}]: exactly [n] characters of the class. *)
Fixpoint take_alnum (n : nat) (s : str) : option (str * str) :=
  match n with
  | O => Some ([], s)
  | S n' =>
      match s with
      | c :: t =>
          if isalnum62 c
          then match take_alnum n' t with
               | Some (g, r) => Some (c :: g, r)
               | None => None
               end
          else None
      | [] => None
      end
  end.

(** Greedy [\s*] followed by the rest of the pattern [k]: the longest
    run is tried first, then shorter ones. *)
Fixpoint spaces_then {A : Type} (k : str -> option A) (s : str) : option A :=
  match s with
  | c :: t =>
      if isspace c
      then match spaces_then k t with
           | Some r => Some r
           | None => k s
           end
      else k s
  | [] => k s
  end.

Fixpoint match_atoms (p : pattern) (s : str) (grp : str) : option str :=
  match p with
  | [] => Some grp
  | ALit l :: p' =>
      match eat l s with
      | Some s' => match_atoms p' s' grp
      | None => None
      end
  | ASpaces :: p' => spaces_then (fun s' => match_atoms p' s' grp) s
  | AToken n :: p' =>
      match take_alnum n s with
      | Some (g, s') => match_atoms p' s' g
      | None => None
      end
  end.

(** [pattern.search(doc)] followed by [match.group(1)]: the leftmost
    position at which the pattern matches. *)
Fixpoint search (p : pattern) (doc : str) : option str :=
  match match_atoms p doc [] with
  | Some g => Some g
  | None =>
      match doc with
      | [] => None
      | _ :: t => search p t
      end
  end.

Definition client_id_key : str := lit "client_id".
Definition dquote : str := [34].

(** The list [patterns] of the source, in its order. *)
Definition patterns : list pattern :=
  [ [ALit client_id_key; ASpaces; ALit (lit ":"); ASpaces;
     ALit dquote; AToken 32; ALit dquote];
    [ALit client_id_key; ASpaces; ALit (lit "="); ASpaces;
     ALit dquote; AToken 32; ALit dquote];
    [ALit (dquote ++ client_id_key ++ dquote); ASpaces; ALit (lit ":");
     ASpaces; ALit dquote; AToken 32; ALit dquote];
    [ALit (client_id_key ++ lit "="); AToken 32] ].

(** [for pattern in patterns: match = pattern.search(doc); if match:
    return match.group(1)] *)
Fixpoint search_patterns (ps : list pattern) (doc : str) : option str :=
  match ps with
  | [] => None
  | p :: ps' =>
      match search p doc with
      | Some g => Some g
      | None => search_patterns ps' doc
      end
  end.

(** The script-tag expression: the literal [<script], then [[^>]+], then
    the literal [src=] and a double quote, then the group, one or more
    characters other than a double quote, then a double quote. *)

(** The longest prefix free of [c0], and what follows it. *)
Fixpoint span_not (c0 : char) (s : str) : str * str :=
  match s with
  | [] => ([], [])
  | c :: t =>
      if char_eqb c c0 then ([], s)
      else let (g, r) := span_not c0 t in (c :: g, r)
  end.

(** The group and the closing quote; returns the group and the text after
    the match. *)
Definition quoted_group (s : str) : option (str * str) :=
  match span_not 34 s with
  | ((_ :: _) as g, _ :: r) => Some (g, r)
  | _ => None
  end.

(** Greedy [[^>]+] followed by the rest of the pattern [k]. *)
Fixpoint not_gt_plus_then {A : Type} (k : str -> option A) (s : str)
  : option A :=
  match s with
  | c :: t =>
      if char_eqb c 62 then None
      else match not_gt_plus_then k t with
           | Some r => Some r
           | None => k t
           end
  | [] => None
  end.

Definition match_script (s : str) : option (str * str) :=
  match eat (lit "<script") s with
  | Some s1 =>
      not_gt_plus_then
        (fun s2 => match eat (lit "src=" ++ dquote) s2 with
                   | Some s3 => quoted_group s3
                   | None => None
                   end) s1
  | None => None
  end.

(** [re.findall]: matches do not overlap, the scan resumes where the
    previous match ended.  [skip] counts the characters still inside the
    previous match. *)
Fixpoint findall_scripts (skip : nat) (s : str) : list str :=
  match s with
  | [] => []
  | _ :: t =>
      match skip with
      | S k => findall_scripts k t
      | O =>
          match match_script s with
          | Some (g, rest) =>
              g :: findall_scripts (List.length t - List.length rest) t
          | None => findall_scripts 0 t
          end
      end
  end.

(** ** JSON values and the dynamic operations applied to them

    [response.json()] hands the program arbitrary JSON; the source reads it
    with [dict.get], [or], [in], [==], [len] and iteration, each of which
    raises on a value of the wrong type.  Objects are association lists in
    key order with the first binding of a key the live one. *)

#[warnings="-register-all"] Inductive json : Type :=
| JNull
| JBool (b : bool)
| JNum (n : Z)
| JStr (s : str)
| JArr (l : list json)
| JObj (kv : list (str * json)).

(** The exceptions the program can meet.  [HTTPError] is what
    [raise_for_status] raises; [RequestException] stands for every other
    exception of the requests library (connection failure, timeout, too
    many redirects, a body that is not JSON) with its message; the last
    four are built-in exceptions. *)
Inductive exn : Type :=
| SoundCloudError (msg : str)
| HTTPError (status : Z)
| RequestException (msg : str)
| AttributeError
| TypeError
| ValueError
| OSError.

Inductive result (A : Type) : Type :=
| Ok (a : A)
| Raise (e : exn).

Arguments Ok {A} a.
Arguments Raise {A} e.

(** [bool(v)] *)
Definition truthy (v : json) : bool :=
  match v with
  | JNull => false
  | JBool b => b
  | JNum n => negb (Z.eqb n 0)
  | JStr s => match s with [] => false | _ => true end
  | JArr l => match l with [] => false | _ => true end
  | JObj kv => match kv with [] => false | _ => true end
  end.

(** [a or b] *)
Definition py_or (a b : json) : json := if truthy a then a else b.

Fixpoint assoc (k : str) (kv : list (str * json)) : option json :=
  match kv with
  | [] => None
  | (k', v) :: rest => if str_eqb k k' then Some v else assoc k rest
  end.

(** [v.get(key, default)]; only a dict has the method. *)
Definition py_get (v : json) (key : str) (default : json) : result json :=
  match v with
  | JObj kv =>
      match assoc key kv with
      | Some x => Ok x
      | None => Ok default
      end
  | _ => Raise AttributeError
  end.

(** [v == s] for a string literal [s]. *)
Definition py_eq_str (v : json) (s : str) : bool :=
  match v with
  | JStr s' => str_eqb s' s
  | _ => false
  end.

(** [s in v] for a string literal [s]. *)
Definition py_in (s : str) (v : json) : result bool :=
  match v with
  | JStr s' => Ok (contains s s')
  | JArr l => Ok (existsb (fun x => py_eq_str x s) l)
  | JObj kv => Ok (match assoc s kv with Some _ => true | None => false end)
  | _ => Raise TypeError
  end.

(** The items a [for] loop (or [enumerate]) draws from [v]. *)
Definition py_iter (v : json) : result (list json) :=
  match v with
  | JArr l => Ok l
  | JStr s => Ok (map (fun c => JStr [c]) s)
  | JObj kv => Ok (map (fun p => JStr (fst p)) kv)
  | _ => Raise TypeError
  end.

(** [len(v)] *)
Definition py_len (v : json) : result nat :=
  match v with
  | JArr l => Ok (List.length l)
  | JStr s => Ok (List.length s)
  | JObj kv => Ok (List.length kv)
  | _ => Raise TypeError
  end.

(** [v.strip()]; only a string has the method. *)
Definition py_strip (v : json) : result str :=
  match v with
  | JStr s => Ok (strip s)
  | _ => Raise AttributeError
  end.

Definition of_Z (n : Z) : str :=
  match n with
  | Z0 => lit "0"
  | Zpos p => Py.of_nat (Pos.to_nat p)
  | Zneg p => lit "-" ++ Py.of_nat (Pos.to_nat p)
  end.

(** ** The world outside the program *)

(** A GET request of the session: the URL and the [params] dictionary. *)
Record request : Type := mkRequest {
  req_url : str;
  req_params : list (str * str)
}.

(** The [Content-Length] header as [int] sees it. *)
Inductive header_int : Type :=
| HAbsent
| HInt (n : Z)
| HMalformed.

Record response : Type := mkResponse {
  status_code : Z;
  text : str;
  (** [response.json()]: the decoded body, or the message of the
      decoding error (an exception of the requests library) *)
  json_body : str + json;
  content_length : header_int;
  (** the message of the exception [iter_content] raises before the end
      of the body, if it raises one *)
  body_error : option str
}.

Inductive reply : Type :=
| NetFail (msg : str)
| Resp (r : response).

(** [response.ok]: [raise_for_status] would not raise. *)
Definition ok (r : response) : bool :=
  negb ((400 <=? status_code r)%Z && (status_code r <? 600)%Z).

(** What the program cannot decide: the answers of the network, given
    the requests made so far (most recent first) and the current one, the
    library functions [urljoin] and [urlencode], [str()] of a JSON array
    or object, and whether a file can be opened for writing.  [urljoin]
    is partial: it raises [ValueError] on a reference it cannot parse
    (one with an unclosed bracket in its host part, for instance), which
    is [None] here. *)
Record env : Type := mkEnv {
  net : list request -> request -> reply;
  urljoin : str -> str -> option str;
  urlencode : list (str * str) -> str;
  format_compound : json -> str;
  cache_writable : bool;
  can_create : str -> bool
}.

(** The cache file [~/.soundcloud_client_id]: missing, not readable as
    UTF-8 text, or holding the text [s], which is what [f.read()] returns
    for it in text mode. *)
Inductive cache_state : Type :=
| NoFile
| Unreadable
| Contents (s : str).

(** Marks left in the state by the functions the statements count or
    order:
    entering [find_client_id], the candidate it returns, the verdict of
    [check_client_id_valid], entering [download_track], and a completed
    save. *)
Inductive event : Type :=
| EScrape
| EFound (cid : str)
| EValidate (cid : str) (valid : bool)
| EAttempt (track : json)
| ESaved (path : str).

Record state : Type := mkState {
  requests : list request;      (* most recent first *)
  files : list str;             (* the paths that exist *)
  cache : cache_state;
  printed : list str;           (* most recent first *)
  trace : list event            (* most recent first *)
}.

(** ** A state-and-exception monad *)

Definition M (A : Type) : Type := state -> state * result A.

Definition ret {A} (a : A) : M A := fun st => (st, Ok a).

Definition raise {A} (e : exn) : M A := fun st => (st, Raise e).

Definition bind {A B} (m : M A) (f : A -> M B) : M B :=
  fun st =>
    match m st with
    | (st', Ok a) => f a st'
    | (st', Raise e) => (st', Raise e)
    end.

(** [try: m  except Exception as e: h e] *)
Definition try_except {A} (m : M A) (h : exn -> M A) : M A :=
  fun st =>
    match m st with
    | (st', Ok a) => (st', Ok a)
    | (st', Raise e) => h e st'
    end.

(** A pure computation that may raise. *)
Definition lift {A} (r : result A) : M A := fun st => (st, r).

Declare Scope py_scope.
Delimit Scope py_scope with py.

Notation "x <- c1 ;; c2" := (bind c1 (fun x => c2))
  (at level 61, c1 at next level, right associativity) : py_scope.
Notation "c1 ;;; c2" := (bind c1 (fun _ => c2))
  (at level 61, right associativity) : py_scope.

Local Open Scope py_scope.

Definition emit (e : event) : M unit :=
  fun st => (mkState (requests st) (files st) (cache st) (printed st)
                     (e :: trace st), Ok tt).

(** [print(line)] *)
Definition print (line : str) : M unit :=
  fun st => (mkState (requests st) (files st) (cache st)
                     (line :: printed st) (trace st), Ok tt).

Definition get_files : M (list str) := fun st => (st, Ok (files st)).

Definition add_file (path : str) : M unit :=
  fun st => (mkState (requests st) (path :: files st) (cache st)
                     (printed st) (trace st), Ok tt).

(** Bind of the exception monad without state, for the pure helpers. *)
Definition rbind {A B} (r : result A) (f : A -> result B) : result B :=
  match r with
  | Ok a => f a
  | Raise e => Raise e
  end.

Notation "x <~ c1 ;; c2" := (rbind c1 (fun x => c2))
  (at level 61, c1 at next level, right associativity) : py_scope.

(** ** Paths: [os.path.join], [os.path.splitext], [os.path.exists]
    (the POSIX versions) *)

Definition slash : char := 47.
Definition dot : char := 46.

Definition endswith_char (c : char) (s : str) : bool :=
  match rev s with
  | c' :: _ => char_eqb c' c
  | [] => false
  end.

Definition path_join (a b : str) : str :=
  if startswith [slash] b then b
  else match a with
       | [] => b
       | _ => if endswith_char slash a then a ++ b else a ++ [slash] ++ b
       end.

(** [s.rfind(c)], with [None] for -1.  [i] is the index of the head. *)
Fixpoint rfind_from (c : char) (i : nat) (s : str) : option nat :=
  match s with
  | [] => None
  | x :: t =>
      match rfind_from c (S i) t with
      | Some j => Some j
      | None => if char_eqb x c then Some i else None
      end
  end.

Definition rfind (c : char) (s : str) : option nat := rfind_from c 0 s.

(** [genericpath._splitext]: split at the last dot of the last path
    component, unless only dots precede it there. *)
Definition splitext (p : str) : str * str :=
  let filenameIndex :=
    match rfind slash p with Some i => S i | None => O end in
  match rfind dot p with
  | Some dotIndex =>
      if (filenameIndex <=? dotIndex)%nat
      then
        if forallb (fun c => char_eqb c dot)
                   (firstn (dotIndex - filenameIndex) (skipn filenameIndex p))
        then (p, [])
        else (firstn dotIndex p, skipn dotIndex p)
      else (p, [])
  | None => (p, [])
  end.

Definition path_exists (fs : list str) (p : str) : bool :=
  existsb (str_eqb p) fs.

(** The loop [while os.path.exists(save_path)] of [download_track], with
    the number of tests still allowed. *)
Fixpoint unique_path_loop (fuel : nat) (fs : list str) (base ext : str)
    (counter : nat) (save_path : str) : option str :=
  match fuel with
  | O => None
  | S fuel' =>
      if path_exists fs save_path
      then unique_path_loop fuel' fs base ext (S counter)
             (base ++ lit " (" ++ Py.of_nat counter ++ lit ")" ++ ext)
      else Some save_path
  end.

(** The candidates built from the counter are pairwise different, so the
    loop ends within two more tests than there are files
    ([unique_path_loop_ends] below); the second branch is never taken. *)
Definition unique_path (fs : list str) (save_path : str) : str :=
  let (base, ext) := splitext save_path in
  match unique_path_loop (S (S (List.length fs))) fs base ext 2 save_path with
  | Some p => p
  | None => save_path
  end.

(** ** Text files

    The cache file is written and read in text mode with the UTF-8
    encoding (on a POSIX system, as for the paths above). *)

(** A surrogate code point has no UTF-8 encoding. *)
Definition is_surrogate (c : char) : bool := (55296 <=? c) && (c <=? 57343).

(** [s.encode("utf-8")] succeeds. *)
Definition encodable (s : str) : bool :=
  forallb (fun c => negb (is_surrogate c)) s.

(** Reading with universal newlines: a carriage return followed by a
    line feed, and a carriage return alone, both come back as one line
    feed. *)
Fixpoint universal_newlines (s : str) : str :=
  match s with
  | [] => []
  | c :: t =>
      if c =? 13
      then match t with
           | d :: _ => if d =? 10 then universal_newlines t
                       else 10 :: universal_newlines t
           | [] => [10]
           end
      else c :: universal_newlines t
  end.

(** ** The program *)

Definition soundcloud_home : str := lit "https://soundcloud.com".
Definition soundcloud_api : str := lit "https://api-v2.soundcloud.com".

Definition msg_no_client_id : str :=
  lit "couldn't find a soundcloud client id. try again later.".
Definition msg_client_id_broken : str :=
  lit "found client id but it doesn't work. try again in a minute.".
Definition msg_access_denied : str :=
  lit "access denied - client id might be expired. try again.".
Definition msg_network_error : str := lit "network error: ".
Definition msg_unresolved : str :=
  lit "couldn't resolve that soundcloud url.".
Definition msg_no_mp3_url : str :=
  lit "soundcloud didn't give us an mp3 url.".
Definition msg_empty_playlist : str := lit "this playlist has no tracks.".
Definition msg_unsupported : str := lit "unsupported soundcloud type: ".

Record track_info : Type := mkTrackInfo {
  ti_url : json;
  ti_title : json;
  ti_artist : str;
  ti_filename : str
}.

Section Program.

Variable E : env.

(** [session.get]: the request is recorded and the network answers. *)
Definition session_get (rq : request) : M response :=
  fun st =>
    let st' := mkState (rq :: requests st) (files st) (cache st)
                       (printed st) (trace st) in
    match net E (requests st) rq with
    | NetFail msg => (st', Raise (RequestException msg))
    | Resp r => (st', Ok r)
    end.

Definition get_url (url : str) : M response := session_get (mkRequest url []).

Definition raise_for_status (r : response) : M unit :=
  if ok r then ret tt else raise (HTTPError (status_code r)).

(** [response.json()] *)
Definition response_json (r : response) : M json :=
  match json_body r with
  | inr v => ret v
  | inl msg => raise (RequestException msg)
  end.

(** An f-string field: [str(v)]. *)
Definition fstr (v : json) : str :=
  match v with
  | JStr s => s
  | JNull => lit "None"
  | JBool true => lit "True"
  | JBool false => lit "False"
  | JNum n => of_Z n
  | _ => format_compound E v
  end.

(** *** Token store *)

Definition get_cached_client_id : M (option str) :=
  fun st =>
    match cache st with
    | Contents s =>
        match strip s with
        | [] => (st, Ok None)
        | cid => (st, Ok (Some cid))
        end
    | _ => (st, Ok None)
    end.

(** [open(..., "w")] empties the file; [f.write] then encodes the whole
    text, which fails on a surrogate and leaves the file empty; both
    failures are swallowed.  What was written is read back with the line
    ends translated. *)
Definition save_client_id (cid : str) : M unit :=
  fun st =>
    if cache_writable E
    then
      let written := if encodable (strip cid)
                     then universal_newlines (strip cid)
                     else [] in
      (mkState (requests st) (files st) (Contents written)
               (printed st) (trace st), Ok tt)
    else (st, Ok tt).

(** *** Credential scraper *)

(** [urljoin(soundcloud_home, ref)] *)
Definition join_home (ref : str) : result str :=
  match urljoin E soundcloud_home ref with
  | Some url => Ok url
  | None => Raise ValueError
  end.

(** The URL appended for the [src] attribute [s]. *)
Definition script_url (s : str) : result str :=
  if startswith (lit "//") s then Ok (lit "https:" ++ s)
  else if startswith (lit "http") s then Ok s
  else join_home s.

(** The loop [for s in scripts: script_urls.append(...)]: the list
    [script_urls] as the loop leaves it, and whether it ended or raised.
    The URLs appended before an exception stay in the list. *)
Fixpoint append_scripts (script_urls : list str) (scripts : list str)
  : list str * result unit :=
  match scripts with
  | [] => (script_urls, Ok tt)
  | s :: rest =>
      match script_url s with
      | Ok url => append_scripts (script_urls ++ [url]) rest
      | Raise e => (script_urls, Raise e)
      end
  end.

(** The script URLs of the home page.  This loop stands outside any
    [try], so an exception of [urljoin] leaves [find_client_id]. *)
Definition page_scripts (html : str) : result (list str) :=
  match append_scripts [] (findall_scripts 0 html) with
  | (script_urls, Ok _) => Ok script_urls
  | (_, Raise e) => Raise e
  end.

(** One of the [extra_pages], given [script_urls] as it stands; the
    result is [script_urls] after the page.  The whole step is inside
    [try ... except Exception: pass]: when the page cannot be fetched the
    list is as before, and when [urljoin] raises in the middle of the
    inner loop the list keeps what was appended until then, which is why
    the outcome of [append_scripts] is dropped. *)
Definition extra_page_scripts (script_urls : list str) (page : str)
  : M (list str) :=
  try_except
    (url <- lift (join_home page) ;;
     rr <- get_url url ;;
     if ok rr
     then ret (fst (append_scripts script_urls (findall_scripts 0 (text rr))))
     else ret script_urls)
    (fun _ => ret script_urls).

(** The comprehension that removes duplicates, keeping first
    occurrences. *)
Fixpoint dedupe (seen : list str) (urls : list str) : list str :=
  match urls with
  | [] => []
  | u :: rest =>
      if existsb (str_eqb u) seen then dedupe seen rest
      else u :: dedupe (u :: seen) rest
  end.

(** The loop over [script_urls[:20]]. *)
Fixpoint scan_scripts (urls : list str) : M (option str) :=
  match urls with
  | [] => ret None
  | js_url :: rest =>
      found <- try_except
                 (js_response <- get_url js_url ;;
                  match ok js_response, text js_response with
                  | true, (_ :: _) as js_code =>
                      ret (search_patterns patterns js_code)
                  | _, _ => ret None
                  end)
                 (fun _ => ret None) ;;
      match found with
      | Some cid => ret (Some cid)
      | None => scan_scripts rest
      end
  end.

Definition scrape_site : M str :=
  r <- get_url soundcloud_home ;;
  raise_for_status r ;;;
  let html := text r in
  script_urls <- lift (page_scripts html) ;;
  script_urls <- extra_page_scripts script_urls (lit "/discover") ;;
  script_urls <- extra_page_scripts script_urls (lit "/charts/top") ;;
  let script_urls := dedupe [] script_urls in
  match search_patterns patterns html with
  | Some cid => ret cid
  | None =>
      found <- scan_scripts (firstn 20 script_urls) ;;
      match found with
      | Some cid => ret cid
      | None => raise (SoundCloudError msg_no_client_id)
      end
  end.

(** [find_client_id], with the marks of its entry and of its result. *)
Definition find_client_id : M str :=
  emit EScrape ;;;
  cid <- scrape_site ;;
  emit (EFound cid) ;;;
  ret cid.

(** *** Credential validator *)

Definition probe_url (cid : str) : str :=
  soundcloud_api ++ lit "/search/tracks?"
  ++ urlencode E [(lit "q", lit "test"); (lit "limit", lit "1");
                  (lit "client_id", cid)].

Definition check_client_id_valid (cid : str) : M bool :=
  valid <- try_except
             (response <- get_url (probe_url cid) ;;
              if (status_code response =? 401)%Z
                 || (status_code response =? 403)%Z
              then ret false
              else ret (ok response))
             (fun _ => ret false) ;;
  emit (EValidate cid valid) ;;;
  ret valid.

(** *** Credential manager.  [time.sleep] changes nothing here. *)

Definition scrape_and_save : M str :=
  new_id <- find_client_id ;;
  valid <- check_client_id_valid new_id ;;
  new_id <- (if valid then ret new_id
             else
               new_id <- find_client_id ;;
               valid <- check_client_id_valid new_id ;;
               if valid then ret new_id
               else raise (SoundCloudError msg_client_id_broken)) ;;
  save_client_id new_id ;;;
  ret new_id.

Definition get_client_id : M str :=
  cached_id <- get_cached_client_id ;;
  match cached_id with
  | Some cid =>
      valid <- check_client_id_valid cid ;;
      if valid then ret cid else scrape_and_save
  | None => scrape_and_save
  end.

(** *** API requests and the resolver *)

Definition api_request (url : str) (params : list (str * str))
    (allow_404 : bool) : M json :=
  try_except
    (response <- session_get (mkRequest url params) ;;
     if (status_code response =? 404)%Z && allow_404
     then ret JNull
     else raise_for_status response ;;; response_json response)
    (fun e =>
       match e with
       | HTTPError status =>
           if (status =? 401)%Z || (status =? 403)%Z
           then raise (SoundCloudError msg_access_denied)
           else raise e
       | RequestException msg =>
           raise (SoundCloudError (msg_network_error ++ msg))
       | _ => raise e
       end).

Definition resolve_soundcloud_url (client_id url : str) : M json :=
  data <- api_request (soundcloud_api ++ lit "/resolve")
            [(lit "url", url); (lit "client_id", client_id)] false ;;
  if truthy data then ret data
  else raise (SoundCloudError msg_unresolved).

(** *** Rendition selector *)

(** The loop of [find_mp3_transcoding]; [JNull] is [None]. *)
Fixpoint first_mp3 (transcodings : list json) : result json :=
  match transcodings with
  | [] => Ok JNull
  | transcode :: rest =>
      fmt <~ py_get transcode (lit "format") JNull ;;
      let fmt := py_or fmt (JObj []) in
      mime_type <~ py_get fmt (lit "mime_type") (JStr []) ;;
      protocol <~ py_get fmt (lit "protocol") (JStr []) ;;
      is_mpeg <~ py_in (lit "audio/mpeg") mime_type ;;
      if is_mpeg && py_eq_str protocol (lit "progressive")
      then Ok transcode
      else first_mp3 rest
  end.

Definition find_mp3_transcoding (track_data : json) : result json :=
  media <~ py_get track_data (lit "media") JNull ;;
  let media := py_or media (JObj []) in
  transcodings <~ py_get media (lit "transcodings") JNull ;;
  let transcodings := py_or transcodings (JArr []) in
  items <~ py_iter transcodings ;;
  first_mp3 items.

Definition get_track_download_info (client_id : str) (track_data : json)
  : M (option track_info) :=
  title <- lift (py_get track_data (lit "title") (JStr (lit "audio"))) ;;
  user <- lift (py_get track_data (lit "user") JNull) ;;
  let user := py_or user (JObj []) in
  username <- lift (py_get user (lit "username") (JStr [])) ;;
  stripped <- lift (py_strip username) ;;
  let artist := match stripped with
                | [] => lit "Unknown Artist"
                | _ => stripped
                end in
  transcoding <- lift (find_mp3_transcoding track_data) ;;
  if negb (truthy transcoding) then ret None
  else
    transcode_url <- lift (py_get transcoding (lit "url") JNull) ;;
    has_query <- lift (py_in (lit "?") transcode_url) ;;
    let separator := if has_query then lit "&" else lit "?" in
    let final_transcode_url :=
      fstr transcode_url ++ separator ++ lit "client_id=" ++ client_id in
    transcode_data <- api_request final_transcode_url [] false ;;
    mp3_url <- lift (py_get transcode_data (lit "url") JNull) ;;
    if negb (truthy mp3_url)
    then raise (SoundCloudError msg_no_mp3_url)
    else
      let filename :=
        clean_filename (artist ++ lit " - " ++ fstr title) ++ lit ".mp3" in
      ret (Some (mkTrackInfo mp3_url title artist filename)).

(** *** Downloader.  The progress display depends on the clock and is
    left out; what remains is the request, the status check, the header
    conversion, the file that [open] creates and the end of the stream. *)

Definition download_file (url save_path : str) : M unit :=
  response <- get_url url ;;
  raise_for_status response ;;;
  match content_length response with
  | HMalformed => raise ValueError
  | _ =>
      if can_create E save_path
      then
        add_file save_path ;;;
        match body_error response with
        | Some msg => raise (RequestException msg)
        | None => ret tt
        end
      else raise OSError
  end.

(** *** Download orchestration *)

Definition download_track (client_id : str) (track_data : json)
    (output_dir : str) : M bool :=
  emit (EAttempt track_data) ;;;
  track_info <- get_track_download_info client_id track_data ;;
  match track_info with
  | None =>
      title <- lift (py_get track_data (lit "title")
                       (JStr (lit "Unknown"))) ;;
      user <- lift (py_get track_data (lit "user") JNull) ;;
      artist <- lift (py_get (py_or user (JObj [])) (lit "username")
                        (JStr (lit "Unknown"))) ;;
      print (lit "skipping (no mp3 available): " ++ fstr artist
             ++ lit " - " ++ fstr title) ;;;
      ret false
  | Some info =>
      let save_path := path_join output_dir (ti_filename info) in
      fs <- get_files ;;
      let save_path := unique_path fs save_path in
      print (lit "downloading: " ++ ti_artist info ++ lit " - "
             ++ fstr (ti_title info)) ;;;
      download_file (fstr (ti_url info)) save_path ;;;
      print (lit "saved: " ++ save_path) ;;;
      emit (ESaved save_path) ;;;
      ret true
  end.

(** The [for i, track in enumerate(tracks, start=1)] loop; it returns
    [success_count]. *)
Fixpoint download_each (client_id output_dir : str) (tracks : list json)
    (i total_count success_count : nat) : M nat :=
  match tracks with
  | [] => ret success_count
  | track :: rest =>
      print (lit "[" ++ Py.of_nat i ++ lit "/" ++ Py.of_nat total_count
             ++ lit "]") ;;;
      saved <- download_track client_id track output_dir ;;
      download_each client_id output_dir rest (S i) total_count
        (if saved then S success_count else success_count)
  end.

Definition report_line (success_count total_count : nat) : str :=
  lit "done. downloaded " ++ Py.of_nat success_count ++ lit "/"
  ++ Py.of_nat total_count ++ lit " tracks.".

(** The two [print]s that end [handle_download]. *)
Definition report (success_count total_count : nat) : M unit :=
  print (report_line success_count total_count) ;;;
  if (success_count <? total_count)%nat
  then print (lit "some tracks were skipped (probably no mp3 available).")
  else ret tt.

Definition handle_download (client_id : str) (resolved_data : json)
    (output_dir : str) : M unit :=
  item_type <- lift (py_get resolved_data (lit "kind") JNull) ;;
  if py_eq_str item_type (lit "track") then
    saved <- download_track client_id resolved_data output_dir ;;
    report (if saved then 1%nat else 0%nat) 1%nat
  else if py_eq_str item_type (lit "playlist")
          || py_eq_str item_type (lit "system-playlist") then
    tracks <- lift (py_get resolved_data (lit "tracks") JNull) ;;
    let tracks := py_or tracks (JArr []) in
    total_count <- lift (py_len tracks) ;;
    match total_count with
    | O => raise (SoundCloudError msg_empty_playlist)
    | _ =>
        items <- lift (py_iter tracks) ;;
        success_count <-
          download_each client_id output_dir items 1 total_count 0 ;;
        report success_count total_count
    end
  else raise (SoundCloudError (msg_unsupported ++ fstr item_type)).

End Program.

(** ** Vocabulary of the statements *)

Definition nonspace (c : char) : bool := negb (isspace c).

(** The eight characters that never survive [clean_filename]:
    less-than, greater-than, colon, double quote, backslash, bar,
    question mark, star. *)
Definition forbidden_chars : str := [60; 62; 58; 34; 92; 124; 63; 42].

(** The control characters of Unicode (category Cc): U+0000 to U+001F
    and U+007F to U+009F.  Only the first range is in the character
    class of [clean_filename]. *)
Definition c0_control (c : char) : bool := c <=? 31.

Definition is_control (c : char) : bool :=
  c0_control c || ((127 <=? c) && (c <=? 159)).

(** The characters that sanitization is to remove: the eight forbidden
    ones and the control characters U+0000 to U+001F. *)
Definition removed (c : char) : bool :=
  existsb (N.eqb c) forbidden_chars || c0_control c.

(** What is left of a name once the unsafe characters and all whitespace
    are taken out, with the slash turned into a dash. *)
Definition kept_chars (name : str) : str :=
  filter nonspace (remove_unsafe (replace_char 47 45 name)).

(** The name before the fallback to the default. *)
Definition cleaned (name : str) : str :=
  strip (sub_ws false (remove_unsafe (replace_char 47 45 (strip name)))).

(** The four ways a token can stand in a document, one per pattern:
    [client_id : <q>T<q>], [client_id = <q>T<q>], [<q>client_id<q> :
    <q>T<q>] and [client_id=T], where [<q>] is a double quote and the
    blanks are any whitespace, possibly none. *)
Inductive form : Type :=
| ColonAssign
| EqAssign
| JsonKey
| QueryParam.

Definition embed (f : form) (ws1 ws2 token : str) : str :=
  match f with
  | ColonAssign =>
      client_id_key ++ ws1 ++ lit ":" ++ ws2 ++ dquote ++ token ++ dquote
  | EqAssign =>
      client_id_key ++ ws1 ++ lit "=" ++ ws2 ++ dquote ++ token ++ dquote
  | JsonKey =>
      dquote ++ client_id_key ++ dquote ++ ws1 ++ lit ":" ++ ws2
      ++ dquote ++ token ++ dquote
  | QueryParam => client_id_key ++ lit "=" ++ token
  end.

Definition p_colon : pattern :=
  [ALit client_id_key; ASpaces; ALit (lit ":"); ASpaces;
   ALit dquote; AToken 32; ALit dquote].
Definition p_eq : pattern :=
  [ALit client_id_key; ASpaces; ALit (lit "="); ASpaces;
   ALit dquote; AToken 32; ALit dquote].
Definition p_json : pattern :=
  [ALit (dquote ++ client_id_key ++ dquote); ASpaces; ALit (lit ":");
   ASpaces; ALit dquote; AToken 32; ALit dquote].
Definition p_query : pattern :=
  [ALit (client_id_key ++ lit "="); AToken 32].

(** What follows the key in the first three patterns: blanks, the
    separator, blanks, and the quoted token. *)
Definition value_tail (sep : char) : pattern :=
  [ASpaces; ALit [sep]; ASpaces; ALit dquote; AToken 32; ALit dquote].

(** Two tokens and a document that holds both: the first as a query
    parameter, the second, further on, as a colon assignment. *)
Definition token_a : str := lit "AAAAAAAAAAAAAAAAAAAAAAAAAAAAAAAA".
Definition token_b : str := lit "0123456789abcdefghijABCDEFGHIJ01".
Definition two_token_pre : str := lit "u?".
Definition two_token_post : str :=
  lit "&x; client_id:" ++ dquote ++ token_b ++ dquote.

(** [m] leaves the observation [f] of the state as it found it. *)
Definition keeps {X A : Type} (f : state -> X) (m : M A) : Prop :=
  forall st, f (fst (m st)) = f st.

Definition is_scrape (e : event) : bool :=
  match e with
  | EScrape => true
  | _ => false
  end.

(** The number of times [find_client_id] was entered. *)
Definition scrapes (evs : list event) : nat :=
  List.length (filter is_scrape evs).

(** The request of the validator's probe. *)
Definition probe (E : env) (cid : str) : request :=
  mkRequest (probe_url E cid) [].

(** The state after the validator has probed with [cid] and reached the
    verdict [valid]. *)
Definition after_probe (E : env) (cid : str) (valid : bool) (st : state)
  : state :=
  mkState (probe E cid :: requests st) (files st) (cache st) (printed st)
          (EValidate cid valid :: trace st).

(** A world whose network gives the same answer to every request. *)
Definition constant_env (answer : reply) : env :=
  mkEnv (fun _ _ => answer) (fun base ref => Some (base ++ ref))
        (fun _ => []) (fun _ => []) true (fun _ => true).

Definition bare_response (status : Z) : response :=
  mkResponse status [] (inr JNull) HAbsent None.

Definition initial_state : state := mkState [] [] NoFile [] [].

(** A state whose cache file holds [contents]. *)
Definition cached_state (contents : str) : state :=
  mkState [] [] (Contents contents) [] [].

(** A page that carries a token, and a world that serves it for every
    request except those to the API, which it answers with [status]. *)
Definition token_page : str :=
  lit "<html>client_id:" ++ dquote ++ token_b ++ dquote ++ lit "</html>".

Definition page_response : response :=
  mkResponse 200 token_page (inr JNull) HAbsent None.

Definition api_status_env (status : Z) : env :=
  mkEnv (fun _ rq =>
           if startswith soundcloud_api (req_url rq)
           then Resp (bare_response status)
           else Resp page_response)
        (fun base ref => Some (base ++ ref)) (fun _ => []) (fun _ => [])
        true (fun _ => true).

(** The error kinds of the specification, read off the exception the
    program raises and, for its own exception class, off the message. *)
Inductive error_kind : Type :=
| CredentialNotFound
| CredentialUnavailable
| CredentialRejected
| UnresolvableUrl
| EmptyPlaylist
| MediaUrlMissing
| TransportError
| UnsupportedType
| Unanticipated.

Definition kind_of (e : exn) : error_kind :=
  match e with
  | SoundCloudError m =>
      if str_eqb m msg_no_client_id then CredentialNotFound
      else if str_eqb m msg_client_id_broken then CredentialUnavailable
      else if str_eqb m msg_access_denied then CredentialRejected
      else if str_eqb m msg_unresolved then UnresolvableUrl
      else if str_eqb m msg_empty_playlist then EmptyPlaylist
      else if str_eqb m msg_no_mp3_url then MediaUrlMissing
      else if startswith msg_network_error m then TransportError
      else if startswith msg_unsupported m then UnsupportedType
      else Unanticipated
  | HTTPError _ => TransportError
  | RequestException _ => TransportError
  | _ => Unanticipated
  end.

(** The request of the resolver. *)
Definition resolve_request (client_id url : str) : request :=
  mkRequest (soundcloud_api ++ lit "/resolve")
            [(lit "url", url); (lit "client_id", client_id)].

(** [v.get(k)] on a dict, [None] when the key is missing. *)
Definition field (k : str) (v : json) : json :=
  match v with
  | JObj kv =>
      match assoc k kv with
      | Some x => x
      | None => JNull
      end
  | _ => JNull
  end.

Definition is_dict (v : json) : bool :=
  match v with
  | JObj _ => true
  | _ => false
  end.

Definition is_str (v : json) : bool :=
  match v with
  | JStr _ => true
  | _ => false
  end.

(** The [format] dictionary of a transcoding descriptor as the loop reads
    it: [transcode.get(format) or {}]. *)
Definition format_of (d : json) : json :=
  py_or (field (lit "format") d) (JObj []).

(** A descriptor is eligible when the MIME type of its format names MPEG
    audio and its protocol is [progressive]. *)
Definition eligible (d : json) : bool :=
  match field (lit "mime_type") (format_of d) with
  | JStr mime => contains (lit "audio/mpeg") mime
  | _ => false
  end
  && py_eq_str (field (lit "protocol") (format_of d)) (lit "progressive").

(** A descriptor of the data model: an object whose format, when it has
    one, is an object whose MIME type, when it has one, is a string. *)
Definition wf_descriptor (d : json) : bool :=
  is_dict d && is_dict (format_of d)
  && match format_of d with
     | JObj kv =>
         match assoc (lit "mime_type") kv with
         | Some v => is_str v
         | None => true
         end
     | _ => false
     end.

(** The descriptors of a track: [media.transcodings], nothing when either
    is missing or empty. *)
Definition transcodings_of (track : json) : list json :=
  match py_or (field (lit "transcodings")
                 (py_or (field (lit "media") track) (JObj [])))
              (JArr []) with
  | JArr l => l
  | _ => []
  end.

(** A track of the data model: an object; its media, when present, an
    object whose transcodings, when present, are an array of descriptors;
    its user, when present, an object whose username, when present, is a
    string. *)
Definition wf_track (track : json) : bool :=
  is_dict track
  && is_dict (py_or (field (lit "media") track) (JObj []))
  && match py_or (field (lit "transcodings")
                    (py_or (field (lit "media") track) (JObj [])))
                 (JArr []) with
     | JArr l => forallb wf_descriptor l
     | _ => false
     end
  && match py_or (field (lit "user") track) (JObj []) with
     | JObj kv =>
         match assoc (lit "username") kv with
         | Some v => is_str v
         | None => true
         end
     | _ => false
     end.

(** A track with two descriptors, the second one eligible, and a track
    with none eligible. *)
Definition descriptor (mime protocol : string) (url : string) : json :=
  JObj [(lit "url", JStr (lit url));
        (lit "format", JObj [(lit "protocol", JStr (lit protocol));
                             (lit "mime_type", JStr (lit mime))])].

Definition track_of (title : string) (descriptors : list json) : json :=
  JObj [(lit "kind", JStr (lit "track"));
        (lit "title", JStr (lit title));
        (lit "user", JObj [(lit "username", JStr (lit "artist"))]);
        (lit "media", JObj [(lit "transcodings", JArr descriptors)])].

Definition hls_descriptor : json :=
  descriptor "audio/mpeg" "hls" "https://api/t/hls".
Definition opus_descriptor : json :=
  descriptor "audio/ogg; codecs=opus" "progressive" "https://api/t/opus".
Definition mp3_descriptor : json :=
  descriptor "audio/mpeg" "progressive" "https://api/t/mp3".

Definition playable_track : json :=
  track_of "song" [hls_descriptor; mp3_descriptor; opus_descriptor].
Definition unplayable_track : json :=
  track_of "stream" [hls_descriptor; opus_descriptor].

(** The candidate the loop of [download_track] tests after [n] failed
    tests, when it started from [save_path] with the counter at
    [counter]. *)
Definition candidate (base ext : str) (counter : nat) (save_path : str)
    (n : nat) : str :=
  match n with
  | O => save_path
  | S k => base ++ lit " (" ++ Py.of_nat (counter + k) ++ lit ")" ++ ext
  end.

(** A name with no slash and with a character other than a dot. *)
Definition plain_stem (stem : str) : bool :=
  forallb (fun c => negb (char_eqb c slash)) stem
  && existsb (fun c => negb (char_eqb c dot)) stem.

(** A user profile, as the resolver returns it. *)
Definition user_entity : json :=
  JObj [(lit "kind", JStr (lit "user")); (lit "username", JStr (lit "artist"))].

(** What [path_join] puts in front of a name that does not start with a
    slash. *)
Definition dir_prefix (dir : str) : str :=
  match dir with
  | [] => []
  | _ => if endswith_char slash dir then dir else dir ++ [slash]
  end.

Definition mp3_ext : str := lit ".mp3".

(** The tracks whose download was started, oldest first, and the number
    of completed saves, in a piece of trace. *)
Definition attempted (evs : list event) : list json :=
  rev (flat_map (fun e => match e with
                          | EAttempt t => [t]
                          | _ => []
                          end) evs).

Definition saved (evs : list event) : nat :=
  List.length (filter (fun e => match e with
                                | ESaved _ => true
                                | _ => false
                                end) evs).

(** A track of the data model with no eligible descriptor. *)
Definition ineligible (track : json) : bool :=
  wf_track track
  && forallb (fun x => negb (eligible x)) (transcodings_of track).

Definition msg_skipped : str :=
  lit "some tracks were skipped (probably no mp3 available).".

(** What the two [print]s of the final report put on the output. *)
Definition report_lines (success_count total_count : nat) : list str :=
  (if (success_count <? total_count)%nat then [msg_skipped] else [])
  ++ [report_line success_count total_count].

(** A playlist entity. *)
Definition playlist_of (tracks : list json) : json :=
  JObj [(lit "kind", JStr (lit "playlist")); (lit "tracks", JArr tracks)].

(** A world in which every request succeeds with a body that names a
    media URL. *)
Definition media_response : response :=
  mkResponse 200 []
    (inr (JObj [(lit "url", JStr (lit "https://cdn/file.mp3"))]))
    HAbsent None.

Definition serving_env : env := constant_env (Resp media_response).

(** A world in which every request is answered with status 500. *)
Definition failing_env : env := constant_env (Resp (bare_response 500)).

(** A playlist of three tracks, the second one without an eligible
    rendition, and a playlist whose first track is playable. *)
Definition mixed_playlist : json :=
  playlist_of [playable_track; unplayable_track; playable_track].

Definition two_track_playlist : json :=
  playlist_of [playable_track; unplayable_track].

(** A site whose pages carry no token but link to one script that
    does, as an assignment. *)
Definition script_page : str :=
  lit "<html><script crossorigin src=" ++ dquote ++ lit "/assets/app.js"
  ++ dquote ++ lit "></script></html>".

Definition script_body : str :=
  lit "var client_id = " ++ dquote ++ token_b ++ dquote ++ lit ";".

Definition script_site_env : env :=
  mkEnv (fun _ rq =>
           if str_eqb (req_url rq) (soundcloud_home ++ lit "/assets/app.js")
           then Resp (mkResponse 200 script_body (inr JNull) HAbsent None)
           else if startswith soundcloud_api (req_url rq)
           then Resp (bare_response 200)
           else Resp (mkResponse 200 script_page (inr JNull) HAbsent None))
        (fun base ref => Some (base ++ ref)) (fun _ => []) (fun _ => [])
        true (fun _ => true).

(** A world whose [urljoin] raises on a reference with an opening
    bracket, and whose pages hold a token, a script tag that
    [urljoin] resolves, and one on which it raises. *)
Definition bad_src_page : str :=
  lit "<html><script src=" ++ dquote ++ lit "/a.js" ++ dquote
  ++ lit "></script><script async src=" ++ dquote ++ lit "ftp://[x" ++ dquote
  ++ lit "></script>client_id:" ++ dquote ++ token_b ++ dquote
  ++ lit "</html>".

Definition bracket_env : env :=
  mkEnv (fun _ _ =>
           Resp (mkResponse 200 bad_src_page (inr JNull) HAbsent None))
        (fun base ref =>
           if contains (lit "[") ref then None else Some (base ++ ref))
        (fun _ => []) (fun _ => []) true (fun _ => true).

(** The same world with another answer to whether the cache file can be
    written. *)
Definition set_cache_writable (b : bool) (E : env) : env :=
  mkEnv (net E) (urljoin E) (urlencode E) (format_compound E) b
        (can_create E).

(** What [get_cached_client_id] reads from a cache file. *)
Definition cached_value (c : cache_state) : option str :=
  match c with
  | Contents s =>
      match strip s with
      | [] => None
      | cid => Some cid
      end
  | _ => None
  end.

(** Two states that differ at most in the cache file. *)
Definition same_but_cache (s1 s2 : state) : Prop :=
  requests s1 = requests s2 /\ files s1 = files s2 /\
  printed s1 = printed s2 /\ trace s1 = trace s2.

(** Every capturing group of the pattern takes 32 characters. *)
Definition tokens_are_32 (p : pattern) : bool :=
  forallb (fun a => match a with
                    | AToken n => Nat.eqb n 32
                    | _ => true
                    end) p.

Definition has_token (p : pattern) : bool :=
  existsb (fun a => match a with
                    | AToken _ => true
                    | _ => false
                    end) p.

(** [m] adds at most [n] requests to the log, and removes none. *)
Definition sends_at_most (n : nat) {A : Type} (m : M A) : Prop :=
  forall st,
    exists new,
      requests (fst (m st)) = new ++ requests st /\
      (List.length new <= n)%nat.

(** The request for a page of the site. *)
Definition page_request (url : str) : request := mkRequest url [].

(** The request for one of the extra pages; none when [urljoin] raises
    on its path. *)
Definition extra_request (E : env) (page : str) : list request :=
  match urljoin E soundcloud_home page with
  | Some url => [page_request url]
  | None => []
  end.

(** A playlist entity whose track list is empty. *)
Definition empty_playlist : json :=
  JObj [(lit "kind", JStr (lit "system-playlist")); (lit "tracks", JArr [])].

(** The state after one more request for [url], and after the creation
    of one more file. *)
Definition sent (E : env) (url : str) (st : state) : state :=
  mkState (page_request url :: requests st) (files st) (cache st)
          (printed st) (trace st).

Definition stored (path : str) (st : state) : state :=
  mkState (requests st) (path :: files st) (cache st) (printed st)
          (trace st).

(** ** [fix_shortlink]

    The function opens a session of its own and lets it follow redirects,
    so what it sees of the network is the last response of a chain: its
    status, its URL, and whether it is itself a redirect. *)

Record followed : Type := mkFollowed {
  f_status : Z;
  f_url : str;
  f_is_redirect : bool
}.

Inductive followed_reply : Type :=
| FollowFail (msg : str)
| Followed (r : followed).

(** The answers to [s.head(url, allow_redirects=True)] and to
    [s.get(url, allow_redirects=True)]. *)
Record redirect_env : Type := mkRedirectEnv {
  head_follow : str -> followed_reply;
  get_follow : str -> followed_reply
}.

(** [response.ok] *)
Definition f_ok (r : followed) : bool :=
  negb ((400 <=? f_status r)%Z && (f_status r <? 600)%Z).

Definition shortlink_host : str := lit "on.soundcloud.com".
Definition soundcloud_host : str := lit "soundcloud.com".

(** The three characters that stand between the words of the first
    message in the source file. *)
Definition msg_fixed : str := lit "fixed shortlink " ++ [226; 8224; 8217] ++ lit " ".
Definition msg_not_fixed : str :=
  lit "warning: couldn't fix shortlink, using original url".

Definition msg_fix_failed (msg : str) : str :=
  lit "warning: shortlink fix failed (" ++ msg ++ lit "), using original url".

Definition fix_shortlink (R : redirect_env) (url : str) : M str :=
  if negb (contains shortlink_host url) then ret url
  else
    match head_follow R url with
    | FollowFail msg => print (msg_fix_failed msg) ;;; ret url
    | Followed response =>
        let retry :=
          (negb (f_ok response)
           || negb (contains soundcloud_host (f_url response)))
          && f_is_redirect response in
        match (if retry then get_follow R url else Followed response) with
        | FollowFail msg => print (msg_fix_failed msg) ;;; ret url
        | Followed response =>
            if f_ok response
               && match f_url response with [] => false | _ => true end
               && contains soundcloud_host (f_url response)
            then print (msg_fixed ++ f_url response) ;;; ret (f_url response)
            else print msg_not_fixed ;;; ret url
        end
    end.

(** A world in which the short link leads to a track page. *)
Definition resolving_redirects : redirect_env :=
  mkRedirectEnv
    (fun _ => Followed (mkFollowed 200
                          (lit "https://soundcloud.com/artist/song") false))
    (fun _ => FollowFail (lit "unused")).

(** A script is of use to the scan when it is fetched with a status that
    is not an error and a body that is not empty. *)
Definition usable_script (a : reply) : option str :=
  match a with
  | NetFail _ => None
  | Resp r =>
      match ok r, text r with
      | true, (_ :: _) as js_code => Some js_code
      | _, _ => None
      end
  end.

(** A name cut at every whitespace character, the pieces between two
    whitespace characters that follow each other being empty; and its
    words, the pieces that are not empty ([name.split()]). *)
Fixpoint split_ws (s : str) : list str :=
  match s with
  | [] => [[]]
  | c :: t =>
      if isspace c then [] :: split_ws t
      else match split_ws t with
           | w :: ws => (c :: w) :: ws
           | [] => [[c]]
           end
  end.

Definition words (s : str) : list str :=
  filter (fun w => match w with [] => false | _ => true end) (split_ws s).

(** The words put together again with one space between two of them. *)
Fixpoint join_words (ws : list str) : str :=
  match ws with
  | [] => []
  | w :: rest =>
      match rest with
      | [] => w
      | _ => w ++ 32 :: join_words rest
      end
  end.

(** The sanitized name, in the words of the claim: the characters to
    remove are taken out (a slash becomes a dash), and what is left is
    its words with a single space between them. *)
Definition sanitized (name : str) : str :=
  join_words
    (words (filter (fun c => negb (removed c)) (replace_char 47 45 name))).

(** A text with a character that is neither whitespace nor removed. *)
Definition has_content (s : str) : bool :=
  existsb (fun c => negb (isspace c) && negb (removed c)) s.

(** What a whitespace character at the head of [s] leaves in front of
    the result of [sub_ws b s]. *)
Definition lead (b : bool) (s : str) : str :=
  match s with
  | c :: _ => if isspace c && negb b then [32] else []
  | [] => []
  end.

(** The descriptors the loop of the selector runs over: those of a
    track that is an object whose media is missing, falsy or an object
    and whose transcodings are missing, falsy or an array.  Any other
    track has none. *)
Definition descriptors (track : json) : option (list json) :=
  if is_dict track && is_dict (py_or (field (lit "media") track) (JObj []))
  then match py_or (field (lit "transcodings")
                      (py_or (field (lit "media") track) (JObj [])))
                   (JArr []) with
       | JArr l => Some l
       | _ => None
       end
  else None.

(** A descriptor the loop cannot read, with the exception it meets:
    one that is not an object, one whose format is neither missing,
    falsy nor an object, and one whose MIME type is null, a boolean or a
    number. *)
Definition unreadable (d : json) : option exn :=
  if negb (is_dict d) then Some AttributeError
  else match format_of d with
       | JObj kv =>
           match assoc (lit "mime_type") kv with
           | Some JNull | Some (JBool _) | Some (JNum _) => Some TypeError
           | _ => None
           end
       | _ => Some AttributeError
       end.

(** A descriptor whose MIME type is null, and tracks that hold it. *)
Definition null_mime_descriptor : json :=
  JObj [(lit "url", JStr (lit "https://api/t/null"));
        (lit "format", JObj [(lit "protocol", JStr (lit "progressive"));
                             (lit "mime_type", JNull)])].

Definition null_mime_track : json := track_of "raw" [null_mime_descriptor].

Definition null_mime_first_track : json :=
  track_of "raw" [null_mime_descriptor; mp3_descriptor].

(** A line of the output that is not the final report: it does not
    start the way [report_line] does. *)
Definition not_report (line : str) : bool :=
  negb (startswith (lit "done.") line).

(** A playlist whose first track has a descriptor with a null MIME
    type. *)
Definition raw_first_playlist : json :=
  playlist_of [null_mime_track; playable_track].

(** The token [t], 32 characters of [0-9a-zA-Z], stands in [doc] in the
    form [f], [n] characters from the start; and it stands in [doc] in
    some form, somewhere. *)
Definition embedded_at (f : form) (n : nat) (doc t : str) : Prop :=
  exists pre post ws1 ws2,
    List.length pre = n /\
    forallb isspace ws1 = true /\ forallb isspace ws2 = true /\
    List.length t = 32%nat /\ forallb isalnum62 t = true /\
    doc = pre ++ embed f ws1 ws2 t ++ post.

Definition embedded (doc t : str) : Prop :=
  exists f n, embedded_at f n doc t.

(** The pattern for each form, and the place of the form in the list
    [patterns]. *)
Definition pattern_of (f : form) : pattern :=
  match f with
  | ColonAssign => p_colon
  | EqAssign => p_eq
  | JsonKey => p_json
  | QueryParam => p_query
  end.

Definition rank (f : form) : nat :=
  match f with
  | ColonAssign => 0
  | EqAssign => 1
  | JsonKey => 2
  | QueryParam => 3
  end.

(** The groups of all the matches of a pattern in a document, one start
    position after the other, and those of the four patterns. *)
Fixpoint matches_from (p : pattern) (doc : str) : list str :=
  match match_atoms p doc [] with
  | Some g => [g]
  | None => []
  end
  ++ match doc with
     | [] => []
     | _ :: t => matches_from p t
     end.

Definition matched_tokens (doc : str) : list str :=
  flat_map (fun p => matches_from p doc) patterns.

(** A document that says [client_id] twice and holds one token. *)
Definition one_token_doc : str :=
  lit "var client_id; client_id=" ++ token_a ++ lit "&x".

(** * Properties *)

(** ** Strings *)

Lemma lstrip_suffix (s : str) :
  exists l, s = l ++ lstrip s /\ forallb isspace l = true.
Proof.
  induction s as [|c t IH]; simpl.
  - exists []; auto.
  - destruct (isspace c) eqn:Hc.
    + destruct IH as [l [H1 H2]].
      exists (c :: l); simpl; rewrite Hc, H2; split; [congruence | reflexivity].
    + exists []; auto.
Qed.

Lemma lstrip_head (s : str) (c : char) (t : str) :
  lstrip s = c :: t -> isspace c = false.
Proof.
  induction s as [|x s' IH]; simpl; [discriminate|].
  destruct (isspace x) eqn:Hx; auto.
  intros H; injection H as -> _; assumption.
Qed.

Lemma rstrip_prefix (s : str) :
  exists l, s = rstrip s ++ l /\ forallb isspace l = true.
Proof.
  unfold rstrip.
  destruct (lstrip_suffix (rev s)) as [l [H1 H2]].
  exists (rev l); split.
  - rewrite <- rev_app_distr, <- H1, rev_involutive; reflexivity.
  - rewrite forallb_forall in *; intros x Hx; apply H2, in_rev; assumption.
Qed.

Lemma rstrip_last (s a : str) (c : char) :
  rstrip s = a ++ [c] -> isspace c = false.
Proof.
  unfold rstrip; intros H.
  apply (f_equal (@rev char)) in H.
  rewrite rev_involutive, rev_app_distr in H; simpl in H.
  eapply lstrip_head; eassumption.
Qed.

Lemma strip_middle (s : str) :
  exists l1 l2, s = l1 ++ strip s ++ l2.
Proof.
  unfold strip.
  destruct (lstrip_suffix s) as [l1 [H1 _]].
  destruct (rstrip_prefix (lstrip s)) as [l2 [H2 _]].
  exists l1, l2; rewrite <- H2; assumption.
Qed.

Lemma strip_head (s : str) (c : char) (t : str) :
  strip s = c :: t -> isspace c = false.
Proof.
  unfold strip; intros H.
  destruct (rstrip_prefix (lstrip s)) as [l2 [H2 _]].
  rewrite H in H2; simpl in H2.
  eapply lstrip_head; eassumption.
Qed.

Lemma strip_last (s a : str) (c : char) :
  strip s = a ++ [c] -> isspace c = false.
Proof. unfold strip; apply rstrip_last. Qed.

Lemma filter_nonspace_lstrip (s : str) :
  filter nonspace (lstrip s) = filter nonspace s.
Proof.
  induction s as [|c t IH]; simpl; auto.
  destruct (isspace c) eqn:Hc.
  - unfold nonspace at 2; rewrite Hc; simpl; exact IH.
  - reflexivity.
Qed.

Lemma filter_nonspace_rstrip (s : str) :
  filter nonspace (rstrip s) = filter nonspace s.
Proof.
  unfold rstrip.
  rewrite filter_rev, filter_nonspace_lstrip, <- filter_rev, rev_involutive.
  reflexivity.
Qed.

Lemma filter_nonspace_strip (s : str) :
  filter nonspace (strip s) = filter nonspace s.
Proof.
  unfold strip; rewrite filter_nonspace_rstrip; apply filter_nonspace_lstrip.
Qed.

Lemma filter_nonspace_sub_ws (b : bool) (s : str) :
  filter nonspace (sub_ws b s) = filter nonspace s.
Proof.
  revert b; induction s as [|c t IH]; intros b; simpl; auto.
  unfold nonspace at 2; destruct (isspace c) eqn:Hc; simpl.
  - destruct b; simpl; auto.
  - unfold nonspace at 1; rewrite Hc; simpl; f_equal; auto.
Qed.

Lemma filter_swap {A : Type} (p q : A -> bool) (l : list A) :
  filter p (filter q l) = filter q (filter p l).
Proof.
  induction l as [|x l IH]; simpl; auto.
  destruct (p x) eqn:Hp, (q x) eqn:Hq; simpl; rewrite ?Hp, ?Hq, IH; auto.
Qed.

Lemma filter_nonspace_replace (s : str) :
  filter nonspace (replace_char 47 45 s)
  = replace_char 47 45 (filter nonspace s).
Proof.
  unfold replace_char, char_eqb.
  induction s as [|c t IH]; simpl; auto.
  destruct (N.eqb_spec c 47) as [->|Hc]; simpl.
  - rewrite IH; reflexivity.
  - destruct (nonspace c); simpl; rewrite IH; auto.
    destruct (N.eqb_spec c 47); [contradiction | reflexivity].
Qed.

(** Every whitespace character that [sub_ws] leaves is a space. *)
Lemma sub_ws_spaces (b : bool) (s : str) (c : char) :
  In c (sub_ws b s) -> isspace c = true -> c = 32.
Proof.
  revert b; induction s as [|x t IH]; intros b; simpl; [tauto|].
  destruct (isspace x) eqn:Hx.
  - destruct b; simpl; [apply IH|].
    intros [<-|H]; auto. apply (IH true); assumption.
  - simpl; intros [<-|H] Hc; [congruence|]. apply (IH false); assumption.
Qed.

(** After a whitespace character, [sub_ws true] starts with none. *)
Lemma sub_ws_true_head (s : str) (d : char) (t : str) :
  sub_ws true s = d :: t -> isspace d = false.
Proof.
  induction s as [|x s' IH]; simpl; [discriminate|].
  destruct (isspace x) eqn:Hx; auto.
  intros H; injection H as -> _; assumption.
Qed.

(** [sub_ws] leaves no two whitespace characters side by side. *)
Lemma sub_ws_no_adjacent (b : bool) (s a : str) (c d : char) (t : str) :
  sub_ws b s = a ++ c :: d :: t -> isspace c = true -> isspace d = false.
Proof.
  revert b a; induction s as [|x s' IH]; intros b a; simpl.
  - destruct a; discriminate.
  - destruct (isspace x) eqn:Hx.
    + destruct b.
      * apply IH.
      * destruct a as [|y a']; simpl; intros H Hc.
        -- injection H as _ H. eapply sub_ws_true_head; eassumption.
        -- injection H as _ H. eapply IH; eassumption.
    + destruct a as [|y a']; simpl; intros H Hc.
      * injection H as -> _; congruence.
      * injection H as _ H. eapply IH; eassumption.
Qed.

(** ** [clean_filename] *)

Lemma unsafe_char_spec (c : char) :
  unsafe_char c = false -> ~ In c forbidden_chars /\ c0_control c = false.
Proof.
  unfold unsafe_char, forbidden_chars, c0_control; intros H.
  repeat (apply orb_false_iff in H; destruct H as [H ?]).
  repeat match goal with
         | K : (_ =? _) = false |- _ => apply N.eqb_neq in K
         end.
  split; [|assumption].
  simpl; intuition congruence.
Qed.

Lemma clean_filename_cleaned (name : str) :
  clean_filename name
  = match cleaned name with [] => default_name | _ => cleaned name end.
Proof. reflexivity. Qed.

Lemma sub_ws_in (b : bool) (s : str) (c : char) :
  In c (sub_ws b s) -> isspace c = false -> In c s.
Proof.
  revert b; induction s as [|x t IH]; intros b; simpl; [tauto|].
  destruct (isspace x) eqn:Hx.
  - destruct b; simpl.
    + intros H Hc; right; eapply IH; eassumption.
    + intros [<-|H] Hc; [discriminate Hc | right; eapply IH; eassumption].
  - simpl; intros [<-|H] Hc; [left; reflexivity | right; eapply IH; eassumption].
Qed.

Lemma cleaned_safe (name : str) (c : char) :
  In c (cleaned name) -> unsafe_char c = false.
Proof.
  unfold cleaned; intros H.
  destruct (strip_middle
              (sub_ws false (remove_unsafe (replace_char 47 45 (strip name)))))
    as [l1 [l2 Hm]].
  assert (Hin : In c (sub_ws false
                        (remove_unsafe (replace_char 47 45 (strip name))))).
  { rewrite Hm; apply in_or_app; right; apply in_or_app; left; assumption. }
  destruct (isspace c) eqn:Hc.
  - rewrite (sub_ws_spaces _ _ _ Hin Hc); reflexivity.
  - apply sub_ws_in in Hin; [|assumption].
    unfold remove_unsafe in Hin; apply filter_In in Hin.
    destruct Hin as [_ Hin]; apply negb_true_iff in Hin; assumption.
Qed.

Lemma cleaned_spacing (name a : str) (c : char) (b : str) :
  cleaned name = a ++ c :: b -> isspace c = true ->
  c = 32 /\ a <> [] /\ b <> [] /\
  (forall d b', b = d :: b' -> isspace d = false).
Proof.
  unfold cleaned.
  set (w := sub_ws false (remove_unsafe (replace_char 47 45 (strip name)))).
  intros H Hc.
  destruct (strip_middle w) as [l1 [l2 Hm]].
  rewrite H in Hm.
  repeat split.
  - apply (sub_ws_spaces false
             (remove_unsafe (replace_char 47 45 (strip name))) c); [|assumption].
    fold w; rewrite Hm; apply in_or_app; right; apply in_or_app; left.
    apply in_or_app; right; left; reflexivity.
  - intros ->; simpl in H; apply strip_head in H; congruence.
  - intros ->; apply strip_last in H; congruence.
  - intros d b' ->.
    apply (sub_ws_no_adjacent false
             (remove_unsafe (replace_char 47 45 (strip name)))
             (l1 ++ a) c d (b' ++ l2)); [|assumption].
    fold w; rewrite Hm, <- !app_assoc; reflexivity.
Qed.

Lemma cleaned_kept (name : str) :
  filter nonspace (cleaned name) = kept_chars name.
Proof.
  unfold cleaned, kept_chars, remove_unsafe.
  rewrite filter_nonspace_strip, filter_nonspace_sub_ws.
  rewrite !(filter_swap nonspace), !filter_nonspace_replace.
  rewrite filter_nonspace_strip; reflexivity.
Qed.

(** ** The client-id patterns *)

Lemma char_eqb_refl (c : char) : char_eqb c c = true.
Proof. apply N.eqb_refl. Qed.

Lemma eat_app (l s : str) : eat l (l ++ s) = Some s.
Proof.
  induction l as [|c l IH]; simpl; [reflexivity|].
  rewrite char_eqb_refl; exact IH.
Qed.

Lemma eat_startswith (l s r : str) : eat l s = Some r -> startswith l s = true.
Proof.
  revert s; induction l as [|c l IH]; intros [|x s]; simpl; auto; try discriminate.
  destruct (char_eqb c x); [apply IH | discriminate].
Qed.

Lemma startswith_app (a b s : str) :
  startswith (a ++ b) s = true -> startswith b (skipn (List.length a) s) = true.
Proof.
  revert s; induction a as [|c a IH]; intros s; simpl; auto.
  destruct s as [|x s]; [discriminate|].
  intros H; apply andb_true_iff in H; destruct H as [_ H]; apply IH; exact H.
Qed.

Lemma startswith_prefix (a b s : str) :
  startswith (a ++ b) s = true -> startswith a s = true.
Proof.
  revert s; induction a as [|c a IH]; intros s; simpl; auto.
  destruct s as [|x s]; [discriminate|].
  intros H; apply andb_true_iff in H; destruct H as [H1 H2].
  rewrite H1; simpl; apply IH; exact H2.
Qed.

Lemma take_alnum_app (t s : str) :
  forallb isalnum62 t = true ->
  take_alnum (List.length t) (t ++ s) = Some (t, s).
Proof.
  induction t as [|c t IH]; simpl; [reflexivity|].
  intros H; apply andb_true_iff in H; destruct H as [Hc Ht].
  rewrite Hc, (IH Ht); reflexivity.
Qed.

(** A run of whitespace in front of a text on which the rest of the
    pattern succeeds. *)
Lemma spaces_then_hit {A : Type} (k : str -> option A) (ws rest : str) (r : A) :
  forallb isspace ws = true ->
  spaces_then k rest = Some r ->
  spaces_then k (ws ++ rest) = Some r.
Proof.
  intros Hws Hk; induction ws as [|c ws IH]; simpl; [exact Hk|].
  simpl in Hws; apply andb_true_iff in Hws; destruct Hws as [Hc Hws].
  rewrite Hc, (IH Hws); reflexivity.
Qed.

Lemma spaces_then_nonspace {A : Type} (k : str -> option A) (c : char) (s : str) :
  isspace c = false -> spaces_then k (c :: s) = k (c :: s).
Proof. intros H; simpl; rewrite H; reflexivity. Qed.

Lemma patterns_eq : patterns = [p_colon; p_eq; p_json; p_query].
Proof. reflexivity. Qed.

Lemma skipn_length_app {A : Type} (pre : list A) (n : nat) (x : list A) :
  skipn (List.length pre + n) (pre ++ x) = skipn n x.
Proof. induction pre; simpl; auto. Qed.

Lemma alnum_range (c : char) : isalnum62 c = true -> 48 <= c <= 122.
Proof.
  unfold isalnum62; intros H.
  repeat (apply orb_true_iff in H; destruct H as [H|H]);
    apply andb_true_iff in H; destruct H as [Ha Hb];
    apply N.leb_le in Ha, Hb; lia.
Qed.

Lemma alnum_not_space (c : char) : isalnum62 c = true -> isspace c = false.
Proof.
  intros H; apply alnum_range in H; unfold isspace.
  replace (c <=? 13) with false by (symmetry; apply N.leb_gt; lia).
  replace (c <=? 32) with false by (symmetry; apply N.leb_gt; lia).
  replace (8192 <=? c) with false by (symmetry; apply N.leb_gt; lia).
  repeat match goal with
         | |- context [c =? ?n] =>
             replace (c =? n) with false by (symmetry; apply N.eqb_neq; lia)
         end.
  rewrite !andb_false_r; reflexivity.
Qed.

Lemma alnum_not_quote (c : char) : isalnum62 c = true -> char_eqb 34 c = false.
Proof.
  intros H; apply alnum_range in H; apply N.eqb_neq; lia.
Qed.

Lemma value_tail_hit (sep : char) (ws1 ws2 t post g : str) :
  isspace sep = false ->
  forallb isspace ws1 = true -> forallb isspace ws2 = true ->
  List.length t = 32%nat -> forallb isalnum62 t = true ->
  match_atoms (value_tail sep) (ws1 ++ [sep] ++ ws2 ++ dquote ++ t ++ dquote ++ post) g
  = Some t.
Proof.
  intros Hsep H1 H2 Hlen Ht.
  unfold value_tail; cbn [match_atoms].
  apply spaces_then_hit; [exact H1|].
  cbn [app]. rewrite spaces_then_nonspace by exact Hsep.
  cbn [eat]; rewrite char_eqb_refl.
  apply spaces_then_hit; [exact H2|].
  change (dquote ++ t ++ dquote ++ post) with (34 :: t ++ dquote ++ post).
  rewrite spaces_then_nonspace by reflexivity.
  change (eat dquote (34 :: t ++ dquote ++ post)) with (Some (t ++ dquote ++ post)).
  cbv iota beta.
  rewrite <- Hlen, take_alnum_app by exact Ht.
  rewrite eat_app; reflexivity.
Qed.

Lemma p_colon_eq : p_colon = ALit client_id_key :: value_tail 58.
Proof. reflexivity. Qed.
Lemma p_eq_eq : p_eq = ALit client_id_key :: value_tail 61.
Proof. reflexivity. Qed.
Lemma p_json_eq : p_json = ALit (dquote ++ client_id_key ++ dquote) :: value_tail 58.
Proof. reflexivity. Qed.

(** ** The monad *)

Lemma keeps_ret {X A : Type} (f : state -> X) (a : A) : keeps f (ret a).
Proof. intros st; reflexivity. Qed.

Lemma keeps_raise {X A : Type} (f : state -> X) (e : exn) : keeps f (@raise A e).
Proof. intros st; reflexivity. Qed.

Lemma keeps_lift {X A : Type} (f : state -> X) (r : result A) : keeps f (lift r).
Proof. intros st; reflexivity. Qed.

Lemma keeps_bind {X A B : Type} (f : state -> X) (m : M A) (k : A -> M B) :
  keeps f m -> (forall a, keeps f (k a)) -> keeps f (bind m k).
Proof.
  intros Hm Hk st; unfold bind.
  specialize (Hm st); destruct (m st) as [st' [a|e]]; simpl in *.
  - rewrite Hk; exact Hm.
  - exact Hm.
Qed.

Lemma keeps_try {X A : Type} (f : state -> X) (m : M A) (h : exn -> M A) :
  keeps f m -> (forall e, keeps f (h e)) -> keeps f (try_except m h).
Proof.
  intros Hm Hh st; unfold try_except.
  specialize (Hm st); destruct (m st) as [st' [a|e]]; simpl in *.
  - exact Hm.
  - rewrite Hh; exact Hm.
Qed.

Lemma session_get_keeps_trace (E : env) (rq : request) :
  keeps trace (session_get E rq).
Proof.
  intros st; unfold session_get; destruct (net E (requests st) rq); reflexivity.
Qed.

Lemma raise_for_status_keeps {X : Type} (f : state -> X) (r : response) :
  keeps f (raise_for_status r).
Proof.
  unfold raise_for_status; destruct (ok r); [apply keeps_ret | apply keeps_raise].
Qed.

Create HintDb keeps.

#[local] Hint Resolve keeps_ret keeps_raise keeps_lift session_get_keeps_trace
  raise_for_status_keeps : keeps.

Ltac keeps_step :=
  first [ apply keeps_bind; [|intros ?]
        | apply keeps_try; [|intros ?]
        | solve [auto with keeps] ].

(** ** The credential pipeline *)

Lemma extra_page_scripts_keeps_trace (E : env) (script_urls : list str)
    (page : str) :
  keeps trace (extra_page_scripts E script_urls page).
Proof.
  unfold extra_page_scripts, get_url.
  apply keeps_try; [|intros; apply keeps_ret].
  apply keeps_bind; [apply keeps_lift|]; intros url.
  apply keeps_bind; [apply session_get_keeps_trace|]; intros rr.
  destruct (ok rr); apply keeps_ret.
Qed.

Lemma scan_scripts_keeps_trace (E : env) (urls : list str) :
  keeps trace (scan_scripts E urls).
Proof.
  induction urls as [|u rest IH]; cbn [scan_scripts]; [apply keeps_ret|].
  apply keeps_bind.
  - apply keeps_try; [|intros; apply keeps_ret].
    apply keeps_bind; [apply session_get_keeps_trace|].
    intros r; destruct (ok r), (text r); apply keeps_ret.
  - intros [c|]; [apply keeps_ret | exact IH].
Qed.

Lemma scrape_site_keeps_trace (E : env) : keeps trace (scrape_site E).
Proof.
  unfold scrape_site, get_url.
  apply keeps_bind; [apply session_get_keeps_trace|]; intros r.
  apply keeps_bind; [apply raise_for_status_keeps|]; intros _.
  apply keeps_bind; [apply keeps_lift|]; intros m0.
  apply keeps_bind; [apply extra_page_scripts_keeps_trace|]; intros m1.
  apply keeps_bind; [apply extra_page_scripts_keeps_trace|]; intros m2.
  destruct (search_patterns patterns (text r)); [apply keeps_ret|].
  apply keeps_bind; [apply scan_scripts_keeps_trace|].
  intros [c|]; [apply keeps_ret | apply keeps_raise].
Qed.

(** What one call of [find_client_id] adds to the trace. *)
Lemma find_client_id_trace (E : env) (st : state) :
  match find_client_id E st with
  | (st', Ok cid) => trace st' = EFound cid :: EScrape :: trace st
  | (st', Raise _) => trace st' = EScrape :: trace st
  end.
Proof.
  unfold find_client_id, bind, emit; cbn [fst snd].
  match goal with |- context [scrape_site E ?s] =>
    pose proof (scrape_site_keeps_trace E s) as H;
    destruct (scrape_site E s) as [st' [cid|e]] end; simpl in *.
  - rewrite H; reflexivity.
  - exact H.
Qed.

(** The validator always returns, and its verdict is read off the answer
    to the probe. *)
Lemma check_client_id_valid_run (E : env) (cid : str) (st : state) :
  check_client_id_valid E cid st
  = let valid :=
      match net E (requests st) (probe E cid) with
      | NetFail _ => false
      | Resp r =>
          if (status_code r =? 401)%Z || (status_code r =? 403)%Z
          then false else ok r
      end in
    (after_probe E cid valid st, Ok valid).
Proof.
  unfold check_client_id_valid, bind, try_except, get_url, session_get,
    after_probe, probe, emit, ret.
  destruct (net E (requests st) (mkRequest (probe_url E cid) [])) as [msg|r];
    cbn [fst snd]; [reflexivity|].
  destruct ((status_code r =? 401)%Z || (status_code r =? 403)%Z);
    reflexivity.
Qed.

(** C3 (amended): the validator never raises; it returns false when the
    probe is answered with status 401 or 403 and when the network fails;
    it returns true for every 2xx status; and it returns true only when
    the probe was answered with a status outside 400..599 (so also for a
    1xx or 3xx answer). *)
Theorem check_client_id_valid_verdict (E : env) (cid : str) (st : state) :
  exists valid,
    snd (check_client_id_valid E cid st) = Ok valid /\
    (forall r, net E (requests st) (probe E cid) = Resp r ->
       (status_code r = 401 \/ status_code r = 403)%Z -> valid = false) /\
    (forall msg, net E (requests st) (probe E cid) = NetFail msg ->
       valid = false) /\
    (forall r, net E (requests st) (probe E cid) = Resp r ->
       (200 <= status_code r < 300)%Z -> valid = true) /\
    (valid = true ->
       exists r, net E (requests st) (probe E cid) = Resp r /\
                 ~ (400 <= status_code r < 600)%Z).
Proof.
  rewrite check_client_id_valid_run; cbv zeta; cbn [snd].
  eexists; split; [reflexivity|].
  destruct (net E (requests st) (probe E cid)) as [msg|r].
  - split; [|split; [|split]].
    + intros r H; discriminate H.
    + reflexivity.
    + intros r H; discriminate H.
    + intros H; discriminate H.
  - split; [|split; [|split]].
    + intros r' H [Hs|Hs]; injection H as <-; rewrite Hs; reflexivity.
    + intros msg H; discriminate H.
    + intros r' H Hs; injection H as <-.
      replace (status_code r =? 401)%Z with false by (symmetry; apply Z.eqb_neq; lia).
      replace (status_code r =? 403)%Z with false by (symmetry; apply Z.eqb_neq; lia).
      unfold ok.
      replace (400 <=? status_code r)%Z with false by (symmetry; apply Z.leb_gt; lia).
      reflexivity.
    + intros H; exists r; split; [reflexivity|].
      destruct ((status_code r =? 401)%Z || (status_code r =? 403)%Z);
        [discriminate H|].
      unfold ok in H; apply negb_true_iff, andb_false_iff in H.
      destruct H as [H|H]; [apply Z.leb_gt in H | apply Z.ltb_ge in H]; lia.
Qed.

(** C3, as stated, fails: a probe answered with status 304, which is not
    a 2xx status, is taken as a confirmation. *)
Lemma check_client_id_valid_true_on_304 :
  ~ (forall (E : env) (cid : str) (st : state) (r : response),
       net E (requests st) (probe E cid) = Resp r ->
       snd (check_client_id_valid E cid st) = Ok true ->
       (200 <= status_code r < 300)%Z).
Proof.
  intros H.
  specialize (H (constant_env (Resp (bare_response 304))) (lit "abc")
                initial_state (bare_response 304) eq_refl eq_refl).
  simpl in H; lia.
Qed.

Lemma get_cached_client_id_state (st : state) :
  fst (get_cached_client_id st) = st.
Proof.
  unfold get_cached_client_id; destruct (cache st); try reflexivity.
  destruct (strip s); reflexivity.
Qed.

Lemma save_client_id_keeps_trace (E : env) (cid : str) :
  keeps trace (save_client_id E cid).
Proof.
  intros st; unfold save_client_id; destruct (cache_writable E); reflexivity.
Qed.

Lemma save_client_id_ok (E : env) (cid : str) (st : state) :
  snd (save_client_id E cid st) = Ok tt.
Proof. unfold save_client_id; destruct (cache_writable E); reflexivity. Qed.

(** The five ways [scrape_and_save] can go, by what it adds to the
    trace. *)
Lemma scrape_and_save_cases (E : env) (st st' : state) (r : result str) :
  scrape_and_save E st = (st', r) ->
  exists evs,
    trace st' = evs ++ trace st /\
    ((exists e, evs = [EScrape] /\ r = Raise e) \/
     (exists c, evs = [EValidate c true; EFound c; EScrape] /\ r = Ok c) \/
     (exists c1 e,
        evs = [EScrape; EValidate c1 false; EFound c1; EScrape] /\
        r = Raise e) \/
     (exists c1 c2,
        evs = [EValidate c2 true; EFound c2; EScrape;
               EValidate c1 false; EFound c1; EScrape] /\
        r = Ok c2) \/
     (exists c1 c2,
        evs = [EValidate c2 false; EFound c2; EScrape;
               EValidate c1 false; EFound c1; EScrape] /\
        r = Raise (SoundCloudError msg_client_id_broken))).
Proof.
  unfold scrape_and_save, bind; intros H.
  pose proof (find_client_id_trace E st) as H1.
  destruct (find_client_id E st) as [s1 [c1|e1]].
  2:{ injection H as <- <-. exists [EScrape]; split; [exact H1|]. left; eauto. }
  rewrite check_client_id_valid_run in H; cbv zeta in H.
  match type of H with context [after_probe E c1 ?v s1] =>
    destruct v end.
  - unfold ret at 1 in H.
    pose proof (save_client_id_keeps_trace E c1 (after_probe E c1 true s1)) as Hs.
    pose proof (save_client_id_ok E c1 (after_probe E c1 true s1)) as Ho.
    destruct (save_client_id E c1 (after_probe E c1 true s1)) as [s2 [[]|e]];
      simpl in Ho; [|discriminate].
    injection H as <- <-; simpl in Hs.
    exists [EValidate c1 true; EFound c1; EScrape]; split.
    + rewrite Hs, H1; reflexivity.
    + right; left; eauto.
  - pose proof (find_client_id_trace E (after_probe E c1 false s1)) as H2.
    destruct (find_client_id E (after_probe E c1 false s1)) as [s2 [c2|e2]].
    2:{ injection H as <- <-.
        exists [EScrape; EValidate c1 false; EFound c1; EScrape]; split.
        - rewrite H2; simpl; rewrite H1; reflexivity.
        - right; right; left; eauto. }
    rewrite check_client_id_valid_run in H; cbv zeta in H.
    match type of H with context [after_probe E c2 ?v s2] =>
      destruct v end.
    + unfold ret at 1 in H.
      pose proof (save_client_id_keeps_trace E c2 (after_probe E c2 true s2)) as Hs.
      pose proof (save_client_id_ok E c2 (after_probe E c2 true s2)) as Ho.
      destruct (save_client_id E c2 (after_probe E c2 true s2)) as [s3 [[]|e]];
        simpl in Ho; [|discriminate].
      injection H as <- <-; simpl in Hs, H2.
      exists [EValidate c2 true; EFound c2; EScrape;
              EValidate c1 false; EFound c1; EScrape]; split.
      * rewrite Hs, H2, H1; reflexivity.
      * right; right; right; left; eauto.
    + unfold raise in H; injection H as <- <-; simpl in H2.
      exists [EValidate c2 false; EFound c2; EScrape;
              EValidate c1 false; EFound c1; EScrape]; split.
      * simpl; rewrite H2, H1; reflexivity.
      * right; right; right; right; eauto.
Qed.

(** C4: a run of [get_client_id] enters the scraper at most twice, and a
    run that ends on a scraped candidate rejected by the validator has
    entered it exactly twice (the candidate is the second one) and fails
    with the error of an unavailable credential. *)
Theorem get_client_id_at_most_two_scrapes (E : env) (st : state) :
  exists evs,
    trace (fst (get_client_id E st)) = evs ++ trace st /\
    (scrapes evs <= 2)%nat /\
    (forall c earlier,
       evs = EValidate c false :: EFound c :: EScrape :: earlier ->
       scrapes evs = 2%nat /\
       snd (get_client_id E st)
       = Raise (SoundCloudError msg_client_id_broken)).
Proof.
  destruct (get_client_id E st) as [st' r] eqn:Hrun; cbn [fst snd].
  unfold get_client_id, bind in Hrun.
  pose proof (get_cached_client_id_state st) as Hc.
  destruct (get_cached_client_id st) as [s0 [[cid|]|e]]; simpl in Hc; subst s0.
  - rewrite check_client_id_valid_run in Hrun; cbv zeta in Hrun.
    match type of Hrun with context [after_probe E cid ?v st] =>
      destruct v end.
    + injection Hrun as <- <-.
      exists [EValidate cid true]; split; [reflexivity|].
      split; [unfold scrapes; simpl; lia|].
      intros c earlier H; discriminate H.
    + destruct (scrape_and_save_cases E _ _ _ Hrun) as [evs [Ht Hcases]].
      exists (evs ++ [EValidate cid false]); split.
      { rewrite Ht, <- app_assoc; reflexivity. }
      destruct Hcases as [[e [-> Hr]]|[[c [-> Hr]]|[[c1 [e [-> Hr]]]|
                          [[c1 [c2 [-> Hr]]]|[c1 [c2 [-> Hr]]]]]]];
        (split; [unfold scrapes; simpl; lia|]);
        intros c0 earlier H; try discriminate H.
      split; [reflexivity | exact Hr].
  - destruct (scrape_and_save_cases E _ _ _ Hrun) as [evs [Ht Hcases]].
    exists evs; split; [exact Ht|].
    destruct Hcases as [[e [-> Hr]]|[[c [-> Hr]]|[[c1 [e [-> Hr]]]|
                        [[c1 [c2 [-> Hr]]]|[c1 [c2 [-> Hr]]]]]]];
      (split; [unfold scrapes; simpl; lia|]);
      intros c0 earlier H; try discriminate H.
    split; [reflexivity | exact Hr].
  - injection Hrun as <- <-.
    exists []; split; [reflexivity|].
    split; [unfold scrapes; simpl; lia|].
    intros c earlier H; discriminate H.
Qed.

(** C5: when the cache holds a credential and the validator confirms it,
    [get_client_id] returns that credential; the scraper is not entered
    and the probe is the only request made. *)
Theorem get_client_id_cached_valid (E : env) (st st1 : state) (cid : str) :
  snd (get_cached_client_id st) = Ok (Some cid) ->
  check_client_id_valid E cid st = (st1, Ok true) ->
  get_client_id E st = (st1, Ok cid) /\
  trace st1 = EValidate cid true :: trace st /\
  scrapes (trace st1) = scrapes (trace st) /\
  requests st1 = probe E cid :: requests st.
Proof.
  intros Hc Hv.
  unfold get_client_id, bind.
  pose proof (get_cached_client_id_state st) as Hs.
  destruct (get_cached_client_id st) as [s0 r]; simpl in Hc, Hs; subst s0 r.
  rewrite Hv; split; [reflexivity|].
  rewrite check_client_id_valid_run in Hv; cbv zeta in Hv.
  injection Hv as <- Hb; rewrite Hb.
  repeat split.
Qed.

Lemma get_client_id_cached_valid_witness :
  get_client_id (api_status_env 200) (cached_state (lit " abc "))
  = (after_probe (api_status_env 200) (lit "abc") true
       (cached_state (lit " abc ")), Ok (lit "abc")).
Proof.
  apply (get_client_id_cached_valid (api_status_env 200)
           (cached_state (lit " abc "))
           (after_probe (api_status_env 200) (lit "abc") true
              (cached_state (lit " abc ")))
           (lit "abc")); reflexivity.
Defined.

(** A run in which both scraped candidates are rejected. *)
Example get_client_id_rejected_twice :
  snd (get_client_id (api_status_env 401) initial_state)
  = Raise (SoundCloudError msg_client_id_broken) /\
  trace (fst (get_client_id (api_status_env 401) initial_state))
  = [EValidate token_b false; EFound token_b; EScrape;
     EValidate token_b false; EFound token_b; EScrape].
Proof. split; vm_compute; reflexivity. Qed.

(** A run that finds the token in a script bundle: the home page, the
    two extra pages, the script, then the probe; the new credential is
    written to the cache. *)
Example get_client_id_from_script :
  let run := get_client_id script_site_env initial_state in
  snd run = Ok token_b /\
  map req_url (requests (fst run))
  = [probe_url script_site_env token_b;
     soundcloud_home ++ lit "/assets/app.js";
     soundcloud_home ++ lit "/charts/top";
     soundcloud_home ++ lit "/discover";
     soundcloud_home] /\
  cache (fst run) = Contents token_b.
Proof. cbv zeta; repeat split; vm_compute; reflexivity. Qed.

(** ** The resolver *)

Lemma str_eqb_eq (a b : str) : str_eqb a b = true <-> a = b.
Proof.
  revert b; induction a as [|x a IH]; intros [|y b]; simpl;
    try (split; [discriminate | discriminate]); [tauto|].
  unfold char_eqb; rewrite andb_true_iff, N.eqb_eq, IH.
  split; [intros [-> ->]; reflexivity | intros H; injection H; auto].
Qed.

Lemma startswith_self_app (a b : str) : startswith a (a ++ b) = true.
Proof.
  induction a as [|c a IH]; simpl; [reflexivity|].
  rewrite char_eqb_refl; exact IH.
Qed.

(** What the resolver does with each answer of the network. *)
Lemma resolve_soundcloud_url_run (E : env) (client_id url : str) (st : state) :
  snd (resolve_soundcloud_url E client_id url st)
  = match net E (requests st) (resolve_request client_id url) with
    | NetFail msg => Raise (SoundCloudError (msg_network_error ++ msg))
    | Resp r =>
        if ok r
        then match json_body r with
             | inr data =>
                 if truthy data then Ok data
                 else Raise (SoundCloudError msg_unresolved)
             | inl msg => Raise (SoundCloudError (msg_network_error ++ msg))
             end
        else if (status_code r =? 401)%Z || (status_code r =? 403)%Z
             then Raise (SoundCloudError msg_access_denied)
             else Raise (HTTPError (status_code r))
    end.
Proof.
  unfold resolve_soundcloud_url, api_request, bind, try_except, session_get,
    resolve_request, raise_for_status, response_json.
  destruct (net E (requests st) _) as [msg|r]; [reflexivity|].
  rewrite andb_false_r.
  destruct (ok r); cbn [fst snd ret raise].
  - destruct (json_body r) as [msg|data]; cbn [fst snd ret raise].
    + reflexivity.
    + destruct (truthy data); reflexivity.
  - destruct ((status_code r =? 401)%Z || (status_code r =? 403)%Z);
      reflexivity.
Qed.

(** The parts of C2 the resolver honours: no data is an unresolvable URL,
    401 and 403 are a rejected credential, every other failure is a
    transport error. *)
Lemma resolve_soundcloud_url_errors (E : env) (client_id url : str)
    (st : state) :
  (forall r data,
     net E (requests st) (resolve_request client_id url) = Resp r ->
     ok r = true -> json_body r = inr data -> truthy data = false ->
     exists e, snd (resolve_soundcloud_url E client_id url st) = Raise e /\
               kind_of e = UnresolvableUrl) /\
  (forall r,
     net E (requests st) (resolve_request client_id url) = Resp r ->
     (status_code r = 401 \/ status_code r = 403)%Z ->
     exists e, snd (resolve_soundcloud_url E client_id url st) = Raise e /\
               kind_of e = CredentialRejected) /\
  (forall r,
     net E (requests st) (resolve_request client_id url) = Resp r ->
     ok r = false -> status_code r <> 401%Z -> status_code r <> 403%Z ->
     exists e, snd (resolve_soundcloud_url E client_id url st) = Raise e /\
               kind_of e = TransportError) /\
  (forall msg,
     net E (requests st) (resolve_request client_id url) = NetFail msg ->
     exists e, snd (resolve_soundcloud_url E client_id url st) = Raise e /\
               kind_of e = TransportError).
Proof.
  rewrite resolve_soundcloud_url_run.
  split; [|split; [|split]].
  - intros r data -> -> -> ->; eexists; split; reflexivity.
  - intros r -> Hs.
    assert (Hok : ok r = false) by (unfold ok; destruct Hs as [-> | ->]; reflexivity).
    rewrite Hok.
    assert (Hb : (status_code r =? 401)%Z || (status_code r =? 403)%Z = true)
      by (destruct Hs as [-> | ->]; reflexivity).
    rewrite Hb; eexists; split; reflexivity.
  - intros r -> -> H1 H3.
    apply Z.eqb_neq in H1, H3; rewrite H1, H3.
    eexists; split; reflexivity.
  - intros msg ->; eexists; split; [reflexivity|].
    unfold kind_of.
    assert (Hlen : forall m, str_eqb (msg_network_error ++ msg) m = true ->
                             startswith msg_network_error m = true).
    { intros m Hm; apply str_eqb_eq in Hm; rewrite <- Hm.
      apply startswith_self_app. }
    repeat match goal with
           | |- context [str_eqb (msg_network_error ++ msg) ?m] =>
               let Hm := fresh "Hm" in
               destruct (str_eqb (msg_network_error ++ msg) m) eqn:Hm;
               [apply Hlen in Hm; vm_compute in Hm; discriminate Hm|]
           end.
    rewrite startswith_self_app; reflexivity.
Qed.

(** C2, the part the code misses: the resolver calls [api_request]
    without [allow_404], so a 404 answer leaves it as the HTTP error of
    [raise_for_status], a transport error, not as an unresolvable URL. *)
Theorem resolve_soundcloud_url_404 (client_id url : str) :
  snd (resolve_soundcloud_url (constant_env (Resp (bare_response 404)))
         client_id url initial_state)
  = Raise (HTTPError 404) /\
  kind_of (HTTPError 404) = TransportError.
Proof. split; reflexivity. Qed.

(** With [allow_404] the same answer is [None], which the resolver's test
    [if not data] would turn into the unresolvable-URL error. *)
Lemma api_request_allow_404 (E : env) (url : str)
    (params : list (str * str)) (st : state) (r : response) :
  net E (requests st) (mkRequest url params) = Resp r ->
  status_code r = 404%Z ->
  snd (api_request E url params true st) = Ok JNull /\ truthy JNull = false.
Proof.
  intros Hn Hs; split; [|reflexivity].
  unfold api_request, bind, try_except, session_get.
  rewrite Hn, Hs; reflexivity.
Qed.

(** ** The rendition selector *)

Lemma py_get_field_dict (kv : list (str * json)) (k : str) :
  py_get (JObj kv) k JNull = Ok (field k (JObj kv)).
Proof. simpl; destruct (assoc k kv); reflexivity. Qed.

Lemma first_mp3_step (d : json) (rest : list json) :
  wf_descriptor d = true ->
  first_mp3 (d :: rest) = if eligible d then Ok d else first_mp3 rest.
Proof.
  cbn [first_mp3]; intros Hd.
  unfold wf_descriptor in Hd.
  apply andb_true_iff in Hd; destruct Hd as [Hd Hm].
  apply andb_true_iff in Hd; destruct Hd as [Hd Hf].
  destruct d as [| | | | |kv]; try discriminate Hd.
  rewrite py_get_field_dict; cbn [rbind].
  unfold eligible; fold (format_of (JObj kv)).
  destruct (format_of (JObj kv)) as [| | | | |fkv]; try discriminate Hf.
  unfold field; cbn [py_get].
  destruct (assoc (lit "mime_type") fkv) as [mime|]; cbn [rbind].
  - destruct mime as [| | |m| |]; try discriminate Hm.
    destruct (assoc (lit "protocol") fkv) as [protocol|]; cbn [rbind py_in].
    + reflexivity.
    + destruct (contains (lit "audio/mpeg") m); reflexivity.
  - destruct (assoc (lit "protocol") fkv) as [protocol|]; cbn [rbind py_in];
      reflexivity.
Qed.

Lemma first_mp3_find (l : list json) :
  forallb wf_descriptor l = true ->
  first_mp3 l = Ok match find eligible l with
                   | Some d => d
                   | None => JNull
                   end.
Proof.
  induction l as [|d l IH]; [reflexivity|].
  cbn [forallb find]; intros H.
  apply andb_true_iff in H; destruct H as [Hd Hl].
  rewrite (first_mp3_step d l Hd).
  destruct (eligible d); [reflexivity | exact (IH Hl)].
Qed.

Lemma find_first {A : Type} (f : A -> bool) (l : list A) (d : A) :
  find f l = Some d ->
  exists l1 l2, l = l1 ++ d :: l2 /\ f d = true /\
                forallb (fun x => negb (f x)) l1 = true.
Proof.
  induction l as [|x l IH]; simpl; [discriminate|].
  destruct (f x) eqn:Hx.
  - intros H; injection H as <-; exists [], l; auto.
  - intros H; destruct (IH H) as [l1 [l2 [-> [Hd Hl]]]].
    exists (x :: l1), l2; simpl; rewrite Hx; auto.
Qed.

Lemma find_mp3_transcoding_find (track : json) :
  wf_track track = true ->
  find_mp3_transcoding track
  = Ok match find eligible (transcodings_of track) with
       | Some d => d
       | None => JNull
       end.
Proof.
  unfold wf_track, transcodings_of, find_mp3_transcoding; intros H.
  apply andb_true_iff in H; destruct H as [H _].
  apply andb_true_iff in H; destruct H as [H Ht].
  apply andb_true_iff in H; destruct H as [Hd Hm].
  destruct track as [| | | | |kv]; try discriminate Hd.
  rewrite py_get_field_dict; cbn [rbind].
  destruct (py_or (field (lit "media") (JObj kv)) (JObj [])) as [| | | | |mkv];
    try discriminate Hm.
  rewrite py_get_field_dict; cbn [rbind].
  destruct (py_or (field (lit "transcodings") (JObj mkv)) (JArr []))
    as [| | | |l|]; try discriminate Ht.
  cbn [py_iter rbind]; apply first_mp3_find; exact Ht.
Qed.

Lemma find_none_iff (l : list json) :
  forallb (fun x => negb (eligible x)) l = true -> find eligible l = None.
Proof.
  intros Hnone.
  destruct (find eligible l) as [d|] eqn:Hd; [|reflexivity].
  apply find_some in Hd; destruct Hd as [Hin Hd].
  rewrite forallb_forall in Hnone; apply Hnone in Hin.
  rewrite Hd in Hin; discriminate.
Qed.

(** With no eligible descriptor, [get_track_download_info] returns
    [None] and leaves the state alone. *)
Lemma get_track_download_info_absent (E : env) (client_id : str)
    (track : json) (st : state) :
  wf_track track = true ->
  forallb (fun x => negb (eligible x)) (transcodings_of track) = true ->
  get_track_download_info E client_id track st = (st, Ok None).
Proof.
  intros Hwf Hnone.
  pose proof (find_mp3_transcoding_find track Hwf) as Hf.
  rewrite (find_none_iff _ Hnone) in Hf.
  unfold get_track_download_info, bind, lift.
  unfold wf_track in Hwf.
  apply andb_true_iff in Hwf; destruct Hwf as [Hwf Hu].
  apply andb_true_iff in Hwf; destruct Hwf as [Hwf _].
  apply andb_true_iff in Hwf; destruct Hwf as [Hd _].
  destruct track as [| | | | |kv]; try discriminate Hd.
  rewrite py_get_field_dict.
  assert (Ht : exists title,
             py_get (JObj kv) (lit "title") (JStr (lit "audio")) = Ok title)
    by (cbn [py_get]; destruct (assoc (lit "title") kv); eauto).
  destruct Ht as [title ->].
  destruct (py_or (field (lit "user") (JObj kv)) (JObj []))
    as [| | | | |ukv]; try discriminate Hu.
  cbn [py_get].
  destruct (assoc (lit "username") ukv) as [[| | |u| |]|];
    try discriminate Hu; cbn [py_strip]; rewrite Hf; reflexivity.
Qed.

(** ** Unsupported entities *)

(** C10: for every resolved entity whose kind is none of [track],
    [playlist] and [system-playlist], [handle_download] raises the
    unsupported-type error at once: the state is the one it started from,
    so no request was made and no download attempted. *)
Theorem handle_download_unsupported (E : env) (client_id output_dir : str)
    (fields : list (str * json)) (st : state) :
  let kind := field (lit "kind") (JObj fields) in
  py_eq_str kind (lit "track") = false ->
  py_eq_str kind (lit "playlist") = false ->
  py_eq_str kind (lit "system-playlist") = false ->
  handle_download E client_id (JObj fields) output_dir st
  = (st, Raise (SoundCloudError (msg_unsupported ++ fstr E kind))) /\
  kind_of (SoundCloudError (msg_unsupported ++ fstr E kind)) = UnsupportedType.
Proof.
  cbv zeta; intros H1 H2 H3; split.
  - unfold handle_download, bind, lift.
    rewrite py_get_field_dict, H1, H2, H3; reflexivity.
  - unfold kind_of.
    assert (Hp : forall m, str_eqb (msg_unsupported ++ fstr E (field (lit "kind") (JObj fields))) m = true ->
                           startswith msg_unsupported m = true).
    { intros m Hm; apply str_eqb_eq in Hm; rewrite <- Hm.
      apply startswith_self_app. }
    repeat match goal with
           | |- context [str_eqb (msg_unsupported ++ ?x) ?m] =>
               let Hm := fresh "Hm" in
               destruct (str_eqb (msg_unsupported ++ x) m) eqn:Hm;
               [apply Hp in Hm; vm_compute in Hm; discriminate Hm|]
           end.
    assert (Hn : startswith msg_network_error
                   (msg_unsupported ++ fstr E (field (lit "kind") (JObj fields))) = false)
      by reflexivity.
    rewrite Hn, startswith_self_app; reflexivity.
Qed.

Lemma handle_download_unsupported_witness :
  handle_download (constant_env (NetFail [])) (lit "cid") user_entity
    (lit "out") initial_state
  = (initial_state, Raise (SoundCloudError (msg_unsupported ++ lit "user"))).
Proof.
  apply (handle_download_unsupported (constant_env (NetFail [])) (lit "cid")
           (lit "out")
           [(lit "kind", JStr (lit "user"));
            (lit "username", JStr (lit "artist"))]
           initial_state); reflexivity.
Defined.

(** ** Destination paths *)

Lemma lit_inj (a b : string) : lit a = lit b -> a = b.
Proof.
  unfold lit; intros H.
  apply (f_equal (map ascii_of_N)) in H.
  rewrite !map_map in H.
  rewrite !(map_ext _ (fun x => x) ascii_N_embedding), !map_id in H.
  apply (f_equal string_of_list_ascii) in H.
  rewrite !string_of_list_ascii_of_string in H; exact H.
Qed.

Lemma of_nat_inj (a b : nat) : Py.of_nat a = Py.of_nat b -> a = b.
Proof.
  unfold Py.of_nat; intros H; apply lit_inj in H.
  apply (f_equal NilEmpty.uint_of_string) in H.
  rewrite !NilEmpty.usu in H; injection H as H.
  apply DecimalNat.Unsigned.to_uint_inj; exact H.
Qed.

Lemma path_exists_In (fs : list str) (p : str) :
  path_exists fs p = true <-> In p fs.
Proof.
  unfold path_exists; rewrite existsb_exists; split.
  - intros [x [Hx He]]; apply str_eqb_eq in He; subst x; exact Hx.
  - intros H; exists p; split; [exact H | apply str_eqb_eq; reflexivity].
Qed.

Lemma candidate_shift (base ext : str) (counter : nat) (p : str) (i : nat) :
  candidate base ext (S counter)
    (base ++ lit " (" ++ Py.of_nat counter ++ lit ")" ++ ext) i
  = candidate base ext counter p (S i).
Proof.
  destruct i as [|k]; cbn [candidate].
  - rewrite Nat.add_0_r; reflexivity.
  - replace (S counter + k)%nat with (counter + S k)%nat by lia; reflexivity.
Qed.

(** The loop returns the first candidate that does not exist, if the fuel
    reaches it. *)
Lemma unique_path_loop_first (fs : list str) (base ext : str) (n : nat) :
  forall fuel counter p,
    (n < fuel)%nat ->
    (forall i, (i < n)%nat ->
       path_exists fs (candidate base ext counter p i) = true) ->
    path_exists fs (candidate base ext counter p n) = false ->
    unique_path_loop fuel fs base ext counter p
    = Some (candidate base ext counter p n).
Proof.
  induction n as [|n IH]; intros fuel counter p Hf Hlt Hn;
    (destruct fuel as [|fuel]; [lia|]); cbn [unique_path_loop].
  - cbn [candidate] in Hn; rewrite Hn; reflexivity.
  - pose proof (Hlt 0%nat ltac:(lia)) as H0; cbn [candidate] in H0.
    rewrite H0, <- (candidate_shift base ext counter p n).
    apply IH; [lia| |].
    + intros i Hi; rewrite (candidate_shift base ext counter p); apply Hlt; lia.
    + rewrite (candidate_shift base ext counter p); exact Hn.
Qed.

Lemma unique_path_loop_none (fs : list str) (base ext : str) :
  forall fuel counter p,
    unique_path_loop fuel fs base ext counter p = None ->
    forall i, (i < fuel)%nat ->
      path_exists fs (candidate base ext counter p i) = true.
Proof.
  induction fuel as [|fuel IH]; intros counter p H i Hi; [lia|].
  cbn [unique_path_loop] in H.
  destruct (path_exists fs p) eqn:Hp; [|discriminate H].
  destruct i as [|i]; [exact Hp|].
  rewrite <- (candidate_shift base ext counter p); apply (IH _ _ H); lia.
Qed.

(** The fuel of [unique_path] is never used up. *)
Lemma unique_path_loop_ends (fs : list str) (base ext : str) (p : str) :
  unique_path_loop (S (S (List.length fs))) fs base ext 2 p <> None.
Proof.
  intros H.
  pose proof (unique_path_loop_none fs base ext _ _ _ H) as Hall.
  set (f := fun k => candidate base ext 2 p (S k)).
  assert (Hnd : NoDup (map f (seq 0 (S (List.length fs))))).
  { apply Injective_map_NoDup; [|apply seq_NoDup].
    intros a b Hab; unfold f in Hab; cbn [candidate] in Hab.
    apply app_inv_head in Hab; apply app_inv_head in Hab.
    apply app_inv_tail in Hab; apply of_nat_inj in Hab; lia. }
  assert (Hincl : incl (map f (seq 0 (S (List.length fs)))) fs).
  { intros x Hx; apply in_map_iff in Hx; destruct Hx as [k [<- Hk]].
    apply in_seq in Hk; apply path_exists_In; apply Hall; lia. }
  pose proof (NoDup_incl_length Hnd Hincl) as Hlen.
  rewrite length_map, length_seq in Hlen; lia.
Qed.

Lemma rfind_from_absent (c : char) (s : str) (i : nat) :
  forallb (fun x => negb (char_eqb x c)) s = true -> rfind_from c i s = None.
Proof.
  revert i; induction s as [|x t IH]; intros i H; [reflexivity|].
  cbn [forallb rfind_from] in *.
  apply andb_true_iff in H; destruct H as [Hx Ht].
  rewrite (IH _ Ht); apply negb_true_iff in Hx; rewrite Hx; reflexivity.
Qed.

Lemma rfind_from_last (c : char) (a b : str) (i : nat) :
  forallb (fun x => negb (char_eqb x c)) b = true ->
  rfind_from c i (a ++ c :: b) = Some (i + List.length a)%nat.
Proof.
  intros Hb; revert i; induction a as [|x a IH]; intros i.
  - cbn [app rfind_from List.length].
    rewrite (rfind_from_absent c b _ Hb), char_eqb_refl, Nat.add_0_r.
    reflexivity.
  - cbn [app rfind_from List.length]; rewrite IH.
    f_equal; lia.
Qed.

Lemma dir_prefix_shape (dir : str) :
  dir_prefix dir = [] \/ exists d, dir_prefix dir = d ++ [slash].
Proof.
  unfold dir_prefix; destruct dir as [|c dir]; [left; reflexivity|].
  right; destruct (endswith_char slash (c :: dir)) eqn:He; [|eauto].
  unfold endswith_char in He.
  destruct (rev (c :: dir)) as [|y r] eqn:Hr; [discriminate|].
  apply N.eqb_eq in He; subst y.
  exists (rev r).
  rewrite <- (rev_involutive (c :: dir)), Hr; reflexivity.
Qed.

Lemma plain_stem_head (stem rest : str) :
  plain_stem stem = true -> startswith [slash] (stem ++ rest) = false.
Proof.
  unfold plain_stem; intros H.
  apply andb_true_iff in H; destruct H as [Hs Hd].
  destruct stem as [|c stem]; [discriminate Hd|].
  cbn [forallb] in Hs; apply andb_true_iff in Hs; destruct Hs as [Hc _].
  apply negb_true_iff in Hc.
  cbn [app startswith]; unfold char_eqb in *.
  rewrite N.eqb_sym, Hc; reflexivity.
Qed.

Lemma path_join_plain (dir stem rest : str) :
  plain_stem stem = true ->
  path_join dir (stem ++ rest) = dir_prefix dir ++ stem ++ rest.
Proof.
  intros H; unfold path_join, dir_prefix.
  rewrite (plain_stem_head stem rest H).
  destruct dir as [|c dir]; [reflexivity|].
  destruct (endswith_char slash (c :: dir)); [reflexivity|].
  rewrite <- app_assoc; reflexivity.
Qed.

Lemma forallb_app_true {A : Type} (f : A -> bool) (a b : list A) :
  forallb f a = true -> forallb f b = true -> forallb f (a ++ b) = true.
Proof. intros Ha Hb; rewrite forallb_app, Ha, Hb; reflexivity. Qed.

(** [splitext] takes [.mp3] off a name built by [path_join] from a plain
    stem. *)
Lemma splitext_mp3 (dir stem : str) :
  plain_stem stem = true ->
  splitext (dir_prefix dir ++ stem ++ mp3_ext)
  = (dir_prefix dir ++ stem, mp3_ext).
Proof.
  intros H; pose proof H as Hp.
  unfold plain_stem in H; apply andb_true_iff in H; destruct H as [Hs Hd].
  unfold splitext.
  assert (Hdot : rfind dot (dir_prefix dir ++ stem ++ mp3_ext)
                 = Some (List.length (dir_prefix dir ++ stem))).
  { unfold rfind.
    replace (dir_prefix dir ++ stem ++ mp3_ext)
      with ((dir_prefix dir ++ stem) ++ dot :: lit "mp3")
      by (rewrite <- app_assoc; reflexivity).
    rewrite rfind_from_last by reflexivity; reflexivity. }
  assert (Hsl : match rfind slash (dir_prefix dir ++ stem ++ mp3_ext) with
                | Some i => S i
                | None => O
                end = List.length (dir_prefix dir)).
  { unfold rfind.
    assert (Hno : forallb (fun x => negb (char_eqb x slash)) (stem ++ mp3_ext)
                  = true) by (apply forallb_app_true; [exact Hs | reflexivity]).
    destruct (dir_prefix_shape dir) as [-> | [d ->]].
    - cbn [app]; rewrite rfind_from_absent by exact Hno; reflexivity.
    - rewrite <- app_assoc; cbn [app].
      rewrite rfind_from_last by exact Hno.
      rewrite length_app; cbn [List.length]; lia. }
  rewrite Hsl, Hdot, length_app.
  replace (List.length (dir_prefix dir) <=? 
             List.length (dir_prefix dir) + List.length stem)%nat
    with true by (symmetry; apply Nat.leb_le; lia).
  replace (List.length (dir_prefix dir) + List.length stem
           - List.length (dir_prefix dir))%nat
    with (List.length stem) by lia.
  rewrite skipn_app, skipn_all, Nat.sub_diag; cbn [app skipn].
  rewrite firstn_app, firstn_all, Nat.sub_diag; cbn [firstn]; rewrite app_nil_r.
  assert (Hnd : forallb (fun c => char_eqb c dot) stem = false).
  { clear - Hd. induction stem as [|c stem IH]; [discriminate Hd|].
    cbn [existsb forallb] in *.
    destruct (char_eqb c dot); cbn [negb orb andb] in *; auto. }
  rewrite Hnd.
  rewrite app_assoc, <- length_app.
  rewrite firstn_app, firstn_all, Nat.sub_diag; cbn [firstn]; rewrite app_nil_r.
  rewrite skipn_app, skipn_all, Nat.sub_diag; reflexivity.
Qed.

(** C9: for a name [stem.mp3] in the output directory, the path chosen
    is the name itself when it is free; [stem (2).mp3] when the name
    exists and that one does not; [stem (3).mp3] when both exist and that
    one does not.  The counter goes before the extension. *)
Theorem unique_path_collision (fs : list str) (dir stem : str) :
  plain_stem stem = true ->
  let name := fun suffix => path_join dir (stem ++ suffix ++ mp3_ext) in
  (path_exists fs (name []) = false -> unique_path fs (name []) = name []) /\
  (path_exists fs (name []) = true ->
   path_exists fs (name (lit " (2)")) = false ->
   unique_path fs (name []) = name (lit " (2)")) /\
  (path_exists fs (name []) = true ->
   path_exists fs (name (lit " (2)")) = true ->
   path_exists fs (name (lit " (3)")) = false ->
   unique_path fs (name []) = name (lit " (3)")).
Proof.
  intros Hp; cbv zeta beta.
  rewrite !(path_join_plain dir stem _ Hp).
  change ([] ++ mp3_ext) with mp3_ext.
  unfold unique_path; rewrite (splitext_mp3 dir stem Hp).
  set (base := dir_prefix dir ++ stem).
  set (p := dir_prefix dir ++ stem ++ mp3_ext).
  assert (E2 : dir_prefix dir ++ stem ++ lit " (2)" ++ mp3_ext
               = candidate base mp3_ext 2 p 1).
  { unfold candidate, base; rewrite <- app_assoc; reflexivity. }
  assert (E3 : dir_prefix dir ++ stem ++ lit " (3)" ++ mp3_ext
               = candidate base mp3_ext 2 p 2).
  { unfold candidate, base; rewrite <- app_assoc; reflexivity. }
  rewrite E2, E3.
  split; [|split].
  - intros H0.
    rewrite (unique_path_loop_first fs base mp3_ext 0); [reflexivity|lia| |exact H0].
    intros i Hi; lia.
  - intros H0 H1.
    rewrite (unique_path_loop_first fs base mp3_ext 1); [reflexivity|lia| |exact H1].
    intros i Hi; replace i with 0%nat by lia; exact H0.
  - intros H0 H1 H2.
    assert (Hfs : (1 <= List.length fs)%nat).
    { apply path_exists_In in H0; destruct fs; [contradiction|simpl; lia]. }
    rewrite (unique_path_loop_first fs base mp3_ext 2); [reflexivity|lia| |exact H2].
    intros i Hi; destruct i as [|[|i]]; [exact H0 | exact H1 | lia].
Qed.

Lemma unique_path_collision_witness :
  unique_path [lit "out/x.mp3"] (lit "out/x.mp3") = lit "out/x (2).mp3" /\
  unique_path [lit "out/x (2).mp3"; lit "out/x.mp3"] (lit "out/x.mp3")
  = lit "out/x (3).mp3".
Proof.
  split.
  - apply (proj1 (proj2 (unique_path_collision [lit "out/x.mp3"]
                           (lit "out") (lit "x") eq_refl))); reflexivity.
  - apply (proj2 (proj2 (unique_path_collision
                           [lit "out/x (2).mp3"; lit "out/x.mp3"]
                           (lit "out") (lit "x") eq_refl))); reflexivity.
Defined.

(** ** The download orchestration *)

Lemma print_keeps_trace (line : str) : keeps trace (print line).
Proof. intros st; reflexivity. Qed.

Lemma add_file_keeps_trace (path : str) : keeps trace (add_file path).
Proof. intros st; reflexivity. Qed.

Lemma api_request_keeps_trace (E : env) (url : str)
    (params : list (str * str)) (allow_404 : bool) :
  keeps trace (api_request E url params allow_404).
Proof.
  unfold api_request.
  apply keeps_try.
  - apply keeps_bind; [apply session_get_keeps_trace|]; intros r.
    destruct ((status_code r =? 404)%Z && allow_404); [apply keeps_ret|].
    apply keeps_bind; [apply raise_for_status_keeps|]; intros _.
    unfold response_json; destruct (json_body r);
      [apply keeps_raise | apply keeps_ret].
  - intros [m|s|m| | | |]; try apply keeps_raise.
    destruct ((s =? 401)%Z || (s =? 403)%Z); apply keeps_raise.
Qed.

Lemma get_track_download_info_keeps_trace (E : env) (client_id : str)
    (track : json) :
  keeps trace (get_track_download_info E client_id track).
Proof.
  unfold get_track_download_info.
  repeat (apply keeps_bind; [apply keeps_lift|]; intros ?).
  destruct (negb (truthy a3)); [apply keeps_ret|].
  repeat (apply keeps_bind; [apply keeps_lift|]; intros ?).
  apply keeps_bind; [apply api_request_keeps_trace|]; intros ?.
  apply keeps_bind; [apply keeps_lift|]; intros ?.
  destruct (negb (truthy a7)); [apply keeps_raise | apply keeps_ret].
Qed.

Lemma download_file_keeps_trace (E : env) (url save_path : str) :
  keeps trace (download_file E url save_path).
Proof.
  unfold download_file, get_url.
  apply keeps_bind; [apply session_get_keeps_trace|]; intros r.
  apply keeps_bind; [apply raise_for_status_keeps|]; intros _.
  destruct (content_length r); try apply keeps_raise;
    (destruct (can_create E save_path); [|apply keeps_raise];
     apply keeps_bind; [apply add_file_keeps_trace|]; intros _;
     destruct (body_error r); [apply keeps_raise | apply keeps_ret]).
Qed.

(** What one call of [download_track] adds to the trace: the attempt,
    and the save when it returns true. *)
Lemma download_track_trace (E : env) (client_id output_dir : str)
    (track : json) (st st' : state) (r : result bool) :
  download_track E client_id track output_dir st = (st', r) ->
  exists evs,
    trace st' = evs ++ trace st /\
    attempted evs = [track] /\
    saved evs = match r with Ok true => 1%nat | _ => 0%nat end.
Proof.
  unfold download_track, bind at 1, emit; intros H.
  set (s0 := mkState (requests st) (files st) (cache st) (printed st)
                     (EAttempt track :: trace st)) in H.
  unfold bind at 1 in H.
  pose proof (get_track_download_info_keeps_trace E client_id track s0) as Hi.
  destruct (get_track_download_info E client_id track s0) as [s1 [[info|]|e]];
    cbn [fst] in Hi.
  - (* a rendition was found *)
    unfold bind at 1, get_files in H.
    unfold bind at 1, print in H.
    match type of H with context [download_file E ?u ?p] =>
      set (url := u) in H; set (path := p) in H end.
    unfold bind at 1 in H.
    match type of H with context [download_file E url path ?s] =>
      pose proof (download_file_keeps_trace E url path s) as Hd;
      destruct (download_file E url path s) as [s2 [[]|e]] end;
      cbn [fst trace] in Hd.
    + unfold bind, print, emit, ret in H; injection H as <- <-.
      exists [ESaved path; EAttempt track]; cbn [trace].
      rewrite Hd, Hi; repeat split.
    + injection H as <- <-.
      exists [EAttempt track]; rewrite Hd, Hi; repeat split.
  - (* no rendition: the skip *)
    assert (Hk : keeps trace
                   (title <- lift (py_get track (lit "title")
                                     (JStr (lit "Unknown"))) ;;
                    user <- lift (py_get track (lit "user") JNull) ;;
                    artist <- lift (py_get (py_or user (JObj []))
                                      (lit "username")
                                      (JStr (lit "Unknown"))) ;;
                    print (lit "skipping (no mp3 available): "
                           ++ fstr E artist ++ lit " - " ++ fstr E title) ;;;
                    ret false)).
    { repeat (apply keeps_bind; [apply keeps_lift|]; intros ?).
      apply keeps_bind; [apply print_keeps_trace|]; intros _.
      apply keeps_ret. }
    specialize (Hk s1); rewrite H in Hk; cbn [fst] in Hk.
    exists [EAttempt track]; rewrite Hk, Hi; repeat split.
    assert (Hr : r <> Ok true).
    { revert H; unfold bind, lift, print, ret.
      destruct (py_get track (lit "title") (JStr (lit "Unknown")));
        [|intros H; injection H as _ <-; discriminate].
      destruct (py_get track (lit "user") JNull);
        [|intros H; injection H as _ <-; discriminate].
      destruct (py_get (py_or a0 (JObj [])) (lit "username")
                  (JStr (lit "Unknown")));
        intros H; injection H as _ <-; discriminate. }
    destruct r as [[|]|]; [contradiction Hr| |]; reflexivity.
  - injection H as <- <-.
    exists [EAttempt track]; rewrite Hi; repeat split.
Qed.

(** A track with no eligible descriptor is skipped: [download_track]
    returns false, makes no request and creates no file. *)
Lemma download_track_skip (E : env) (client_id output_dir : str)
    (track : json) (st : state) :
  ineligible track = true ->
  exists line,
    download_track E client_id track output_dir st
    = (mkState (requests st) (files st) (cache st) (line :: printed st)
               (EAttempt track :: trace st), Ok false).
Proof.
  unfold ineligible; intros H.
  apply andb_true_iff in H; destruct H as [Hwf Hnone].
  unfold download_track, bind at 1, emit.
  unfold bind at 1.
  rewrite (get_track_download_info_absent E client_id track _ Hwf Hnone).
  unfold wf_track in Hwf.
  apply andb_true_iff in Hwf; destruct Hwf as [Hwf Hu].
  apply andb_true_iff in Hwf; destruct Hwf as [Hwf _].
  apply andb_true_iff in Hwf; destruct Hwf as [Hd _].
  destruct track as [| | | | |kv]; try discriminate Hd.
  unfold bind, lift, print, ret.
  assert (Ht : exists title,
             py_get (JObj kv) (lit "title") (JStr (lit "Unknown")) = Ok title)
    by (cbn [py_get]; destruct (assoc (lit "title") kv); eauto).
  destruct Ht as [title ->].
  rewrite py_get_field_dict.
  destruct (py_or (field (lit "user") (JObj kv)) (JObj []))
    as [| | | | |ukv]; try discriminate Hu.
  assert (Ha : exists artist,
             py_get (JObj ukv) (lit "username") (JStr (lit "Unknown"))
             = Ok artist)
    by (cbn [py_get]; destruct (assoc (lit "username") ukv); eauto).
  destruct Ha as [artist ->].
  eexists; reflexivity.
Qed.

Lemma attempted_app (a b : list event) :
  attempted (a ++ b) = attempted b ++ attempted a.
Proof. unfold attempted; rewrite flat_map_app, rev_app_distr; reflexivity. Qed.

Lemma saved_app (a b : list event) : saved (a ++ b) = (saved a + saved b)%nat.
Proof. unfold saved; rewrite filter_app, length_app; reflexivity. Qed.

(** The loop over the tracks: the tracks attempted are a prefix of the
    list, in order; it runs to the end and counts the saves unless a
    download raises, and that download is not the one of a track that is
    merely ineligible. *)
Lemma download_each_run (E : env) (client_id output_dir : str) :
  forall (tracks : list json) (i total success_count : nat)
         (st st' : state) (r : result nat),
    download_each E client_id output_dir tracks i total success_count st
    = (st', r) ->
    exists evs k,
      trace st' = evs ++ trace st /\
      attempted evs = firstn k tracks /\
      match r with
      | Ok n =>
          k = List.length tracks /\ n = (success_count + saved evs)%nat
      | Raise e =>
          exists t s s',
            nth_error tracks (k - 1) = Some t /\ (1 <= k)%nat /\
            ineligible t = false /\
            download_track E client_id t output_dir s = (s', Raise e)
      end.
Proof.
  induction tracks as [|t rest IH]; intros i total sc st st' r H.
  - cbn [download_each] in H; unfold ret in H; injection H as <- <-.
    exists [], 0%nat; split; [reflexivity|]; split; [reflexivity|].
    split; [reflexivity | unfold saved; simpl; lia].
  - cbn [download_each] in H.
    unfold bind at 1, print in H.
    set (s0 := mkState (requests st) (files st) (cache st) _ (trace st)) in H.
    unfold bind at 1 in H.
    destruct (download_track E client_id t output_dir s0) as [s1 [b|e]] eqn:Hd.
    + destruct (download_track_trace E client_id output_dir t s0 s1 (Ok b) Hd)
        as [evs1 [Ht1 [Ha1 Hs1]]].
      destruct (IH _ _ _ _ _ _ H) as [evs [k [Ht [Ha Hr]]]].
      exists (evs ++ evs1), (S k); split; [|split].
      * rewrite Ht, Ht1, <- app_assoc; reflexivity.
      * rewrite attempted_app, Ha1, Ha; reflexivity.
      * destruct r as [n|e].
        -- destruct Hr as [-> ->]; split; [reflexivity|].
           rewrite saved_app, Hs1; destruct b; lia.
        -- destruct Hr as [t' [s [s' [Hn [Hk [Hi Hdl]]]]]].
           exists t', s, s'.
           split; [|split; [lia|split; assumption]].
           destruct k as [|k]; [lia|].
           replace (S (S k) - 1)%nat with (S k) by lia.
           replace (S k - 1)%nat with k in Hn by lia.
           cbn [nth_error]; exact Hn.
    + injection H as <- <-.
      destruct (download_track_trace E client_id output_dir t s0 s1 (Raise e) Hd)
        as [evs1 [Ht1 [Ha1 Hs1]]].
      exists evs1, 1%nat; split; [exact Ht1|]; split; [exact Ha1|].
      exists t, s0, s1.
      split; [reflexivity|]; split; [lia|]; split; [|exact Hd].
      destruct (ineligible t) eqn:Hin; [|reflexivity].
      destruct (download_track_skip E client_id output_dir t s0 Hin) as [l Hl].
      rewrite Hl in Hd; discriminate Hd.
Qed.

Lemma report_run (success_count total_count : nat) (st : state) :
  report success_count total_count st
  = (mkState (requests st) (files st) (cache st)
             (report_lines success_count total_count ++ printed st)
             (trace st), Ok tt).
Proof.
  unfold report, report_lines, bind, print, ret.
  destruct (success_count <? total_count)%nat; destruct st; reflexivity.
Qed.

(** The run of the three-track playlist: two saves out of three, the
    second save of the same name with the counter before the extension. *)
Example mixed_playlist_run :
  let run := handle_download serving_env (lit "cid") mixed_playlist
               (lit "out") initial_state in
  snd run = Ok tt /\
  trace (fst run)
  = [ESaved (lit "out/artist - song (2).mp3"); EAttempt playable_track;
     EAttempt unplayable_track;
     ESaved (lit "out/artist - song.mp3"); EAttempt playable_track] /\
  firstn 2 (printed (fst run))
  = [msg_skipped; lit "done. downloaded 2/3 tracks."].
Proof. cbv zeta; repeat split; vm_compute; reflexivity. Qed.

(** C1, as stated, fails: when the download of a track raises, the batch
    stops there; the tracks after it are not attempted and no report is
    printed. *)
Lemma handle_download_failure_aborts :
  ~ (forall (E : env) (client_id output_dir : str) (tracks : list json)
            (st : state),
       tracks <> [] ->
       (exists evs,
          trace (fst (handle_download E client_id (playlist_of tracks)
                        output_dir st)) = evs ++ trace st /\
          attempted evs = tracks) /\
       snd (handle_download E client_id (playlist_of tracks) output_dir st)
       = Ok tt).
Proof.
  intros H.
  specialize (H failing_env (lit "cid") (lit "out")
                [playable_track; unplayable_track] initial_state
                ltac:(discriminate)).
  destruct H as [_ H]; vm_compute in H; discriminate H.
Qed.

Example two_track_playlist_aborts :
  let run := handle_download failing_env (lit "cid") two_track_playlist
               (lit "out") initial_state in
  snd run = Raise (HTTPError 500) /\
  trace (fst run) = [EAttempt playable_track] /\
  printed (fst run) = [lit "[1/2]"].
Proof. cbv zeta; repeat split; vm_compute; reflexivity. Qed.

(** ** The token store *)

Lemma lstrip_fixed (s : str) :
  (forall c t, s = c :: t -> isspace c = false) -> lstrip s = s.
Proof.
  destruct s as [|c t]; [reflexivity|].
  intros H; simpl; rewrite (H c t eq_refl); reflexivity.
Qed.

Lemma rstrip_fixed (s : str) :
  (forall a c, s = a ++ [c] -> isspace c = false) -> rstrip s = s.
Proof.
  intros H; unfold rstrip.
  rewrite lstrip_fixed; [apply rev_involutive|].
  intros c t Hr; apply (H (rev t) c).
  rewrite <- (rev_involutive s), Hr; reflexivity.
Qed.

Lemma strip_idempotent (s : str) : strip (strip s) = strip s.
Proof.
  unfold strip at 1.
  rewrite (lstrip_fixed (strip s)) by (intros c t; apply strip_head).
  apply rstrip_fixed; intros a c; apply strip_last.
Qed.

Lemma universal_newlines_head (c : char) (t : str) :
  isspace c = false ->
  universal_newlines (c :: t) = c :: universal_newlines t.
Proof.
  intros Hc; cbn [universal_newlines].
  destruct (N.eqb_spec c 13) as [->|_]; [discriminate Hc | reflexivity].
Qed.

Lemma universal_newlines_last (a : str) (d : char) :
  isspace d = false ->
  exists b, universal_newlines (a ++ [d]) = b ++ [d].
Proof.
  intros Hd.
  assert (H13 : (d =? 13) = false)
    by (destruct (N.eqb_spec d 13) as [->|_]; [discriminate Hd | reflexivity]).
  assert (H10 : (d =? 10) = false)
    by (destruct (N.eqb_spec d 10) as [->|_]; [discriminate Hd | reflexivity]).
  induction a as [|c a IH].
  - exists []; cbn; rewrite H13; reflexivity.
  - destruct IH as [b Hb].
    cbn [app universal_newlines].
    destruct (c =? 13).
    + destruct a as [|x a']; cbn [app].
      * rewrite H10; cbn; rewrite H13; exists [10]; reflexivity.
      * cbn [app] in Hb.
        destruct (x =? 10); rewrite Hb; [exists b | exists (10 :: b)];
          reflexivity.
    + rewrite Hb; exists (c :: b); reflexivity.
Qed.

(** Line-end translation leaves a stripped text stripped. *)
Lemma strip_universal_newlines (s : str) :
  strip (universal_newlines (strip s)) = universal_newlines (strip s).
Proof.
  unfold strip at 1.
  assert (Hhead : forall c t, universal_newlines (strip s) = c :: t ->
                              isspace c = false).
  { intros c t H.
    destruct (strip s) as [|x r] eqn:Hs; [discriminate H|].
    pose proof (strip_head s x r Hs) as Hx.
    rewrite (universal_newlines_head x r Hx) in H.
    injection H as <- _; exact Hx. }
  assert (Hlast : forall a c, universal_newlines (strip s) = a ++ [c] ->
                              isspace c = false).
  { intros a c H.
    destruct (strip s) as [|x r] eqn:Hs; [destruct a; discriminate H|].
    destruct (exists_last (l := x :: r) ltac:(discriminate)) as [a' [d Hd]].
    rewrite Hd in Hs, H.
    pose proof (strip_last s a' d Hs) as Hsp.
    destruct (universal_newlines_last a' d Hsp) as [b Hb].
    rewrite Hb in H; apply app_inj_tail in H; destruct H as [_ <-].
    exact Hsp. }
  rewrite (lstrip_fixed _ Hhead); apply rstrip_fixed; exact Hlast.
Qed.

Lemma universal_newlines_no_cr (s : str) :
  ~ In 13 s -> universal_newlines s = s.
Proof.
  induction s as [|c t IH]; [reflexivity|].
  intros H; cbn [universal_newlines].
  destruct (N.eqb_spec c 13) as [->|_]; [exfalso; apply H; left; reflexivity|].
  rewrite IH; [reflexivity|].
  intros Hi; apply H; right; exact Hi.
Qed.

Lemma strip_incl (s : str) (c : char) : In c (strip s) -> In c s.
Proof.
  intros H; destruct (strip_middle s) as [l1 [l2 Hm]].
  rewrite Hm; apply in_or_app; right; apply in_or_app; left; exact H.
Qed.

Lemma encodable_strip (s : str) : encodable s = true -> encodable (strip s) = true.
Proof.
  unfold encodable; rewrite !forallb_forall.
  intros H c Hc; apply H, strip_incl; exact Hc.
Qed.

(** X1: what the next [get_cached_client_id] reads after
    [save_client_id] has written a credential.  A credential that holds
    no carriage return and no surrogate comes back as it is, up to the
    surrounding whitespace that both functions strip.  In general the
    line ends of the stripped credential come back translated (a carriage
    return, with a line feed after it or without, as one line feed), and
    a credential that is blank or that cannot be encoded is read back as
    absent. *)
Theorem save_then_get_cached (E : env) (cid : str) (st : state) :
  cache_writable E = true ->
  let read :=
    snd (get_cached_client_id (fst (save_client_id E cid st))) in
  read = Ok (if encodable (strip cid)
             then match universal_newlines (strip cid) with
                  | [] => None
                  | c => Some c
                  end
             else None) /\
  (encodable cid = true -> ~ In 13 cid ->
   read = Ok match strip cid with
             | [] => None
             | c => Some c
             end).
Proof.
  intros Hw; cbv zeta.
  assert (Hread :
    snd (get_cached_client_id (fst (save_client_id E cid st)))
    = Ok (if encodable (strip cid)
          then match universal_newlines (strip cid) with
               | [] => None
               | c => Some c
               end
          else None)).
  { unfold save_client_id; rewrite Hw; cbn [fst].
    unfold get_cached_client_id; cbn [cache].
    destruct (encodable (strip cid)).
    - rewrite strip_universal_newlines.
      destruct (universal_newlines (strip cid)); reflexivity.
    - reflexivity. }
  split; [exact Hread|].
  intros He Hcr; rewrite Hread, (encodable_strip cid He).
  rewrite universal_newlines_no_cr; [reflexivity|].
  intros Hi; apply Hcr, strip_incl; exact Hi.
Qed.

Lemma save_then_get_cached_witness :
  snd (get_cached_client_id
         (fst (save_client_id serving_env (lit " abc123 ") initial_state)))
  = Ok (Some (lit "abc123")).
Proof.
  apply (proj2 (save_then_get_cached serving_env (lit " abc123 ")
                  initial_state eq_refl)).
  - reflexivity.
  - vm_compute; intuition discriminate.
Defined.

(** A carriage return inside the credential is read back as a line
    feed, and a credential with a surrogate empties the cache. *)
Example save_then_get_cached_line_end :
  snd (get_cached_client_id
         (fst (save_client_id serving_env [97; 13; 98] initial_state)))
  = Ok (Some [97; 10; 98]) /\
  snd (get_cached_client_id
         (fst (save_client_id serving_env [97; 55296; 98]
                 (cached_state (lit "old")))))
  = Ok None.
Proof. split; reflexivity. Qed.

(** X2: [get_cached_client_id] never raises and never changes the
    state; it answers with a credential only when the cache file is
    readable and not blank, and that credential is not empty and has no
    whitespace at either end. *)
Theorem get_cached_client_id_result (st : state) :
  get_cached_client_id st = (st, Ok (cached_value (cache st))) /\
  (cache st = NoFile \/ cache st = Unreadable -> cached_value (cache st) = None) /\
  (forall cid, cached_value (cache st) = Some cid ->
     cid <> [] /\ strip cid = cid /\
     exists s, cache st = Contents s /\ cid = strip s).
Proof.
  split; [|split].
  - unfold get_cached_client_id, cached_value.
    destruct (cache st) as [| |s]; try reflexivity.
    destruct (strip s); reflexivity.
  - intros [-> | ->]; reflexivity.
  - intros cid H; unfold cached_value in H.
    destruct (cache st) as [| |s]; try discriminate H.
    destruct (strip s) as [|c t] eqn:Hs; [discriminate H|].
    injection H as <-.
    split; [discriminate|]; split.
    + rewrite <- Hs; apply strip_idempotent.
    + exists s; split; [reflexivity | symmetry; exact Hs].
Qed.

(** ** The credential manager, continued *)

Lemma find_client_id_cache_writable (b : bool) (E : env) :
  find_client_id (set_cache_writable b E) = find_client_id E.
Proof. destruct E; reflexivity. Qed.

Lemma check_client_id_valid_cache_writable (b : bool) (E : env) :
  check_client_id_valid (set_cache_writable b E) = check_client_id_valid E.
Proof. destruct E; reflexivity. Qed.

Lemma save_client_id_same_but_cache (b : bool) (E : env) (cid : str)
    (st : state) :
  same_but_cache (fst (save_client_id (set_cache_writable b E) cid st))
                 (fst (save_client_id E cid st)).
Proof.
  unfold save_client_id, same_but_cache; cbn [cache_writable set_cache_writable].
  destruct b, (cache_writable E); cbn; repeat split.
Qed.

Lemma save_step_cache_writable (b : bool) (E : env) (cid : str)
    (st : state) :
  snd ((save_client_id (set_cache_writable b E) cid ;;; ret cid) st)
  = snd ((save_client_id E cid ;;; ret cid) st) /\
  same_but_cache
    (fst ((save_client_id (set_cache_writable b E) cid ;;; ret cid) st))
    (fst ((save_client_id E cid ;;; ret cid) st)).
Proof.
  unfold bind, ret.
  pose proof (save_client_id_same_but_cache b E cid st) as Hs.
  pose proof (save_client_id_ok (set_cache_writable b E) cid st) as H1.
  pose proof (save_client_id_ok E cid st) as H2.
  destruct (save_client_id (set_cache_writable b E) cid st) as [sa ra];
    destruct (save_client_id E cid st) as [sb rb]; cbn [fst snd] in *.
  subst ra rb; split; [reflexivity | exact Hs].
Qed.

Lemma same_but_cache_refl (s : state) : same_but_cache s s.
Proof. repeat split. Qed.

Lemma bind_same_but_cache {A B : Type} (m : M A) (k1 k2 : A -> M B)
    (st : state) :
  (forall a s, snd (k1 a s) = snd (k2 a s) /\
               same_but_cache (fst (k1 a s)) (fst (k2 a s))) ->
  snd (bind m k1 st) = snd (bind m k2 st) /\
  same_but_cache (fst (bind m k1 st)) (fst (bind m k2 st)).
Proof.
  intros H; unfold bind.
  destruct (m st) as [s [a|e]]; [apply H|].
  split; [reflexivity | apply same_but_cache_refl].
Qed.

Lemma scrape_and_save_cache_writable (b : bool) (E : env) (st : state) :
  snd (scrape_and_save (set_cache_writable b E) st)
  = snd (scrape_and_save E st) /\
  same_but_cache (fst (scrape_and_save (set_cache_writable b E) st))
                 (fst (scrape_and_save E st)).
Proof.
  unfold scrape_and_save.
  rewrite find_client_id_cache_writable, check_client_id_valid_cache_writable.
  apply bind_same_but_cache; intros c1 s1.
  apply bind_same_but_cache; intros v s2.
  apply bind_same_but_cache; intros c s3.
  apply save_step_cache_writable.
Qed.

(** X3: whether the cache file can be written never shows in what
    [get_client_id] returns or does: the result, the requests, the files,
    the output and the trace are the same; only the cache file differs. *)
Theorem get_client_id_cache_write_invisible (b : bool) (E : env)
    (st : state) :
  snd (get_client_id (set_cache_writable b E) st)
  = snd (get_client_id E st) /\
  same_but_cache (fst (get_client_id (set_cache_writable b E) st))
                 (fst (get_client_id E st)).
Proof.
  unfold get_client_id.
  rewrite check_client_id_valid_cache_writable.
  apply bind_same_but_cache; intros [cid|] s0.
  - apply bind_same_but_cache; intros [|] s1.
    + split; [reflexivity | apply same_but_cache_refl].
    + apply scrape_and_save_cache_writable.
  - apply scrape_and_save_cache_writable.
Qed.

(** X4: every credential [get_client_id] returns was confirmed by the
    validator in the same run, and that confirmation is the last event of
    the run. *)
Theorem get_client_id_returns_validated (E : env) (st st' : state)
    (cid : str) :
  get_client_id E st = (st', Ok cid) ->
  exists earlier, trace st' = EValidate cid true :: earlier.
Proof.
  unfold get_client_id, bind; intros Hrun.
  pose proof (get_cached_client_id_state st) as Hc.
  destruct (get_cached_client_id st) as [s0 [[c|]|e]]; simpl in Hc; subst s0.
  - rewrite check_client_id_valid_run in Hrun; cbv zeta in Hrun.
    match type of Hrun with context [after_probe E c ?v st] =>
      destruct v end.
    + injection Hrun as <- <-; eexists; reflexivity.
    + destruct (scrape_and_save_cases E _ _ _ Hrun) as [evs [Ht Hcases]].
      destruct Hcases as [[e [-> Hr]]|[[c0 [-> Hr]]|[[c1 [e [-> Hr]]]|
                          [[c1 [c2 [-> Hr]]]|[c1 [c2 [-> Hr]]]]]]];
        try discriminate Hr; injection Hr as <-;
        rewrite Ht; eexists; reflexivity.
  - destruct (scrape_and_save_cases E _ _ _ Hrun) as [evs [Ht Hcases]].
    destruct Hcases as [[e [-> Hr]]|[[c0 [-> Hr]]|[[c1 [e [-> Hr]]]|
                        [[c1 [c2 [-> Hr]]]|[c1 [c2 [-> Hr]]]]]]];
      try discriminate Hr; injection Hr as <-;
      rewrite Ht; eexists; reflexivity.
  - discriminate Hrun.
Qed.

Lemma get_client_id_returns_validated_witness :
  exists earlier,
    trace (fst (get_client_id script_site_env initial_state))
    = EValidate token_b true :: earlier.
Proof.
  apply (get_client_id_returns_validated script_site_env initial_state
           (fst (get_client_id script_site_env initial_state)) token_b).
  vm_compute; reflexivity.
Defined.

(** ** The client-id patterns, continued *)

Lemma eat_spec (l s r : str) : eat l s = Some r -> s = l ++ r.
Proof.
  revert s; induction l as [|c l IH]; intros [|x s]; simpl; try discriminate.
  - intros H; injection H as <-; reflexivity.
  - intros H; injection H as <-; reflexivity.
  - destruct (char_eqb c x) eqn:Hc; [|discriminate].
    apply N.eqb_eq in Hc; subst x.
    intros H; rewrite (IH _ H); reflexivity.
Qed.

Lemma take_alnum_spec (n : nat) (s g r : str) :
  take_alnum n s = Some (g, r) ->
  s = g ++ r /\ List.length g = n /\ forallb isalnum62 g = true.
Proof.
  revert s g r; induction n as [|n IH]; intros s g r; simpl.
  - intros H; injection H as <- <-; auto.
  - destruct s as [|c t]; [discriminate|].
    destruct (isalnum62 c) eqn:Hc; [|discriminate].
    destruct (take_alnum n t) as [[g' r']|] eqn:Ht; [|discriminate].
    intros H; injection H as <- <-.
    destruct (IH _ _ _ Ht) as [-> [Hl Ha]].
    simpl; rewrite Hc, Ha, Hl; auto.
Qed.

Lemma spaces_then_some {A : Type} (k : str -> option A) (s : str) (r : A) :
  spaces_then k s = Some r -> exists ws s', s = ws ++ s' /\ k s' = Some r.
Proof.
  induction s as [|c t IH]; simpl.
  - intros H; exists [], []; auto.
  - destruct (isspace c).
    + destruct (spaces_then k t) as [r'|] eqn:Ht.
      * intros H; injection H as <-.
        destruct (IH eq_refl) as [ws [s' [-> Hk]]].
        exists (c :: ws), s'; auto.
      * intros H; exists [], (c :: t); auto.
    + intros H; exists [], (c :: t); auto.
Qed.

(** The group a match returns: the text the last token atom consumed,
    which stands in the matched text; without a token atom, the group
    given at the start. *)
Lemma match_atoms_group (p : pattern) :
  forall s g0 g,
    tokens_are_32 p = true ->
    match_atoms p s g0 = Some g ->
    if has_token p
    then List.length g = 32%nat /\ forallb isalnum62 g = true /\
         exists a b, s = a ++ g ++ b
    else g = g0.
Proof.
  induction p as [|[l| |n] p IH]; intros s g0 g H32 Hm.
  - simpl in *; injection Hm as <-; reflexivity.
  - cbn [match_atoms] in Hm; cbn [tokens_are_32 forallb] in H32.
    destruct (eat l s) as [s'|] eqn:He; [|discriminate].
    apply eat_spec in He; subst s.
    specialize (IH s' g0 g H32 Hm).
    cbn [has_token existsb orb]; fold (has_token p).
    destruct (has_token p); [|exact IH].
    destruct IH as [Hl [Ha [a [b' ->]]]]; split; [exact Hl|]; split; [exact Ha|].
    exists (l ++ a), b'; rewrite <- app_assoc; reflexivity.
  - cbn [match_atoms] in Hm; cbn [tokens_are_32 forallb] in H32.
    apply spaces_then_some in Hm; destruct Hm as [ws [s' [-> Hm]]].
    specialize (IH s' g0 g H32 Hm).
    cbn [has_token existsb orb]; fold (has_token p).
    destruct (has_token p); [|exact IH].
    destruct IH as [Hl [Ha [a [b' ->]]]]; split; [exact Hl|]; split; [exact Ha|].
    exists (ws ++ a), b'; rewrite <- app_assoc; reflexivity.
  - cbn [match_atoms] in Hm; cbn [tokens_are_32 forallb] in H32.
    apply andb_true_iff in H32; destruct H32 as [Hn H32].
    apply Nat.eqb_eq in Hn; subst n.
    destruct (take_alnum 32 s) as [[g1 s']|] eqn:Ht; [|discriminate].
    apply take_alnum_spec in Ht; destruct Ht as [-> [Hl Ha]].
    specialize (IH s' g1 g H32 Hm).
    cbn [has_token existsb orb].
    fold (has_token p) in *.
    destruct (has_token p).
    + destruct IH as [Hl' [Ha' [a [b' ->]]]].
      split; [exact Hl'|]; split; [exact Ha'|].
      exists (g1 ++ a), b'; rewrite <- app_assoc; reflexivity.
    + subst g; split; [exact Hl|]; split; [exact Ha|].
      exists [], s'; reflexivity.
Qed.

Lemma search_some (p : pattern) (doc g : str) :
  search p doc = Some g ->
  exists pre s, doc = pre ++ s /\ match_atoms p s [] = Some g.
Proof.
  induction doc as [|x t IH]; simpl.
  - destruct (match_atoms p [] []) eqn:Hm; [|discriminate].
    intros H; injection H as <-; exists [], []; auto.
  - destruct (match_atoms p (x :: t) []) eqn:Hm.
    + intros H; injection H as <-; exists [], (x :: t); auto.
    + intros H; destruct (IH H) as [pre [s [-> Hs]]].
      exists (x :: pre), s; auto.
Qed.

Lemma contains_app (g a b : str) : contains g (a ++ g ++ b) = true.
Proof.
  induction a as [|x a IH].
  - cbn [app]. destruct (g ++ b) eqn:Hgb.
    + destruct g; [reflexivity | discriminate Hgb].
    + cbn [contains]; rewrite <- Hgb, startswith_self_app; reflexivity.
  - cbn [app contains]; rewrite IH; apply orb_true_r.
Qed.

(** X5: whatever the pattern set extracts from a document is a run of
    exactly 32 characters of [0-9a-zA-Z] that stands in the document. *)
Theorem search_patterns_token (doc t : str) :
  search_patterns patterns doc = Some t ->
  List.length t = 32%nat /\ forallb isalnum62 t = true /\
  contains t doc = true.
Proof.
  intros H.
  assert (Hone : forall p, In p patterns -> search p doc = Some t ->
            List.length t = 32%nat /\ forallb isalnum62 t = true /\
            contains t doc = true).
  { intros p Hp Hs.
    assert (H32 : tokens_are_32 p = true /\ has_token p = true).
    { rewrite patterns_eq in Hp; simpl in Hp.
      destruct Hp as [<-|[<-|[<-|[<-|[]]]]]; split; reflexivity. }
    destruct H32 as [H32 Ht].
    apply search_some in Hs; destruct Hs as [pre [s [-> Hm]]].
    pose proof (match_atoms_group p s [] t H32 Hm) as Hg.
    rewrite Ht in Hg; destruct Hg as [Hl [Ha [a [b ->]]]].
    split; [exact Hl|]; split; [exact Ha|].
    rewrite app_assoc; apply contains_app. }
  revert H Hone; generalize patterns as ps.
  induction ps as [|p ps IH]; cbn [search_patterns]; [discriminate|].
  intros H Hone.
  destruct (search p doc) as [g|] eqn:Hs.
  - injection H as ->; apply (Hone p); [left; reflexivity | exact Hs].
  - apply IH; [exact H|]; intros q Hq; apply Hone; right; exact Hq.
Qed.

Lemma search_patterns_token_witness :
  List.length token_b = 32%nat /\ forallb isalnum62 token_b = true /\
  contains token_b script_body = true.
Proof.
  apply (search_patterns_token script_body token_b); reflexivity.
Defined.

(** ** The scraper *)

Lemma sends_ret {A : Type} (a : A) : sends_at_most 0 (ret a).
Proof. intros st; exists []; auto. Qed.

Lemma sends_raise {A : Type} (e : exn) : sends_at_most 0 (@raise A e).
Proof. intros st; exists []; auto. Qed.

Lemma sends_emit (e : event) : sends_at_most 0 (emit e).
Proof. intros st; exists []; auto. Qed.

Lemma sends_weaken {A : Type} (n n' : nat) (m : M A) :
  (n <= n')%nat -> sends_at_most n m -> sends_at_most n' m.
Proof.
  intros Hn H st; destruct (H st) as [new [H1 H2]]; exists new; split; [auto|lia].
Qed.

Lemma sends_bind {A B : Type} (a b : nat) (m : M A) (k : A -> M B) :
  sends_at_most a m -> (forall x, sends_at_most b (k x)) ->
  sends_at_most (a + b) (bind m k).
Proof.
  intros Hm Hk st; unfold bind.
  destruct (Hm st) as [n1 [H1 L1]].
  destruct (m st) as [s1 [x|e]]; cbn [fst] in *.
  - destruct (Hk x s1) as [n2 [H2 L2]].
    exists (n2 ++ n1); rewrite H2, H1, <- app_assoc, length_app.
    split; [reflexivity | lia].
  - exists n1; split; [exact H1 | lia].
Qed.

Lemma sends_try {A : Type} (a b : nat) (m : M A) (h : exn -> M A) :
  sends_at_most a m -> (forall e, sends_at_most b (h e)) ->
  sends_at_most (a + b) (try_except m h).
Proof.
  intros Hm Hh st; unfold try_except.
  destruct (Hm st) as [n1 [H1 L1]].
  destruct (m st) as [s1 [x|e]]; cbn [fst] in *.
  - exists n1; split; [exact H1 | lia].
  - destruct (Hh e s1) as [n2 [H2 L2]].
    exists (n2 ++ n1); rewrite H2, H1, <- app_assoc, length_app.
    split; [reflexivity | lia].
Qed.

Lemma sends_session_get (E : env) (rq : request) :
  sends_at_most 1 (session_get E rq).
Proof.
  intros st; exists [rq]; unfold session_get.
  destruct (net E (requests st) rq); auto.
Qed.

Lemma sends_raise_for_status (r : response) :
  sends_at_most 0 (raise_for_status r).
Proof.
  unfold raise_for_status; destruct (ok r); [apply sends_ret | apply sends_raise].
Qed.

Lemma sends_lift {A : Type} (r : result A) : sends_at_most 0 (lift r).
Proof. intros st; exists []; auto. Qed.

Lemma sends_extra_page_scripts (E : env) (script_urls : list str)
    (page : str) :
  sends_at_most 1 (extra_page_scripts E script_urls page).
Proof.
  unfold extra_page_scripts, get_url.
  apply (sends_try 1 0); [|intros; apply sends_ret].
  apply (sends_bind 0 1); [apply sends_lift|]; intros url.
  apply (sends_bind 1 0); [apply sends_session_get|].
  intros rr; destruct (ok rr); apply sends_ret.
Qed.

Lemma sends_scan_scripts (E : env) (urls : list str) :
  sends_at_most (List.length urls) (scan_scripts E urls).
Proof.
  induction urls as [|u rest IH]; cbn [scan_scripts List.length];
    [apply sends_ret|].
  apply (sends_bind 1 (List.length rest)).
  - apply (sends_try 1 0); [|intros; apply sends_ret].
    apply (sends_bind 1 0); [apply sends_session_get|].
    intros r; destruct (ok r), (text r); apply sends_ret.
  - intros [c|]; [|exact IH].
    apply (sends_weaken 0); [lia | apply sends_ret].
Qed.

Lemma sends_find_client_id (E : env) : sends_at_most 23 (find_client_id E).
Proof.
  unfold find_client_id, scrape_site, get_url.
  apply (sends_bind 0 23); [apply sends_emit|]; intros _.
  apply (sends_bind 23 0).
  2:{ intros cid; apply (sends_bind 0 0); [apply sends_emit|].
      intros; apply sends_ret. }
  apply (sends_bind 1 22); [apply sends_session_get|]; intros r.
  apply (sends_bind 0 22); [apply sends_raise_for_status|]; intros _.
  apply (sends_bind 0 22); [apply sends_lift|]; intros m0.
  apply (sends_bind 1 21); [apply sends_extra_page_scripts|]; intros m1.
  apply (sends_bind 1 20); [apply sends_extra_page_scripts|]; intros m2.
  destruct (search_patterns patterns (text r)).
  - apply (sends_weaken 0); [lia | apply sends_ret].
  - apply (sends_bind 20 0).
    + eapply sends_weaken; [|apply sends_scan_scripts].
      rewrite length_firstn; lia.
    + intros [c|]; [apply sends_ret | apply sends_raise].
Qed.

Lemma sends_check_client_id_valid (E : env) (cid : str) :
  sends_at_most 1 (check_client_id_valid E cid).
Proof.
  intros st; rewrite check_client_id_valid_run; cbv zeta; cbn [fst].
  exists [probe E cid]; auto.
Qed.

(** X6: one call of [find_client_id] makes at most 23 requests (the
    home page, the two extra pages, and no more than 20 scripts), and a
    whole run of [get_client_id] at most 49. *)
Theorem get_client_id_request_bound (E : env) :
  sends_at_most 23 (find_client_id E) /\ sends_at_most 49 (get_client_id E).
Proof.
  split; [apply sends_find_client_id|].
  assert (Hs : sends_at_most 48 (scrape_and_save E)).
  { unfold scrape_and_save.
    apply (sends_bind 23 25); [apply sends_find_client_id|]; intros c1.
    apply (sends_bind 1 24); [apply sends_check_client_id_valid|]; intros v.
    apply (sends_bind 24 0).
    - destruct v; [apply (sends_weaken 0); [lia | apply sends_ret]|].
      apply (sends_bind 23 1); [apply sends_find_client_id|]; intros c2.
      apply (sends_bind 1 0); [apply sends_check_client_id_valid|].
      intros [|]; [apply sends_ret | apply sends_raise].
    - intros c; apply (sends_bind 0 0); [|intros; apply sends_ret].
      intros st; exists []; unfold save_client_id.
      destruct (cache_writable E); auto. }
  unfold get_client_id.
  apply (sends_bind 0 49).
  - intros st; exists []; rewrite get_cached_client_id_state; auto.
  - intros [cid|]; [|apply (sends_weaken 48); [lia | exact Hs]].
    apply (sends_bind 1 48); [apply sends_check_client_id_valid|].
    intros [|]; [apply (sends_weaken 0); [lia | apply sends_ret] | exact Hs].
Qed.

Lemma extra_page_scripts_run (E : env) (script_urls : list str)
    (page : str) (st : state) :
  exists scripts,
    extra_page_scripts E script_urls page st
    = (mkState (extra_request E page ++ requests st)
               (files st) (cache st) (printed st) (trace st), Ok scripts).
Proof.
  unfold extra_page_scripts, try_except, bind, lift, join_home, get_url,
    session_get, extra_request, page_request.
  destruct (urljoin E soundcloud_home page) as [url|].
  - destruct (net E (requests st) _) as [msg|r]; [eexists; reflexivity|].
    destruct (ok r); eexists; reflexivity.
  - destruct st; eexists; reflexivity.
Qed.

Lemma scan_scripts_never_raises (E : env) (urls : list str) (st : state) :
  exists found, snd (scan_scripts E urls st) = Ok found.
Proof.
  revert st; induction urls as [|u rest IH]; intros st; cbn [scan_scripts].
  - eexists; reflexivity.
  - unfold bind, try_except, get_url, session_get.
    destruct (net E (requests st) _) as [msg|r]; cbn [ret].
    + apply IH.
    + destruct (ok r), (text r); cbn [ret];
        try apply IH.
      destruct (search_patterns patterns (c :: s)); [eexists; reflexivity|].
      apply IH.
Qed.

Lemma append_scripts_error (E : env) (scripts script_urls left : list str)
    (e : exn) :
  append_scripts E script_urls scripts = (left, Raise e) -> e = ValueError.
Proof.
  revert script_urls; induction scripts as [|s rest IH]; intros script_urls;
    cbn [append_scripts]; [discriminate|].
  destruct (script_url E s) as [url|e'] eqn:Hs; [apply IH|].
  intros H; injection H as _ <-.
  unfold script_url, join_home in Hs.
  destruct (startswith (lit "//") s); [discriminate Hs|].
  destruct (startswith (lit "http") s); [discriminate Hs|].
  destruct (urljoin E soundcloud_home s); [discriminate Hs|].
  injection Hs as <-; reflexivity.
Qed.

Lemma page_scripts_error (E : env) (html : str) (e : exn) :
  page_scripts E html = Raise e -> e = ValueError.
Proof.
  unfold page_scripts.
  destruct (append_scripts E [] (findall_scripts 0 html)) as [urls [[]|e']]
    eqn:Ha; [discriminate|].
  intros H; injection H as <-; eapply append_scripts_error; exact Ha.
Qed.

(** X7: a token in the root HTML wins.  When the home page is fetched
    with a status that is not an error, every script tag on it yields a
    URL ([urljoin] raises on none of them) and the HTML holds a token,
    [find_client_id] returns that token after requesting the home page
    and the extra pages, without requesting any script. *)
Theorem find_client_id_html_first (E : env) (st : state) (r : response)
    (script_urls : list str) (cid : str) :
  net E (requests st) (page_request soundcloud_home) = Resp r ->
  ok r = true ->
  page_scripts E (text r) = Ok script_urls ->
  search_patterns patterns (text r) = Some cid ->
  snd (find_client_id E st) = Ok cid /\
  requests (fst (find_client_id E st))
  = extra_request E (lit "/charts/top") ++ extra_request E (lit "/discover")
    ++ [page_request soundcloud_home] ++ requests st.
Proof.
  intros Hn Hok Hps Hs.
  destruct (find_client_id E st) as [st' res] eqn:Hrun; cbn [fst snd].
  unfold find_client_id, scrape_site, bind at 1, emit in Hrun.
  unfold bind at 1 in Hrun. unfold bind at 1 in Hrun.
  unfold get_url, session_get in Hrun; cbn [requests] in Hrun.
  fold (page_request soundcloud_home) in Hrun; rewrite Hn in Hrun.
  unfold bind at 1, raise_for_status in Hrun; rewrite Hok in Hrun.
  unfold ret at 1 in Hrun.
  unfold bind at 1, lift in Hrun; rewrite Hps in Hrun.
  unfold bind at 1 in Hrun.
  match type of Hrun with context [extra_page_scripts E ?u ?p ?s] =>
    destruct (extra_page_scripts_run E u p s) as [m1 Hm1] end.
  rewrite Hm1 in Hrun.
  unfold bind at 1 in Hrun.
  match type of Hrun with context [extra_page_scripts E ?u ?p ?s] =>
    destruct (extra_page_scripts_run E u p s) as [m2 Hm2] end.
  rewrite Hm2, Hs in Hrun.
  unfold bind, ret, emit in Hrun; cbn in Hrun.
  injection Hrun as <- <-; split; reflexivity.
Qed.

Lemma find_client_id_html_first_witness :
  snd (find_client_id (api_status_env 200) initial_state) = Ok token_b /\
  map req_url
    (requests (fst (find_client_id (api_status_env 200) initial_state)))
  = [soundcloud_home ++ lit "/charts/top";
     soundcloud_home ++ lit "/discover"; soundcloud_home].
Proof.
  destruct (find_client_id_html_first (api_status_env 200) initial_state
              page_response [] token_b eq_refl eq_refl eq_refl eq_refl)
    as [Hres Hreq].
  split; [exact Hres | rewrite Hreq; reflexivity].
Defined.

(** X8: the errors of [find_client_id].  A network failure or an error
    status on the home page is raised as it is, after that single
    request.  So is the [ValueError] of [urljoin] on a script tag of the
    home page: the loop over those tags stands outside any [try], and the
    call ends after the one request, before the HTML is searched.  Past
    that loop, nothing that goes wrong with the extra pages or the
    scripts is raised: the call returns a token or fails with the error
    of a credential not found. *)
Theorem find_client_id_errors (E : env) (st : state) :
  match net E (requests st) (page_request soundcloud_home) with
  | NetFail msg =>
      snd (find_client_id E st) = Raise (RequestException msg) /\
      requests (fst (find_client_id E st))
      = page_request soundcloud_home :: requests st
  | Resp r =>
      if ok r
      then match page_scripts E (text r) with
           | Ok _ =>
               (exists cid, snd (find_client_id E st) = Ok cid) \/
               snd (find_client_id E st)
               = Raise (SoundCloudError msg_no_client_id)
           | Raise _ =>
               snd (find_client_id E st) = Raise ValueError /\
               requests (fst (find_client_id E st))
               = page_request soundcloud_home :: requests st
           end
      else snd (find_client_id E st) = Raise (HTTPError (status_code r)) /\
           requests (fst (find_client_id E st))
           = page_request soundcloud_home :: requests st
  end.
Proof.
  destruct (find_client_id E st) as [st' res] eqn:Hrun; cbn [fst snd].
  unfold find_client_id, scrape_site, bind at 1, emit in Hrun.
  unfold bind at 1 in Hrun. unfold bind at 1 in Hrun.
  unfold get_url, session_get in Hrun; cbn [requests] in Hrun.
  fold (page_request soundcloud_home) in Hrun.
  destruct (net E (requests st) (page_request soundcloud_home)) as [msg|r].
  - injection Hrun as <- <-; split; reflexivity.
  - unfold bind at 1, raise_for_status in Hrun.
    destruct (ok r); [|injection Hrun as <- <-; split; reflexivity].
    unfold ret at 1 in Hrun; unfold bind at 1, lift in Hrun.
    destruct (page_scripts E (text r)) as [urls|e] eqn:Hps.
    2:{ apply page_scripts_error in Hps; subst e.
        injection Hrun as <- <-; split; reflexivity. }
    unfold bind at 1 in Hrun.
    match type of Hrun with context [extra_page_scripts E ?u ?p ?s] =>
      destruct (extra_page_scripts_run E u p s) as [m1 Hm1] end.
    rewrite Hm1 in Hrun.
    unfold bind at 1 in Hrun.
    match type of Hrun with context [extra_page_scripts E ?u ?p ?s] =>
      destruct (extra_page_scripts_run E u p s) as [m2 Hm2] end.
    rewrite Hm2 in Hrun.
    destruct (search_patterns patterns (text r)) as [cid|].
    + unfold bind, ret, emit in Hrun; injection Hrun as <- <-.
      left; exists cid; reflexivity.
    + unfold bind at 1 in Hrun.
      match type of Hrun with context [scan_scripts E ?u ?s] =>
        destruct (scan_scripts_never_raises E u s) as [found Hf];
        destruct (scan_scripts E u s) as [s' rf] end.
      cbn [snd] in Hf; subst rf.
      destruct found as [cid|]; unfold bind, ret, emit, raise in Hrun;
        injection Hrun as <- <-; [left; exists cid|right]; reflexivity.
Qed.

(** A home page that holds a token and a script tag on whose [src]
    [urljoin] raises: the call ends with [ValueError] after the one
    request, and the token is not returned. *)
Example find_client_id_bad_src :
  find_client_id bracket_env initial_state
  = (mkState [page_request soundcloud_home] [] NoFile [] [EScrape],
     Raise ValueError).
Proof. reflexivity. Qed.

(** An extra page with such a tag after a good one keeps the URL of the
    good one. *)
Example extra_page_scripts_partial :
  snd (extra_page_scripts bracket_env [] (lit "/discover") initial_state)
  = Ok [soundcloud_home ++ lit "/a.js"].
Proof. reflexivity. Qed.

Lemma dedupe_spec (urls seen : list str) :
  NoDup (dedupe seen urls) /\
  (forall u, In u (dedupe seen urls) <-> In u urls /\ ~ In u seen).
Proof.
  revert seen; induction urls as [|x rest IH]; intros seen; cbn [dedupe].
  - split; [constructor | intros u; simpl; tauto].
  - destruct (existsb (str_eqb x) seen) eqn:Hx.
    + apply existsb_exists in Hx; destruct Hx as [y [Hy He]].
      apply str_eqb_eq in He; subst y.
      destruct (IH seen) as [Hnd Hin]; split; [exact Hnd|].
      intros u; rewrite Hin; simpl; split; [tauto|].
      intros [[<-|H] Hn]; [contradiction | tauto].
    + assert (Hnx : ~ In x seen).
      { intros Hi.
        assert (Ht : existsb (str_eqb x) seen = true)
          by (apply existsb_exists; exists x; split;
              [exact Hi | apply str_eqb_eq; reflexivity]).
        congruence. }
      destruct (IH (x :: seen)) as [Hnd Hin]; split.
      * constructor; [|exact Hnd].
        rewrite Hin; simpl; tauto.
      * intros u; simpl; rewrite Hin; simpl.
        split.
        -- intros [<-|[H1 H2]]; [tauto|]. split; [tauto|]. tauto.
        -- intros [[<-|H1] H2]; [tauto|].
           destruct (list_eq_dec N.eq_dec x u) as [->|Hne]; [tauto|].
           right; split; [exact H1|]; tauto.
Qed.

Lemma dedupe_fixed (urls seen : list str) :
  NoDup urls -> (forall u, In u urls -> ~ In u seen) ->
  dedupe seen urls = urls.
Proof.
  revert seen; induction urls as [|x rest IH]; intros seen Hnd Hs;
    cbn [dedupe]; [reflexivity|].
  inversion Hnd as [|? ? Hx Hr]; subst.
  destruct (existsb (str_eqb x) seen) eqn:He.
  - apply existsb_exists in He; destruct He as [y [Hy He]].
    apply str_eqb_eq in He; subst y.
    exfalso; apply (Hs x); [left; reflexivity | exact Hy].
  - f_equal; apply IH; [exact Hr|].
    intros u Hu [<-|Hi]; [contradiction|].
    apply (Hs u); [right; exact Hu | exact Hi].
Qed.

(** X9: the list of script URLs after the removal of duplicates holds
    every URL of the original list and no other, each one once; a list
    without duplicates comes out as it went in, in the same order. *)
Theorem dedupe_no_duplicates (urls : list str) :
  NoDup (dedupe [] urls) /\
  (forall u, In u (dedupe [] urls) <-> In u urls) /\
  (NoDup urls -> dedupe [] urls = urls).
Proof.
  destruct (dedupe_spec urls []) as [Hnd Hin].
  split; [exact Hnd|]; split.
  - intros u; rewrite Hin; simpl; tauto.
  - intros H; apply dedupe_fixed; [exact H | intros u _ []].
Qed.

Lemma span_not_free (c0 : char) (s : str) : ~ In c0 (fst (span_not c0 s)).
Proof.
  induction s as [|c t IH]; simpl; [tauto|].
  destruct (char_eqb c c0) eqn:Hc; [simpl; tauto|].
  destruct (span_not c0 t) as [g r]; simpl in *.
  apply N.eqb_neq in Hc; intros [H|H]; [congruence | exact (IH H)].
Qed.

Lemma quoted_group_spec (s g r : str) :
  quoted_group s = Some (g, r) -> g <> [] /\ ~ In 34 g.
Proof.
  unfold quoted_group.
  pose proof (span_not_free 34 s) as Hf.
  destruct (span_not 34 s) as [[|c g'] [|q r']]; try discriminate.
  intros H; injection H as <- <-; split; [discriminate | exact Hf].
Qed.

Lemma not_gt_plus_then_some {A : Type} (k : str -> option A) (s : str)
    (x : A) :
  not_gt_plus_then k s = Some x -> exists s', k s' = Some x.
Proof.
  induction s as [|c t IH]; simpl; [discriminate|].
  destruct (char_eqb c 62); [discriminate|].
  destruct (not_gt_plus_then k t) as [y|].
  - intros H; injection H as <-; apply IH; reflexivity.
  - intros H; exists t; exact H.
Qed.

Lemma match_script_group (s g r : str) :
  match_script s = Some (g, r) -> g <> [] /\ ~ In 34 g.
Proof.
  unfold match_script.
  destruct (eat (lit "<script") s) as [s1|]; [|discriminate].
  intros H; apply not_gt_plus_then_some in H; destruct H as [s2 H].
  destruct (eat (lit "src=" ++ dquote) s2) as [s3|]; [|discriminate].
  eapply quoted_group_spec; exact H.
Qed.

Lemma match_script_needs_tag (s : str) :
  startswith (lit "<script") s = false -> match_script s = None.
Proof.
  unfold match_script; intros H.
  destruct (eat (lit "<script") s) as [s1|] eqn:He; [|reflexivity].
  apply eat_startswith in He; congruence.
Qed.

(** X10: every script URL taken from a page is the non-empty content of
    a [src] attribute and holds no double quote, and a page in which the
    text [<script] does not occur yields none. *)
Theorem findall_scripts_urls (html : str) :
  (forall g, In g (findall_scripts 0 html) -> g <> [] /\ ~ In 34 g) /\
  (contains (lit "<script") html = false -> findall_scripts 0 html = []).
Proof.
  split.
  - generalize 0%nat as skip; induction html as [|c t IH]; intros skip g;
      cbn [findall_scripts]; [intros []|].
    destruct skip as [|k]; [|apply IH].
    destruct (match_script (c :: t)) as [[g' rest]|] eqn:Hm; [|apply IH].
    intros [<-|H]; [eapply match_script_group; exact Hm | exact (IH _ _ H)].
  - induction html as [|c t IH]; [reflexivity|].
    cbn [contains findall_scripts]; intros H.
    apply orb_false_iff in H; destruct H as [Hs Ht].
    rewrite (match_script_needs_tag _ Hs); exact (IH Ht).
Qed.

(** ** The downloader *)

Lemma download_file_run (E : env) (url save_path : str) (st : state) :
  download_file E url save_path st
  = match net E (requests st) (page_request url) with
    | NetFail msg => (sent E url st, Raise (RequestException msg))
    | Resp r =>
        if ok r
        then match content_length r with
             | HMalformed => (sent E url st, Raise ValueError)
             | _ =>
                 if can_create E save_path
                 then (stored save_path (sent E url st),
                       match body_error r with
                       | Some msg => Raise (RequestException msg)
                       | None => Ok tt
                       end)
                 else (sent E url st, Raise OSError)
             end
        else (sent E url st, Raise (HTTPError (status_code r)))
    end.
Proof.
  unfold download_file, bind, get_url, session_get, raise_for_status,
    add_file, sent, stored, page_request.
  destruct (net E (requests st) _) as [m|r]; [reflexivity|].
  destruct (ok r); [|reflexivity].
  cbn [ret raise].
  destruct (content_length r); try reflexivity;
    (destruct (can_create E save_path); [|reflexivity];
     destruct (body_error r); reflexivity).
Qed.

(** X11: [download_file] makes exactly one request.  It creates the
    file only after an answer whose status is not an error and whose
    length header converts; an error status or a network failure raises
    with the files as they were; a stream that breaks raises with the
    partly written file left in place; and it returns normally only with
    the file in place. *)
Theorem download_file_outcomes (E : env) (url save_path : str) (st : state) :
  requests (fst (download_file E url save_path st))
  = page_request url :: requests st /\
  (files (fst (download_file E url save_path st)) = files st \/
   files (fst (download_file E url save_path st)) = save_path :: files st) /\
  (snd (download_file E url save_path st) = Ok tt ->
   files (fst (download_file E url save_path st)) = save_path :: files st) /\
  (forall msg, net E (requests st) (page_request url) = NetFail msg ->
     snd (download_file E url save_path st) = Raise (RequestException msg) /\
     files (fst (download_file E url save_path st)) = files st) /\
  (forall r, net E (requests st) (page_request url) = Resp r ->
     ok r = false ->
     snd (download_file E url save_path st) = Raise (HTTPError (status_code r)) /\
     files (fst (download_file E url save_path st)) = files st) /\
  (forall r msg, net E (requests st) (page_request url) = Resp r ->
     ok r = true -> content_length r <> HMalformed ->
     can_create E save_path = true -> body_error r = Some msg ->
     snd (download_file E url save_path st) = Raise (RequestException msg) /\
     files (fst (download_file E url save_path st)) = save_path :: files st).
Proof.
  rewrite download_file_run; cbv zeta.
  destruct (net E (requests st) (page_request url)) as [m|r].
  - cbn [fst snd requests files].
    split; [reflexivity|]; split; [left; reflexivity|].
    split; [discriminate|].
    split; [intros msg H; injection H as <-; split; reflexivity|].
    split; [intros r H; discriminate H|].
    intros r msg H; discriminate H.
  - destruct (ok r) eqn:Hok.
    + assert (Hc : content_length r = HMalformed \/
                   content_length r <> HMalformed)
        by (destruct (content_length r); [right|right|left];
            congruence).
      destruct Hc as [Hc|Hc].
      * rewrite Hc; cbn [fst snd requests files].
        split; [reflexivity|]; split; [left; reflexivity|].
        split; [discriminate|].
        split; [intros msg H; discriminate H|].
        split; [intros r' H; injection H as <-; congruence|].
        intros r' msg H; injection H as <-; congruence.
      * assert (Hrun :
          match content_length r with
          | HMalformed => (sent E url st, @Raise unit ValueError)
          | _ => if can_create E save_path
                 then (stored save_path (sent E url st),
                       match body_error r with
                       | Some msg => Raise (RequestException msg)
                       | None => Ok tt
                       end)
                 else (sent E url st, Raise OSError)
          end
          = if can_create E save_path
            then (stored save_path (sent E url st),
                  match body_error r with
                  | Some msg => Raise (RequestException msg)
                  | None => Ok tt
                  end)
            else (sent E url st, Raise OSError))
          by (destruct (content_length r); [reflexivity|reflexivity|congruence]).
        rewrite Hrun; clear Hrun.
        destruct (can_create E save_path) eqn:Hcc;
          cbn [fst snd requests files sent stored].
        -- split; [reflexivity|]; split; [right; reflexivity|].
           split; [reflexivity|].
           split; [intros msg H; discriminate H|].
           split; [intros r' H; injection H as <-; congruence|].
           intros r' msg H; injection H as <-; intros _ _ _ ->.
           split; reflexivity.
        -- split; [reflexivity|]; split; [left; reflexivity|].
           split; [discriminate|].
           split; [intros msg H; discriminate H|].
           split; [intros r' H; injection H as <-; congruence|].
           intros r' msg H; injection H as <-; congruence.
    + cbn [fst snd requests files sent].
      split; [reflexivity|]; split; [left; reflexivity|].
      split; [discriminate|].
      split; [intros msg H; discriminate H|].
      split; [intros r' H; injection H as <-; split; reflexivity|].
      intros r' msg H; injection H as <-; congruence.
Qed.

Lemma download_file_outcomes_witness :
  snd (download_file failing_env (lit "https://cdn/file.mp3")
         (lit "out/x.mp3") initial_state) = Raise (HTTPError 500) /\
  files (fst (download_file failing_env (lit "https://cdn/file.mp3")
                (lit "out/x.mp3") initial_state)) = [].
Proof.
  apply (proj1 (proj2 (proj2 (proj2 (proj2
           (download_file_outcomes failing_env (lit "https://cdn/file.mp3")
              (lit "out/x.mp3") initial_state)))))
           (bare_response 500)); reflexivity.
Defined.

(** ** Destination paths, continued *)

Lemma unique_path_loop_some (fs : list str) (base ext : str) :
  forall fuel counter p q,
    unique_path_loop fuel fs base ext counter p = Some q ->
    exists n,
      q = candidate base ext counter p n /\
      (forall i, (i < n)%nat ->
         path_exists fs (candidate base ext counter p i) = true) /\
      path_exists fs q = false.
Proof.
  induction fuel as [|fuel IH]; intros counter p q H; [discriminate H|].
  cbn [unique_path_loop] in H.
  destruct (path_exists fs p) eqn:Hp.
  - destruct (IH _ _ _ H) as [n [Hq [Hlt Hf]]].
    exists (S n); split; [|split].
    + rewrite Hq; apply candidate_shift.
    + intros [|i] Hi; [exact Hp|].
      rewrite <- (candidate_shift base ext counter p); apply Hlt; lia.
    + exact Hf.
  - injection H as <-; exists 0%nat; split; [reflexivity|]; split; [|exact Hp].
    intros i Hi; lia.
Qed.

Lemma unique_path_not_existing (fs : list str) (save_path : str) :
  path_exists fs (unique_path fs save_path) = false.
Proof.
  unfold unique_path.
  destruct (splitext save_path) as [base ext].
  pose proof (unique_path_loop_ends fs base ext save_path) as He.
  destruct (unique_path_loop (S (S (List.length fs))) fs base ext 2 save_path)
    as [q|] eqn:Hq; [|contradiction].
  destruct (unique_path_loop_some fs base ext _ _ _ _ Hq) as [n [_ [_ Hf]]].
  exact Hf.
Qed.

(** X12: the path [download_track] settles on never exists yet: it is
    the first of [save_path], [base (2)ext], [base (3)ext], ... (base and
    extension as [splitext] gives them) that does not exist, whatever the
    files are. *)
Theorem unique_path_first_free (fs : list str) (save_path : str) :
  path_exists fs (unique_path fs save_path) = false /\
  exists n,
    unique_path fs save_path
    = candidate (fst (splitext save_path)) (snd (splitext save_path)) 2
        save_path n /\
    forall i, (i < n)%nat ->
      path_exists fs
        (candidate (fst (splitext save_path)) (snd (splitext save_path)) 2
           save_path i) = true.
Proof.
  unfold unique_path.
  destruct (splitext save_path) as [base ext]; cbn [fst snd].
  pose proof (unique_path_loop_ends fs base ext save_path) as He.
  destruct (unique_path_loop (S (S (List.length fs))) fs base ext 2 save_path)
    as [q|] eqn:Hq; [|contradiction].
  destruct (unique_path_loop_some fs base ext _ _ _ _ Hq) as [n [Hn [Hlt Hf]]].
  split; [exact Hf|]; exists n; split; [exact Hn | exact Hlt].
Qed.

(** ** The download orchestration, continued *)

Lemma session_get_keeps_files (E : env) (rq : request) :
  keeps files (session_get E rq).
Proof.
  intros st; unfold session_get; destruct (net E (requests st) rq); reflexivity.
Qed.

Lemma api_request_keeps_files (E : env) (url : str)
    (params : list (str * str)) (allow_404 : bool) :
  keeps files (api_request E url params allow_404).
Proof.
  unfold api_request.
  apply keeps_try.
  - apply keeps_bind; [apply session_get_keeps_files|]; intros r.
    destruct ((status_code r =? 404)%Z && allow_404); [apply keeps_ret|].
    apply keeps_bind; [apply raise_for_status_keeps|]; intros _.
    unfold response_json; destruct (json_body r);
      [apply keeps_raise | apply keeps_ret].
  - intros [m|s|m| | | |]; try apply keeps_raise.
    destruct ((s =? 401)%Z || (s =? 403)%Z); apply keeps_raise.
Qed.

Lemma get_track_download_info_keeps_files (E : env) (client_id : str)
    (track : json) :
  keeps files (get_track_download_info E client_id track).
Proof.
  unfold get_track_download_info.
  repeat (apply keeps_bind; [apply keeps_lift|]; intros ?).
  destruct (negb (truthy a3)); [apply keeps_ret|].
  repeat (apply keeps_bind; [apply keeps_lift|]; intros ?).
  apply keeps_bind; [apply api_request_keeps_files|]; intros ?.
  apply keeps_bind; [apply keeps_lift|]; intros ?.
  destruct (negb (truthy a7)); [apply keeps_raise | apply keeps_ret].
Qed.

Lemma print_keeps_files (line : str) : keeps files (print line).
Proof. intros st; reflexivity. Qed.

Lemma emit_keeps_files (e : event) : keeps files (emit e).
Proof. intros st; reflexivity. Qed.

Lemma download_file_files (E : env) (url save_path : str) (st : state) :
  files (fst (download_file E url save_path st)) = files st \/
  files (fst (download_file E url save_path st)) = save_path :: files st.
Proof.
  rewrite download_file_run.
  destruct (net E (requests st) (page_request url)) as [m|r];
    [left; reflexivity|].
  destruct (ok r); [|left; reflexivity].
  destruct (content_length r); try (left; reflexivity);
    (destruct (can_create E save_path); [right|left]; reflexivity).
Qed.

(** One call of [download_track] creates at most one file, at a path
    that did not exist. *)
Lemma download_track_files (E : env) (client_id output_dir : str)
    (track : json) (st st' : state) (r : result bool) :
  download_track E client_id track output_dir st = (st', r) ->
  files st' = files st \/
  exists p, files st' = p :: files st /\ path_exists (files st) p = false.
Proof.
  unfold download_track, bind at 1, emit; intros H.
  set (s0 := mkState (requests st) (files st) (cache st) (printed st)
                     (EAttempt track :: trace st)) in H.
  unfold bind at 1 in H.
  pose proof (get_track_download_info_keeps_files E client_id track s0) as Hi.
  destruct (get_track_download_info E client_id track s0) as [s1 [[info|]|e]];
    cbn [fst] in Hi; change (files s0) with (files st) in Hi.
  - unfold bind at 1, get_files in H.
    unfold bind at 1, print in H.
    match type of H with context [download_file E ?u ?p] =>
      set (url := u) in H; set (path := p) in H end.
    unfold bind at 1 in H.
    match type of H with context [download_file E url path ?s] =>
      set (s2 := s) in H;
      pose proof (download_file_files E url path s2) as Hd;
      destruct (download_file E url path s2) as [s3 [[]|e]] end;
      cbn [fst snd] in Hd; change (files s2) with (files s1) in Hd.
    + unfold bind, print, emit, ret in H; injection H as <- <-; cbn [files].
      destruct Hd as [Hd|Hd]; rewrite Hd, Hi; [left; reflexivity|].
      right; exists path; split; [reflexivity|].
      unfold path; rewrite Hi.
      apply unique_path_not_existing.
    + injection H as <- <-.
      destruct Hd as [Hd|Hd]; rewrite Hd, Hi; [left; reflexivity|].
      right; exists path; split; [reflexivity|].
      unfold path; rewrite Hi.
      apply unique_path_not_existing.
  - assert (Hk : keeps files
                   (title <- lift (py_get track (lit "title")
                                     (JStr (lit "Unknown"))) ;;
                    user <- lift (py_get track (lit "user") JNull) ;;
                    artist <- lift (py_get (py_or user (JObj []))
                                      (lit "username")
                                      (JStr (lit "Unknown"))) ;;
                    print (lit "skipping (no mp3 available): "
                           ++ fstr E artist ++ lit " - " ++ fstr E title) ;;;
                    ret false)).
    { repeat (apply keeps_bind; [apply keeps_lift|]; intros ?).
      apply keeps_bind; [apply print_keeps_files|]; intros _.
      apply keeps_ret. }
    specialize (Hk s1); rewrite H in Hk; cbn [fst] in Hk.
    left; rewrite Hk, Hi; reflexivity.
  - injection H as <- <-; left; exact Hi.
Qed.

Lemma download_each_files (E : env) (client_id output_dir : str) :
  forall (tracks : list json) (i total success_count : nat)
         (st st' : state) (r : result nat),
    download_each E client_id output_dir tracks i total success_count st
    = (st', r) ->
    exists new,
      files st' = new ++ files st /\ NoDup new /\
      forall p, In p new -> ~ In p (files st).
Proof.
  induction tracks as [|t rest IH]; intros i total sc st st' r H.
  - cbn [download_each] in H; unfold ret in H; injection H as <- <-.
    exists []; split; [reflexivity|]; split; [constructor | intros p []].
  - cbn [download_each] in H.
    unfold bind at 1, print in H.
    set (s0 := mkState (requests st) (files st) (cache st) _ (trace st)) in H.
    unfold bind at 1 in H.
    destruct (download_track E client_id t output_dir s0) as [s1 [b|e]] eqn:Hd;
      apply download_track_files in Hd; change (files s0) with (files st) in Hd.
    + destruct (IH _ _ _ _ _ _ H) as [new [Hf [Hnd Hnew]]].
      destruct Hd as [Hd|[p [Hd Hp]]]; rewrite Hd in *.
      * exists new; auto.
      * exists (new ++ [p]); split; [|split].
        -- rewrite Hf, <- app_assoc; reflexivity.
        -- apply NoDup_app; [exact Hnd | repeat constructor; intros [] |].
           intros a Ha [Heq|[]]; subst a; apply (Hnew p Ha); left; reflexivity.
        -- intros a Ha; apply in_app_or in Ha; destruct Ha as [Ha|[<-|[]]].
           ++ intros Hin; apply (Hnew a Ha); right; exact Hin.
           ++ intros Hin; apply path_exists_In in Hin; congruence.
    + injection H as <- <-.
      destruct Hd as [Hd|[p [Hd Hp]]]; rewrite Hd.
      * exists []; split; [reflexivity|]; split; [constructor | intros p []].
      * exists [p]; split; [reflexivity|]; split;
          [repeat constructor; intros [] |].
        intros a [<-|[]] Hin; apply path_exists_In in Hin; congruence.
Qed.

(** X13: whatever the resolved entity is, [handle_download] only adds
    files: the paths it creates are pairwise different and none of them
    existed before, so nothing is ever overwritten, neither an older file
    nor one saved earlier in the same batch. *)
Theorem handle_download_never_overwrites (E : env)
    (client_id output_dir : str) (resolved_data : json) (st : state) :
  exists new,
    files (fst (handle_download E client_id resolved_data output_dir st))
    = new ++ files st /\
    NoDup new /\
    forall p, In p new -> path_exists (files st) p = false.
Proof.
  assert (Hnone : exists new : list str,
            files st = new ++ files st /\ NoDup new /\
            forall p, In p new -> path_exists (files st) p = false).
  { exists []; split; [reflexivity|]; split; [constructor | intros p []]. }
  destruct (handle_download E client_id resolved_data output_dir st)
    as [st' r] eqn:Hrun; cbn [fst].
  unfold handle_download, bind at 1, lift in Hrun.
  destruct (py_get resolved_data (lit "kind") JNull) as [kind|e];
    [|injection Hrun as <- <-; exact Hnone].
  destruct (py_eq_str kind (lit "track")).
  - unfold bind at 1 in Hrun.
    destruct (download_track E client_id resolved_data output_dir st)
      as [s1 [b|e]] eqn:Hd; apply download_track_files in Hd.
    + rewrite report_run in Hrun; injection Hrun as <- <-; cbn [files].
      destruct Hd as [->|[p [-> Hp]]]; [exact Hnone|].
      exists [p]; split; [reflexivity|]; split;
        [repeat constructor; intros [] | intros a [<-|[]]; exact Hp].
    + injection Hrun as <- <-.
      destruct Hd as [->|[p [-> Hp]]]; [exact Hnone|].
      exists [p]; split; [reflexivity|]; split;
        [repeat constructor; intros [] | intros a [<-|[]]; exact Hp].
  - destruct (py_eq_str kind (lit "playlist")
              || py_eq_str kind (lit "system-playlist"));
      [|injection Hrun as <- <-; exact Hnone].
    unfold bind at 1 in Hrun.
    destruct (py_get resolved_data (lit "tracks") JNull) as [tracks|e];
      [|injection Hrun as <- <-; exact Hnone].
    unfold bind at 1 in Hrun.
    destruct (py_len (py_or tracks (JArr []))) as [[|n]|e];
      [injection Hrun as <- <-; exact Hnone | |
       injection Hrun as <- <-; exact Hnone].
    unfold bind at 1 in Hrun.
    destruct (py_iter (py_or tracks (JArr []))) as [items|e];
      [|injection Hrun as <- <-; exact Hnone].
    unfold bind at 1 in Hrun.
    destruct (download_each E client_id output_dir items 1 (S n) 0 st)
      as [s1 [k|e]] eqn:Hloop;
      apply download_each_files in Hloop;
      destruct Hloop as [new [Hf [Hnd Hnew]]].
    + rewrite report_run in Hrun; injection Hrun as <- <-; cbn [files].
      exists new; split; [exact Hf|]; split; [exact Hnd|].
      intros p Hp; specialize (Hnew p Hp).
      destruct (path_exists (files st) p) eqn:Hx; [|reflexivity].
      apply path_exists_In in Hx; contradiction.
    + injection Hrun as <- <-.
      exists new; split; [exact Hf|]; split; [exact Hnd|].
      intros p Hp; specialize (Hnew p Hp).
      destruct (path_exists (files st) p) eqn:Hx; [|reflexivity].
      apply path_exists_In in Hx; contradiction.
Qed.

(** X14: a playlist whose track list is missing, null or empty is an
    error of its own, raised before anything else happens: the state is
    the one [handle_download] started from. *)
Theorem handle_download_empty_playlist (E : env) (client_id output_dir : str)
    (fields : list (str * json)) (st : state) :
  (py_eq_str (field (lit "kind") (JObj fields)) (lit "playlist") = true \/
   py_eq_str (field (lit "kind") (JObj fields)) (lit "system-playlist")
   = true) ->
  truthy (field (lit "tracks") (JObj fields)) = false ->
  handle_download E client_id (JObj fields) output_dir st
  = (st, Raise (SoundCloudError msg_empty_playlist)) /\
  kind_of (SoundCloudError msg_empty_playlist) = EmptyPlaylist.
Proof.
  intros Hkind Ht; split; [|reflexivity].
  unfold handle_download, bind, lift.
  rewrite !py_get_field_dict.
  assert (Hnt : py_eq_str (field (lit "kind") (JObj fields)) (lit "track")
                = false).
  { destruct (field (lit "kind") (JObj fields)) as [| | |s| |];
      try reflexivity.
    cbn [py_eq_str] in *.
    destruct (str_eqb s (lit "track")) eqn:Hs; [|reflexivity].
    apply str_eqb_eq in Hs; subst s.
    destruct Hkind as [H|H]; vm_compute in H; discriminate H. }
  rewrite Hnt.
  assert (Hp : py_eq_str (field (lit "kind") (JObj fields)) (lit "playlist")
               || py_eq_str (field (lit "kind") (JObj fields))
                    (lit "system-playlist") = true)
    by (destruct Hkind as [-> | ->]; [reflexivity | apply orb_true_r]).
  rewrite Hp; unfold py_or; rewrite Ht; reflexivity.
Qed.

Lemma handle_download_empty_playlist_witness :
  handle_download failing_env (lit "cid") empty_playlist (lit "out")
    initial_state
  = (initial_state, Raise (SoundCloudError msg_empty_playlist)).
Proof.
  apply (handle_download_empty_playlist failing_env (lit "cid") (lit "out")
           [(lit "kind", JStr (lit "system-playlist"));
            (lit "tracks", JArr [])] initial_state).
  - right; reflexivity.
  - reflexivity.
Defined.

Lemma attempted_length_app (a b : list event) :
  List.length (attempted (a ++ b))
  = (List.length (attempted a) + List.length (attempted b))%nat.
Proof. rewrite attempted_app, length_app; lia. Qed.

Lemma download_each_saved_le (E : env) (client_id output_dir : str) :
  forall (tracks : list json) (i total success_count : nat)
         (st st' : state) (r : result nat),
    download_each E client_id output_dir tracks i total success_count st
    = (st', r) ->
    exists evs,
      trace st' = evs ++ trace st /\
      (saved evs <= List.length (attempted evs))%nat.
Proof.
  induction tracks as [|t rest IH]; intros i total sc st st' r H.
  - cbn [download_each] in H; unfold ret in H; injection H as <- <-.
    exists []; split; [reflexivity | unfold saved; simpl; lia].
  - cbn [download_each] in H.
    unfold bind at 1, print in H.
    set (s0 := mkState (requests st) (files st) (cache st) _ (trace st)) in H.
    unfold bind at 1 in H.
    destruct (download_track E client_id t output_dir s0) as [s1 [b|e]] eqn:Hd;
      destruct (download_track_trace E client_id output_dir t s0 s1 _ Hd)
        as [evs1 [Ht1 [Ha1 Hs1]]].
    + destruct (IH _ _ _ _ _ _ H) as [evs [Ht Hle]].
      exists (evs ++ evs1); split.
      * rewrite Ht, Ht1, <- app_assoc; reflexivity.
      * rewrite saved_app, attempted_length_app, Ha1, Hs1.
        destruct b; simpl; lia.
    + injection H as <- <-.
      exists evs1; split; [exact Ht1|]; rewrite Ha1, Hs1; simpl; lia.
Qed.

Lemma py_len_iter (v : json) (n : nat) (items : list json) :
  py_len v = Ok n -> py_iter v = Ok items -> List.length items = n.
Proof.
  destruct v; simpl; try discriminate;
    intros H1 H2; injection H1 as <-; injection H2 as <-;
    rewrite ?length_map; reflexivity.
Qed.

(** X15: whenever [handle_download] returns normally it has printed a
    report, and the report is true to the run: its total is the number of
    tracks whose download was started, which is at least one, and its
    success count is the number of completed saves, which never exceeds
    the total. *)
Theorem handle_download_report (E : env) (client_id output_dir : str)
    (resolved_data : json) (st st' : state) :
  handle_download E client_id resolved_data output_dir st = (st', Ok tt) ->
  exists evs earlier,
    trace st' = evs ++ trace st /\
    printed st'
    = report_lines (saved evs) (List.length (attempted evs)) ++ earlier /\
    (saved evs <= List.length (attempted evs))%nat /\
    (1 <= List.length (attempted evs))%nat.
Proof.
  intros Hrun.
  unfold handle_download, bind at 1, lift in Hrun.
  destruct (py_get resolved_data (lit "kind") JNull) as [kind|e];
    [|discriminate Hrun].
  destruct (py_eq_str kind (lit "track")).
  - unfold bind at 1 in Hrun.
    destruct (download_track E client_id resolved_data output_dir st)
      as [s1 [b|e]] eqn:Hd; [|discriminate Hrun].
    destruct (download_track_trace E client_id output_dir _ _ _ _ Hd)
      as [evs [Ht [Ha Hs]]].
    rewrite report_run in Hrun; injection Hrun as <-; cbn [trace printed].
    exists evs, (printed s1); rewrite Ha, Hs; cbn [List.length].
    split; [exact Ht|]; split; [destruct b; reflexivity|].
    split; [destruct b; lia | lia].
  - destruct (py_eq_str kind (lit "playlist")
              || py_eq_str kind (lit "system-playlist"));
      [|discriminate Hrun].
    unfold bind at 1 in Hrun.
    destruct (py_get resolved_data (lit "tracks") JNull) as [tracks|e];
      [|discriminate Hrun].
    unfold bind at 1 in Hrun.
    destruct (py_len (py_or tracks (JArr []))) as [[|n]|e] eqn:Hlen;
      try discriminate Hrun.
    unfold bind at 1 in Hrun.
    destruct (py_iter (py_or tracks (JArr []))) as [items|e] eqn:Hit;
      [|discriminate Hrun].
    pose proof (py_len_iter _ _ _ Hlen Hit) as Hn.
    unfold bind at 1 in Hrun.
    destruct (download_each E client_id output_dir items 1 (S n) 0 st)
      as [s1 [k|e]] eqn:Hloop; [|discriminate Hrun].
    destruct (download_each_run E client_id output_dir _ _ _ _ _ _ _ Hloop)
      as [evs [j [Ht [Ha [Hj Hk]]]]].
    destruct (download_each_saved_le E client_id output_dir _ _ _ _ _ _ _ Hloop)
      as [evs' [Ht' Hle]].
    assert (evs' = evs) by (rewrite Ht in Ht'; apply app_inv_tail in Ht';
                            symmetry; exact Ht').
    subst evs'.
    rewrite report_run in Hrun; injection Hrun as <-; cbn [trace printed].
    assert (Hall : List.length (attempted evs) = S n).
    { rewrite Ha, Hj, firstn_all; exact Hn. }
    exists evs, (printed s1); rewrite Hall.
    split; [exact Ht|]; split; [rewrite Hk; reflexivity|].
    split; [lia | lia].
Qed.

Lemma handle_download_report_witness :
  exists evs earlier,
    trace (fst (handle_download serving_env (lit "cid") mixed_playlist
                  (lit "out") initial_state))
    = evs ++ trace initial_state /\
    printed (fst (handle_download serving_env (lit "cid") mixed_playlist
                    (lit "out") initial_state))
    = report_lines (saved evs) (List.length (attempted evs)) ++ earlier /\
    (saved evs <= List.length (attempted evs))%nat /\
    (1 <= List.length (attempted evs))%nat.
Proof.
  apply (handle_download_report serving_env (lit "cid") (lit "out")
           mixed_playlist initial_state).
  vm_compute; reflexivity.
Defined.

(** ** File names *)

Lemma cleaned_no_slash (name : str) (c : char) :
  In c (cleaned name) -> c <> slash.
Proof.
  unfold cleaned; intros H Hc; subst c.
  destruct (strip_middle
              (sub_ws false (remove_unsafe (replace_char 47 45 (strip name)))))
    as [l1 [l2 Hm]].
  assert (Hin : In slash (sub_ws false
                   (remove_unsafe (replace_char 47 45 (strip name))))).
  { rewrite Hm; apply in_or_app; right; apply in_or_app; left; exact H. }
  apply sub_ws_in in Hin; [|reflexivity].
  unfold remove_unsafe in Hin; apply filter_In in Hin; destruct Hin as [Hin _].
  unfold replace_char in Hin; apply in_map_iff in Hin.
  destruct Hin as [x [Hx _]].
  unfold char_eqb in Hx; destruct (N.eqb_spec x 47) as [Heq|Hne].
  - discriminate Hx.
  - apply Hne; exact Hx.
Qed.

Lemma cleaned_keeps_dash (a b : str) :
  In 45 (cleaned (a ++ lit " - " ++ b)).
Proof.
  assert (Hk : In 45 (kept_chars (a ++ lit " - " ++ b))).
  { unfold kept_chars, remove_unsafe.
    apply filter_In; split; [|reflexivity].
    apply filter_In; split; [|reflexivity].
    unfold replace_char; apply in_map_iff; exists 45; split; [reflexivity|].
    apply in_or_app; right; right; left; reflexivity. }
  rewrite <- cleaned_kept in Hk; apply filter_In in Hk; tauto.
Qed.

Lemma clean_filename_plain (a b : str) :
  plain_stem (clean_filename (a ++ lit " - " ++ b)) = true.
Proof.
  rewrite clean_filename_cleaned.
  pose proof (cleaned_keeps_dash a b) as Hd.
  pose proof (cleaned_no_slash (a ++ lit " - " ++ b)) as Hs.
  destruct (cleaned (a ++ lit " - " ++ b)) as [|x t] eqn:Hc; [destruct Hd|].
  unfold plain_stem; apply andb_true_iff; split.
  - apply forallb_forall; intros c Hin.
    apply negb_true_iff, N.eqb_neq, Hs; exact Hin.
  - apply existsb_exists; exists 45; split; [exact Hd | reflexivity].
Qed.

(** X16: every file name [get_track_download_info] builds is a stem
    followed by [.mp3], where the stem holds no slash and is not made of
    dots only (it always holds the dash between artist and title); the
    artist it reports is never empty. *)
Theorem get_track_download_info_filename (E : env) (client_id : str)
    (track : json) (st st' : state) (info : track_info) :
  get_track_download_info E client_id track st = (st', Ok (Some info)) ->
  (exists stem,
     ti_filename info = stem ++ mp3_ext /\ plain_stem stem = true) /\
  ti_artist info <> [].
Proof.
  unfold get_track_download_info, bind, lift; intros H.
  destruct (py_get track (lit "title") (JStr (lit "audio"))) as [title|e];
    [|discriminate H].
  destruct (py_get track (lit "user") JNull) as [user|e]; [|discriminate H].
  destruct (py_get (py_or user (JObj [])) (lit "username") (JStr []))
    as [username|e]; [|discriminate H].
  destruct (py_strip username) as [stripped|e]; [|discriminate H].
  destruct (find_mp3_transcoding track) as [transcoding|e]; [|discriminate H].
  destruct (negb (truthy transcoding)); [discriminate H|].
  destruct (py_get transcoding (lit "url") JNull) as [turl|e];
    [|discriminate H].
  destruct (py_in (lit "?") turl) as [has_query|e]; [|discriminate H].
  match type of H with context [api_request E ?u ?p ?a st] =>
    destruct (api_request E u p a st) as [s1 [data|e]] end;
    [|discriminate H].
  destruct (py_get data (lit "url") JNull) as [mp3|e]; [|discriminate H].
  destruct (negb (truthy mp3)); [discriminate H|].
  unfold ret in H; injection H as _ <-; cbn [ti_filename ti_artist].
  split.
  - eexists; split; [reflexivity | apply clean_filename_plain].
  - destruct stripped; discriminate.
Qed.

Lemma get_track_download_info_filename_witness :
  (exists stem,
     lit "artist - song.mp3" = stem ++ mp3_ext /\ plain_stem stem = true) /\
  lit "artist" <> [].
Proof.
  apply (get_track_download_info_filename serving_env (lit "cid")
           playable_track initial_state
           (fst (get_track_download_info serving_env (lit "cid")
                   playable_track initial_state))
           (mkTrackInfo (JStr (lit "https://cdn/file.mp3"))
              (JStr (lit "song")) (lit "artist") (lit "artist - song.mp3"))).
  vm_compute; reflexivity.
Defined.

(** ** API requests *)

(** X17: [api_request] makes exactly one request, and the errors it lets
    out are of two kinds only: its own [SoundCloudError], with the
    access-denied message (status 401 or 403) or a network-error message;
    or the HTTP error of a status between 400 and 599 other than 401 and
    403, and other than 404 when [allow_404] is set. *)
Theorem api_request_errors (E : env) (url : str) (params : list (str * str))
    (allow_404 : bool) (st : state) (e : exn) :
  snd (api_request E url params allow_404 st) = Raise e ->
  requests (fst (api_request E url params allow_404 st))
  = mkRequest url params :: requests st /\
  ((e = SoundCloudError msg_access_denied) \/
   (exists msg, e = SoundCloudError (msg_network_error ++ msg)) \/
   (exists status,
      e = HTTPError status /\ (400 <= status < 600)%Z /\
      status <> 401%Z /\ status <> 403%Z /\
      (allow_404 = true -> status <> 404%Z))).
Proof.
  unfold api_request, try_except, bind, session_get, raise_for_status,
    response_json.
  destruct (net E (requests st) (mkRequest url params)) as [msg|r];
    cbn [fst snd raise].
  - intros H; injection H as <-; split; [reflexivity|]; right; left;
        exists msg; reflexivity.
  - destruct ((status_code r =? 404)%Z && allow_404) eqn:H404;
      cbn [fst snd ret raise]; [discriminate|].
    destruct (ok r) eqn:Hok; cbn [fst snd ret raise].
    + destruct (json_body r) as [msg|data]; cbn [fst snd ret raise];
        [|discriminate].
      intros H; injection H as <-; split; [reflexivity|]; right; left;
        exists msg; reflexivity.
    + destruct ((status_code r =? 401)%Z || (status_code r =? 403)%Z) eqn:Hd;
        cbn [fst snd raise]; intros H; injection H as <-;
        (split; [reflexivity|]); [left; reflexivity|].
      right; right; exists (status_code r).
      apply orb_false_iff in Hd; destruct Hd as [H1 H3].
      apply Z.eqb_neq in H1, H3.
      unfold ok in Hok; apply negb_false_iff, andb_true_iff in Hok.
      destruct Hok as [Ha Hb]; apply Z.leb_le in Ha; apply Z.ltb_lt in Hb.
      repeat split; try assumption.
      intros -> Hs; rewrite Hs in H404; discriminate H404.
Qed.

Lemma api_request_errors_witness :
  requests (fst (api_request failing_env (lit "https://api/x") [] false
                   initial_state))
  = [mkRequest (lit "https://api/x") []] /\
  ((HTTPError 500 = SoundCloudError msg_access_denied) \/
   (exists msg, HTTPError 500 = SoundCloudError (msg_network_error ++ msg)) \/
   (exists status,
      HTTPError 500 = HTTPError status /\ (400 <= status < 600)%Z /\
      status <> 401%Z /\ status <> 403%Z /\
      (false = true -> status <> 404%Z))).
Proof.
  apply (api_request_errors failing_env (lit "https://api/x") [] false
           initial_state (HTTPError 500)); reflexivity.
Defined.

(** ** The rendition selector, continued *)

Lemma wf_track_descriptors (track : json) :
  wf_track track = true ->
  forallb wf_descriptor (transcodings_of track) = true.
Proof.
  unfold wf_track, transcodings_of; intros H.
  apply andb_true_iff in H; destruct H as [H _].
  apply andb_true_iff in H; destruct H as [_ H].
  destruct (py_or (field (lit "transcodings")
                     (py_or (field (lit "media") track) (JObj [])))
                  (JArr [])); try discriminate H; exact H.
Qed.

(** X18: for a track of the data model whose first eligible descriptor
    has the string [u] as its URL, [get_track_download_info] makes one
    request, to [u] followed by [&client_id=] and the credential when [u]
    holds a question mark and by [?client_id=] and the credential when it
    does not; when the answer is an object without a media URL it fails
    with the error of a missing media URL. *)
Theorem get_track_download_info_exchange (E : env) (client_id : str)
    (track d : json) (u : str) (st : state) :
  wf_track track = true ->
  find eligible (transcodings_of track) = Some d ->
  field (lit "url") d = JStr u ->
  let exchange :=
    page_request (u ++ (if contains (lit "?") u then lit "&" else lit "?")
                    ++ lit "client_id=" ++ client_id) in
  requests (fst (get_track_download_info E client_id track st))
  = exchange :: requests st /\
  (forall r fields,
     net E (requests st) exchange = Resp r -> ok r = true ->
     json_body r = inr (JObj fields) ->
     truthy (field (lit "url") (JObj fields)) = false ->
     snd (get_track_download_info E client_id track st)
     = Raise (SoundCloudError msg_no_mp3_url)).
Proof.
  intros Hwf Hd Hu; cbv zeta.
  pose proof (find_mp3_transcoding_find track Hwf) as Hf; rewrite Hd in Hf.
  pose proof (wf_track_descriptors track Hwf) as Hds.
  apply find_some in Hd; destruct Hd as [Hin _].
  rewrite forallb_forall in Hds; specialize (Hds d Hin).
  assert (Hdict : exists kv, d = JObj kv /\ kv <> []).
  { destruct d as [| | | | |kv]; try discriminate Hu.
    exists kv; split; [reflexivity|]; intros ->; discriminate Hu. }
  destruct Hdict as [kv [-> Hkv]].
  destruct (get_track_download_info E client_id track st) as [st' res] eqn:Hrun;
    cbn [fst snd].
  unfold get_track_download_info, bind at 1, lift in Hrun.
  unfold wf_track in Hwf.
  apply andb_true_iff in Hwf; destruct Hwf as [Hwf Hus].
  apply andb_true_iff in Hwf; destruct Hwf as [Hwf _].
  apply andb_true_iff in Hwf; destruct Hwf as [Hdt _].
  destruct track as [| | | | |tkv]; try discriminate Hdt.
  assert (Ht : exists title,
             py_get (JObj tkv) (lit "title") (JStr (lit "audio")) = Ok title)
    by (cbn [py_get]; destruct (assoc (lit "title") tkv); eauto).
  destruct Ht as [title Ht]; rewrite Ht in Hrun.
  unfold bind at 1 in Hrun; rewrite py_get_field_dict in Hrun.
  destruct (py_or (field (lit "user") (JObj tkv)) (JObj []))
    as [| | | | |ukv]; try discriminate Hus.
  unfold bind at 1 in Hrun.
  assert (Hn : exists name,
             py_get (JObj ukv) (lit "username") (JStr []) = Ok (JStr name)).
  { cbn [py_get]; destruct (assoc (lit "username") ukv) as [[| | |n| |]|];
      try discriminate Hus; eauto. }
  destruct Hn as [name Hn]; rewrite Hn in Hrun.
  unfold bind at 1 in Hrun; cbn [py_strip] in Hrun.
  unfold bind at 1 in Hrun; rewrite Hf in Hrun.
  assert (Htr : truthy (JObj kv) = true) by (destruct kv; [contradiction|reflexivity]).
  rewrite Htr in Hrun; cbn [negb] in Hrun.
  unfold bind at 1 in Hrun; rewrite py_get_field_dict, Hu in Hrun.
  unfold bind at 1 in Hrun; cbn [py_in fstr] in Hrun.
  unfold bind at 1 in Hrun.
  match type of Hrun with context [api_request E ?url [] false st] =>
    set (final := url) in Hrun end.
  assert (Hfinal : final = u ++ (if contains (lit "?") u then lit "&" else lit "?")
                             ++ lit "client_id=" ++ client_id) by reflexivity.
  rewrite <- Hfinal; clear Hfinal.
  unfold api_request, try_except, bind at 1, session_get in Hrun.
  fold (page_request final) in Hrun.
  destruct (net E (requests st) (page_request final)) as [msg|r] eqn:Hnet.
  - unfold raise in Hrun; injection Hrun as <- <-; split; [reflexivity|].
    intros r fields H; discriminate H.
  - rewrite andb_false_r in Hrun.
    unfold bind at 1, raise_for_status in Hrun.
    destruct (ok r) eqn:Hok.
    + unfold ret at 1, response_json in Hrun.
      destruct (json_body r) as [msg|data] eqn:Hbody.
      * unfold raise in Hrun; injection Hrun as <- <-; split; [reflexivity|].
        intros r' fields H _ Hb; injection H as <-; congruence.
      * unfold ret at 1, bind at 1 in Hrun.
        destruct (py_get data (lit "url") JNull) as [mp3|e] eqn:Hg.
        -- destruct (negb (truthy mp3)) eqn:Hm.
           ++ unfold raise in Hrun; injection Hrun as <- <-.
              split; [reflexivity|]; reflexivity.
           ++ unfold ret in Hrun; injection Hrun as <- <-.
              split; [reflexivity|].
              intros r' fields H _ Hb Hno; injection H as <-.
              rewrite Hbody in Hb; injection Hb as ->.
              assert (Heq : mp3 = field (lit "url") (JObj fields))
                by (rewrite py_get_field_dict in Hg; congruence).
              rewrite Heq, Hno in Hm; discriminate Hm.
        -- injection Hrun as <- <-; split; [reflexivity|].
           intros r' fields H _ Hb; injection H as <-.
           rewrite Hbody in Hb; injection Hb as ->.
           rewrite py_get_field_dict in Hg; discriminate Hg.
    + unfold raise at 1 in Hrun.
      destruct ((status_code r =? 401)%Z || (status_code r =? 403)%Z);
        unfold raise in Hrun; injection Hrun as <- <-;
        (split; [reflexivity|]);
        intros r' fields H Hok'; injection H as <-; congruence.
Qed.

Lemma get_track_download_info_exchange_witness :
  requests (fst (get_track_download_info serving_env (lit "cid")
                   playable_track initial_state))
  = [page_request (lit "https://api/t/mp3?client_id=cid")].
Proof.
  apply (get_track_download_info_exchange serving_env (lit "cid")
           playable_track mp3_descriptor (lit "https://api/t/mp3")
           initial_state); reflexivity.
Defined.

(** ** Short links *)

Lemma contains_split (p s : str) :
  contains p s = true -> exists a b, s = a ++ p ++ b.
Proof.
  induction s as [|x t IH]; cbn [contains].
  - rewrite orb_false_r; intros H.
    destruct p; [exists [], []; reflexivity | discriminate H].
  - intros H; apply orb_true_iff in H; destruct H as [H|H].
    + exists []. 
      clear IH; revert H; generalize (x :: t) as s; clear x t.
      induction p as [|c p IH]; intros s H; [exists s; reflexivity|].
      destruct s as [|y s]; [discriminate H|].
      cbn [startswith] in H; apply andb_true_iff in H; destruct H as [Hc H].
      apply N.eqb_eq in Hc; subst y.
      destruct (IH _ H) as [b Hb]; exists b.
      cbn [app] in *; rewrite Hb; reflexivity.
    + destruct (IH H) as [a [b ->]]; exists (x :: a), b; reflexivity.
Qed.

Lemma shortlink_is_soundcloud (url : str) :
  contains shortlink_host url = true -> contains soundcloud_host url = true.
Proof.
  intros H; apply contains_split in H; destruct H as [a [b ->]].
  change shortlink_host with (lit "on." ++ soundcloud_host).
  rewrite <- !app_assoc, (app_assoc a); apply contains_app.
Qed.

(** X19: [fix_shortlink] never raises and touches nothing but the
    output.  A URL without [on.soundcloud.com] comes back as it is, with
    nothing printed; for a short link exactly one line is printed and the
    result is either the URL given or the final URL of a successful
    response, and in both cases it names [soundcloud.com]. *)
Theorem fix_shortlink_result (R : redirect_env) (url : str) (st : state) :
  exists result lines,
    fix_shortlink R url st
    = (mkState (requests st) (files st) (cache st) (lines ++ printed st)
               (trace st), Ok result) /\
    (contains shortlink_host url = false -> result = url /\ lines = []) /\
    (contains shortlink_host url = true ->
       List.length lines = 1%nat /\
       contains soundcloud_host result = true /\
       (result = url \/
        exists r, (head_follow R url = Followed r \/
                   get_follow R url = Followed r) /\
                  f_ok r = true /\ result = f_url r)).
Proof.
  unfold fix_shortlink.
  destruct (contains shortlink_host url) eqn:Hs; cbn [negb].
  - pose proof (shortlink_is_soundcloud url Hs) as Hsc.
    assert (Hfail : forall msg,
              exists result lines,
                (print (msg_fix_failed msg) ;;; ret url) st
                = (mkState (requests st) (files st) (cache st)
                           (lines ++ printed st) (trace st), Ok result) /\
                (true = false -> result = url /\ lines = []) /\
                (true = true ->
                 List.length lines = 1%nat /\
                 contains soundcloud_host result = true /\
                 (result = url \/
                  exists r, (head_follow R url = Followed r \/
                             get_follow R url = Followed r) /\
                            f_ok r = true /\ result = f_url r))).
    { intros msg; exists url, [msg_fix_failed msg].
      split; [reflexivity|]; split; [discriminate|].
      intros _; split; [reflexivity|]; split; [exact Hsc | left; reflexivity]. }
    assert (Hlast : forall r,
              (head_follow R url = Followed r \/ get_follow R url = Followed r) ->
              exists result lines,
                (if f_ok r
                    && match f_url r with [] => false | _ => true end
                    && contains soundcloud_host (f_url r)
                 then print (msg_fixed ++ f_url r) ;;; ret (f_url r)
                 else print msg_not_fixed ;;; ret url) st
                = (mkState (requests st) (files st) (cache st)
                           (lines ++ printed st) (trace st), Ok result) /\
                (true = false -> result = url /\ lines = []) /\
                (true = true ->
                 List.length lines = 1%nat /\
                 contains soundcloud_host result = true /\
                 (result = url \/
                  exists r, (head_follow R url = Followed r \/
                             get_follow R url = Followed r) /\
                            f_ok r = true /\ result = f_url r))).
    { intros r Hr.
      destruct (f_ok r && match f_url r with [] => false | _ => true end
                && contains soundcloud_host (f_url r)) eqn:Hc.
      - apply andb_true_iff in Hc; destruct Hc as [Hc Hcs].
        apply andb_true_iff in Hc; destruct Hc as [Hok _].
        exists (f_url r), [msg_fixed ++ f_url r].
        split; [reflexivity|]; split; [discriminate|].
        intros _; split; [reflexivity|]; split; [exact Hcs|].
        right; exists r; auto.
      - exists url, [msg_not_fixed].
        split; [reflexivity|]; split; [discriminate|].
        intros _; split; [reflexivity|]; split; [exact Hsc | left; reflexivity]. }
    destruct (head_follow R url) as [msg|r] eqn:Hh; [apply Hfail|].
    destruct ((negb (f_ok r) || negb (contains soundcloud_host (f_url r)))
              && f_is_redirect r).
    + destruct (get_follow R url) as [msg|r'] eqn:Hg; [apply Hfail|].
      apply Hlast; right; reflexivity.
    + apply Hlast; left; reflexivity.
  - exists url, []; split; [destruct st; reflexivity|].
    split; [auto|discriminate].
Qed.

(** X20: the GET request is a fallback only: when the HEAD request
    ends on a response that is not a redirect, or on a successful one
    at [soundcloud.com], the answer to GET plays no part in what
    [fix_shortlink] returns or prints. *)
Theorem fix_shortlink_get_is_fallback (R : redirect_env)
    (other : str -> followed_reply) (url : str) (r : followed) (st : state) :
  head_follow R url = Followed r ->
  f_is_redirect r = false \/
  (f_ok r = true /\ contains soundcloud_host (f_url r) = true) ->
  fix_shortlink (mkRedirectEnv (head_follow R) other) url st
  = fix_shortlink R url st.
Proof.
  intros Hh Hc; unfold fix_shortlink; cbn [head_follow get_follow].
  destruct (negb (contains shortlink_host url)); [reflexivity|].
  rewrite Hh.
  assert (Hr : (negb (f_ok r) || negb (contains soundcloud_host (f_url r)))
               && f_is_redirect r = false).
  { destruct Hc as [-> | [-> ->]]; [apply andb_false_r | reflexivity]. }
  rewrite Hr; reflexivity.
Qed.

Lemma fix_shortlink_get_is_fallback_witness :
  fix_shortlink
    (mkRedirectEnv (head_follow resolving_redirects)
                   (fun _ => FollowFail (lit "down")))
    (lit "https://on.soundcloud.com/abc") initial_state
  = fix_shortlink resolving_redirects (lit "https://on.soundcloud.com/abc")
      initial_state.
Proof.
  apply (fix_shortlink_get_is_fallback resolving_redirects
           (fun _ => FollowFail (lit "down"))
           (lit "https://on.soundcloud.com/abc")
           (mkFollowed 200 (lit "https://soundcloud.com/artist/song") false)
           initial_state).
  - reflexivity.
  - left; reflexivity.
Defined.

Example fix_shortlink_resolves :
  fix_shortlink resolving_redirects (lit "https://on.soundcloud.com/abc")
    initial_state
  = (mkState [] [] NoFile
       [msg_fixed ++ lit "https://soundcloud.com/artist/song"] [],
     Ok (lit "https://soundcloud.com/artist/song")).
Proof. reflexivity. Qed.

(** ** The scraper, continued *)

Lemma scan_scripts_cons (E : env) (js_url : str) (rest : list str)
    (st : state) :
  scan_scripts E (js_url :: rest) st
  = match usable_script (net E (requests st) (page_request js_url)) with
    | Some js_code =>
        match search_patterns patterns js_code with
        | Some cid => (sent E js_url st, Ok (Some cid))
        | None => scan_scripts E rest (sent E js_url st)
        end
    | None => scan_scripts E rest (sent E js_url st)
    end.
Proof.
  cbn [scan_scripts]; unfold bind, try_except, get_url, session_get, sent.
  fold (page_request js_url).
  destruct (net E (requests st) (page_request js_url)) as [msg|r];
    cbn [usable_script ret]; [reflexivity|].
  destruct (ok r); [|reflexivity].
  destruct (text r) as [|c t]; [reflexivity|]; cbn [ret].
  destruct (search_patterns patterns (c :: t)); reflexivity.
Qed.

(** X21: the scan of the script bundles never raises and stops at the
    first script that yields a token: the scripts listed after it are
    not requested and change nothing; a stretch of scripts scanned
    without finding a token (unreachable, answered with an error status,
    empty, or without a match) leaves the scan to go on with the scripts
    that follow. *)
Theorem scan_scripts_app (E : env) (first_urls more_urls : list str)
    (st : state) :
  match scan_scripts E first_urls st with
  | (st1, Ok (Some cid)) =>
      scan_scripts E (first_urls ++ more_urls) st = (st1, Ok (Some cid))
  | (st1, Ok None) =>
      scan_scripts E (first_urls ++ more_urls) st
      = scan_scripts E more_urls st1
  | (_, Raise _) => False
  end.
Proof.
  revert st; induction first_urls as [|u rest IH]; intros st.
  - reflexivity.
  - cbn [app]; rewrite !scan_scripts_cons.
    destruct (usable_script (net E (requests st) (page_request u)))
      as [js_code|]; [|apply IH].
    destruct (search_patterns patterns js_code); [reflexivity | apply IH].
Qed.

(** ** The credential manager and the cache *)

Lemma search_patterns_alnum (doc t : str) :
  search_patterns patterns doc = Some t ->
  List.length t = 32%nat /\ forallb isalnum62 t = true.
Proof.
  intros H.
  assert (Hone : forall p, In p patterns -> search p doc = Some t ->
            List.length t = 32%nat /\ forallb isalnum62 t = true).
  { intros p Hp Hs.
    assert (H32 : tokens_are_32 p = true /\ has_token p = true).
    { rewrite patterns_eq in Hp; simpl in Hp.
      destruct Hp as [<-|[<-|[<-|[<-|[]]]]]; split; reflexivity. }
    destruct H32 as [H32 Ht].
    apply search_some in Hs; destruct Hs as [pre [s [-> Hm]]].
    pose proof (match_atoms_group p s [] t H32 Hm) as Hg.
    rewrite Ht in Hg; tauto. }
  revert H Hone; generalize patterns as ps.
  induction ps as [|p ps IH]; cbn [search_patterns]; [discriminate|].
  intros H Hone.
  destruct (search p doc) as [g|] eqn:Hs.
  - injection H as ->; apply (Hone p); [left; reflexivity | exact Hs].
  - apply IH; [exact H|]; intros q Hq; apply Hone; right; exact Hq.
Qed.

Lemma scan_scripts_alnum (E : env) (urls : list str) (st st' : state)
    (cid : str) :
  scan_scripts E urls st = (st', Ok (Some cid)) ->
  List.length cid = 32%nat /\ forallb isalnum62 cid = true.
Proof.
  revert st; induction urls as [|u rest IH]; intros st;
    [discriminate|].
  rewrite scan_scripts_cons.
  destruct (usable_script (net E (requests st) (page_request u)))
    as [js_code|]; [|apply IH].
  destruct (search_patterns patterns js_code) as [c|] eqn:Hs; [|apply IH].
  intros H; injection H as _ <-; eapply search_patterns_alnum; exact Hs.
Qed.

Lemma scan_scripts_keeps_cache (E : env) (urls : list str) :
  keeps cache (scan_scripts E urls).
Proof.
  induction urls as [|u rest IH]; intros st; [reflexivity|].
  rewrite scan_scripts_cons.
  destruct (usable_script (net E (requests st) (page_request u)))
    as [js_code|]; [|rewrite IH; reflexivity].
  destruct (search_patterns patterns js_code); [reflexivity|].
  rewrite IH; reflexivity.
Qed.

(** What a successful [find_client_id] returns and leaves behind. *)
Lemma find_client_id_token (E : env) (st st' : state) (cid : str) :
  find_client_id E st = (st', Ok cid) ->
  List.length cid = 32%nat /\ forallb isalnum62 cid = true /\
  cache st' = cache st.
Proof.
  unfold find_client_id, scrape_site, bind at 1, emit; intros Hrun.
  unfold bind at 1 in Hrun. unfold bind at 1 in Hrun.
  unfold get_url, session_get in Hrun; cbn [requests] in Hrun.
  fold (page_request soundcloud_home) in Hrun.
  destruct (net E (requests st) (page_request soundcloud_home)) as [msg|r];
    [discriminate Hrun|].
  unfold bind at 1, raise_for_status in Hrun.
  destruct (ok r); [|discriminate Hrun].
  unfold ret at 1 in Hrun; unfold bind at 1, lift in Hrun.
  destruct (page_scripts E (text r)) as [urls|e]; [|discriminate Hrun].
  unfold bind at 1 in Hrun.
  match type of Hrun with context [extra_page_scripts E ?u ?p ?s] =>
    destruct (extra_page_scripts_run E u p s) as [m1 Hm1] end.
  rewrite Hm1 in Hrun.
  unfold bind at 1 in Hrun.
  match type of Hrun with context [extra_page_scripts E ?u ?p ?s] =>
    destruct (extra_page_scripts_run E u p s) as [m2 Hm2] end.
  rewrite Hm2 in Hrun.
  destruct (search_patterns patterns (text r)) as [c|] eqn:Hs.
  - unfold bind, ret, emit in Hrun; injection Hrun as <- <-.
    destruct (search_patterns_alnum _ _ Hs) as [Hl Ha].
    split; [exact Hl|]; split; [exact Ha | reflexivity].
  - unfold bind at 1 in Hrun.
    match type of Hrun with context [scan_scripts E ?u ?s] =>
      pose proof (scan_scripts_keeps_cache E u s) as Hk;
      destruct (scan_scripts E u s) as [s' [[c|]|e]] eqn:Hscan end;
      cbn [fst cache] in Hk.
    + unfold bind, ret, emit in Hrun; injection Hrun as <- <-.
      destruct (scan_scripts_alnum _ _ _ _ _ Hscan) as [Hl Ha].
      split; [exact Hl|]; split; [exact Ha | exact Hk].
    + discriminate Hrun.
    + discriminate Hrun.
Qed.

Lemma alnum_strip_fixed (t : str) :
  forallb isalnum62 t = true -> strip t = t.
Proof.
  intros H; rewrite forallb_forall in H.
  unfold strip.
  rewrite (lstrip_fixed t).
  - apply rstrip_fixed; intros a c ->.
    apply alnum_not_space, H, in_or_app; right; left; reflexivity.
  - intros c t' ->; apply alnum_not_space, H; left; reflexivity.
Qed.

Lemma get_cached_client_id_value (st : state) :
  get_cached_client_id st = (st, Ok (cached_value (cache st))).
Proof.
  unfold get_cached_client_id, cached_value.
  destruct (cache st) as [| |s]; try reflexivity.
  destruct (strip s); reflexivity.
Qed.

Lemma cached_value_token (cid : str) :
  List.length cid = 32%nat -> forallb isalnum62 cid = true ->
  cached_value (Contents cid) = Some cid.
Proof.
  intros Hl Ha; unfold cached_value; rewrite (alnum_strip_fixed cid Ha).
  destruct cid; [discriminate Hl | reflexivity].
Qed.

(** A token of the class [0-9a-zA-Z] goes through the text file
    unchanged: it holds no surrogate and no carriage return. *)
Lemma alnum_written (t : str) :
  forallb isalnum62 t = true ->
  encodable t = true /\ universal_newlines t = t.
Proof.
  intros H; rewrite forallb_forall in H; split.
  - unfold encodable; apply forallb_forall; intros c Hc.
    apply H, alnum_range in Hc; unfold is_surrogate.
    replace (55296 <=? c) with false by (symmetry; apply N.leb_gt; lia).
    reflexivity.
  - apply universal_newlines_no_cr; intros Hi.
    apply H, alnum_range in Hi; lia.
Qed.

Lemma save_step_cache (E : env) (cid : str) (st st' : state)
    (r : result str) :
  cache_writable E = true ->
  List.length cid = 32%nat -> forallb isalnum62 cid = true ->
  (save_client_id E cid ;;; ret cid) st = (st', r) ->
  r = Ok cid /\ cache st' = Contents cid.
Proof.
  intros Hw Hl Ha; unfold bind, save_client_id, ret; rewrite Hw.
  intros H; injection H as <- <-; cbn [cache].
  rewrite (alnum_strip_fixed cid Ha).
  destruct (alnum_written cid Ha) as [-> ->]; split; reflexivity.
Qed.

Lemma scrape_and_save_cache (E : env) (st st' : state) (cid : str) :
  cache_writable E = true ->
  scrape_and_save E st = (st', Ok cid) ->
  cached_value (cache st') = Some cid.
Proof.
  intros Hw; unfold scrape_and_save, bind at 1; intros H.
  destruct (find_client_id E st) as [s1 [c1|e1]] eqn:Hf1; [|discriminate H].
  destruct (find_client_id_token _ _ _ _ Hf1) as [Hl1 [Ha1 _]].
  unfold bind at 1 in H.
  rewrite check_client_id_valid_run in H; cbv zeta in H.
  match type of H with context [after_probe E c1 ?v s1] => destruct v end.
  - unfold bind at 1, ret at 1 in H.
    destruct (save_step_cache E c1 _ _ _ Hw Hl1 Ha1 H) as [Hr ->].
    injection Hr as <-; apply cached_value_token; assumption.
  - unfold bind at 1 in H. unfold bind at 1 in H.
    destruct (find_client_id E (after_probe E c1 false s1))
      as [s2 [c2|e2]] eqn:Hf2; [|discriminate H].
    destruct (find_client_id_token _ _ _ _ Hf2) as [Hl2 [Ha2 _]].
    unfold bind at 1 in H.
    rewrite check_client_id_valid_run in H; cbv zeta in H.
    match type of H with context [after_probe E c2 ?v s2] => destruct v end.
    + unfold ret at 1 in H.
      destruct (save_step_cache E c2 _ _ _ Hw Hl2 Ha2 H) as [Hr ->].
      injection Hr as <-; apply cached_value_token; assumption.
    + discriminate H.
Qed.

(** X22: after a run of [get_client_id] that succeeds in a world where
    the cache file can be written, the cache holds the credential just
    returned: the next [get_cached_client_id] reads exactly it. *)
Theorem get_client_id_leaves_cache (E : env) (st st' : state) (cid : str) :
  cache_writable E = true ->
  get_client_id E st = (st', Ok cid) ->
  get_cached_client_id st' = (st', Ok (Some cid)).
Proof.
  intros Hw Hrun; rewrite get_cached_client_id_value; f_equal; f_equal.
  unfold get_client_id, bind at 1 in Hrun.
  rewrite get_cached_client_id_value in Hrun.
  destruct (cached_value (cache st)) as [c|] eqn:Hc.
  - unfold bind at 1 in Hrun.
    rewrite check_client_id_valid_run in Hrun; cbv zeta in Hrun.
    match type of Hrun with context [after_probe E c ?v st] => destruct v end.
    + unfold ret in Hrun; injection Hrun as <- <-; exact Hc.
    + eapply scrape_and_save_cache; eassumption.
  - eapply scrape_and_save_cache; eassumption.
Qed.

Lemma get_client_id_leaves_cache_witness :
  get_cached_client_id (fst (get_client_id script_site_env initial_state))
  = (fst (get_client_id script_site_env initial_state), Ok (Some token_b)).
Proof.
  apply (get_client_id_leaves_cache script_site_env initial_state
           (fst (get_client_id script_site_env initial_state)) token_b).
  - reflexivity.
  - vm_compute; reflexivity.
Defined.

(** ** The download of one track, continued *)

Lemma api_request_requests (E : env) (url : str) (params : list (str * str))
    (allow_404 : bool) (st : state) :
  requests (fst (api_request E url params allow_404 st))
  = mkRequest url params :: requests st.
Proof.
  unfold api_request, try_except, bind, session_get, raise_for_status,
    response_json.
  destruct (net E (requests st) (mkRequest url params)) as [msg|r];
    [reflexivity|].
  destruct ((status_code r =? 404)%Z && allow_404); [reflexivity|].
  destruct (ok r); cbn [fst snd ret raise].
  - destruct (json_body r); reflexivity.
  - destruct ((status_code r =? 401)%Z || (status_code r =? 403)%Z);
      reflexivity.
Qed.

(** [get_track_download_info] answers [None] without doing anything, and
    answers with a target after exactly one request. *)
Lemma get_track_download_info_requests (E : env) (client_id : str)
    (track : json) (st st' : state) (info : option track_info) :
  get_track_download_info E client_id track st = (st', Ok info) ->
  match info with
  | None => st' = st
  | Some _ => exists rq, requests st' = rq :: requests st
  end.
Proof.
  unfold get_track_download_info, bind, lift; intros H.
  destruct (py_get track (lit "title") (JStr (lit "audio"))) as [title|e];
    [|discriminate H].
  destruct (py_get track (lit "user") JNull) as [user|e]; [|discriminate H].
  destruct (py_get (py_or user (JObj [])) (lit "username") (JStr []))
    as [username|e]; [|discriminate H].
  destruct (py_strip username) as [stripped|e]; [|discriminate H].
  destruct (find_mp3_transcoding track) as [transcoding|e]; [|discriminate H].
  destruct (negb (truthy transcoding)).
  - unfold ret in H; injection H as <- <-; reflexivity.
  - destruct (py_get transcoding (lit "url") JNull) as [turl|e];
      [|discriminate H].
    destruct (py_in (lit "?") turl) as [has_query|e]; [|discriminate H].
    match type of H with context [api_request E ?u ?p ?a st] =>
      pose proof (api_request_requests E u p a st) as Hr;
      destruct (api_request E u p a st) as [s1 [data|e]] end;
      [|discriminate H].
    cbn [fst] in Hr.
    destruct (py_get data (lit "url") JNull) as [mp3|e]; [|discriminate H].
    destruct (negb (truthy mp3)); [discriminate H|].
    unfold ret in H; injection H as <- <-; eexists; exact Hr.
Qed.

(** X23: what the result of [download_track] tells.  False is always a
    skip: no request was made and no file created.  True is always a
    completed save: exactly two requests were made (the exchange and the
    media), one file was created at a path that did not exist, and that
    path is the one recorded and printed as saved. *)
Theorem download_track_result (E : env) (client_id output_dir : str)
    (track : json) (st st' : state) (saved_it : bool) :
  download_track E client_id track output_dir st = (st', Ok saved_it) ->
  if saved_it
  then exists p rq1 rq2 earlier_events earlier_lines,
         requests st' = rq2 :: rq1 :: requests st /\
         files st' = p :: files st /\
         path_exists (files st) p = false /\
         trace st' = ESaved p :: earlier_events /\
         printed st' = (lit "saved: " ++ p) :: earlier_lines
  else requests st' = requests st /\ files st' = files st.
Proof.
  unfold download_track, bind at 1, emit; intros H.
  set (s0 := mkState (requests st) (files st) (cache st) (printed st)
                     (EAttempt track :: trace st)) in H.
  unfold bind at 1 in H.
  pose proof (get_track_download_info_keeps_files E client_id track s0) as Hf1.
  destruct (get_track_download_info E client_id track s0) as [s1 [[info|]|e]]
    eqn:Hi; [| |discriminate H];
    apply get_track_download_info_requests in Hi;
    cbn [fst] in Hf1; change (files s0) with (files st) in Hf1.
  - destruct Hi as [rq1 Hrq].
    unfold bind at 1, get_files in H.
    unfold bind at 1, print in H.
    match type of H with context [download_file E ?u ?p] =>
      set (url := u) in H; set (path := p) in H end.
    unfold bind at 1 in H.
    rewrite download_file_run in H.
    cbn [requests] in H.
    match type of H with context [net E ?l ?q] =>
      destruct (net E l q) as [msg|r] end; [discriminate H|].
    destruct (ok r); [|discriminate H].
    assert (Hcases :
      (let (st'0, r0) :=
         if can_create E path
         then (stored path (sent E url
                 (mkState (requests s1) (files s1) (cache s1)
                    ((lit "downloading: " ++ ti_artist info ++ lit " - "
                      ++ fstr E (ti_title info)) :: printed s1) (trace s1))),
               match body_error r with
               | Some msg => Raise (RequestException msg)
               | None => Ok tt
               end)
         else (sent E url
                 (mkState (requests s1) (files s1) (cache s1)
                    ((lit "downloading: " ++ ti_artist info ++ lit " - "
                      ++ fstr E (ti_title info)) :: printed s1) (trace s1)),
               Raise OSError) in
       match r0 with
       | Ok _ => (print (lit "saved: " ++ path) ;;;
                  emit (ESaved path) ;;; ret true) st'0
       | Raise e => (st'0, Raise e)
       end) = (st', Ok saved_it)).
    { destruct (content_length r); [exact H | exact H | discriminate H]. }
    clear H.
    destruct (can_create E path); [|discriminate Hcases].
    destruct (body_error r); [discriminate Hcases|].
    unfold bind, print, emit, ret, stored, sent in Hcases;
      cbn in Hcases; injection Hcases as <- <-.
    exists path, rq1, (page_request url); cbn.
    eexists; eexists.
    split; [rewrite Hrq; reflexivity|].
    split; [rewrite Hf1; reflexivity|].
    split; [|split; reflexivity].
    unfold path; rewrite Hf1; apply unique_path_not_existing.
  - subst s1.
    unfold bind, lift, print, ret in H.
    destruct (py_get track (lit "title") (JStr (lit "Unknown")));
      [|discriminate H].
    destruct (py_get track (lit "user") JNull); [|discriminate H].
    destruct (py_get (py_or a0 (JObj [])) (lit "username")
                (JStr (lit "Unknown"))); [|discriminate H].
    injection H as <- <-; split; reflexivity.
Qed.

Lemma download_track_result_witness :
  exists p rq1 rq2 earlier_events earlier_lines,
    requests (fst (download_track serving_env (lit "cid") playable_track
                     (lit "out") initial_state))
    = rq2 :: rq1 :: requests initial_state /\
    files (fst (download_track serving_env (lit "cid") playable_track
                  (lit "out") initial_state))
    = p :: files initial_state /\
    path_exists (files initial_state) p = false /\
    trace (fst (download_track serving_env (lit "cid") playable_track
                  (lit "out") initial_state))
    = ESaved p :: earlier_events /\
    printed (fst (download_track serving_env (lit "cid") playable_track
                    (lit "out") initial_state))
    = (lit "saved: " ++ p) :: earlier_lines.
Proof.
  apply (download_track_result serving_env (lit "cid") (lit "out")
           playable_track initial_state
           (fst (download_track serving_env (lit "cid") playable_track
                   (lit "out") initial_state)) true).
  vm_compute; reflexivity.
Defined.

(** ** [clean_filename], continued *)

Lemma split_ws_cons (c : char) (t : str) :
  isspace c = false ->
  exists w ws, split_ws t = w :: ws /\ split_ws (c :: t) = (c :: w) :: ws.
Proof.
  intros Hc; cbn [split_ws]; rewrite Hc.
  destruct (split_ws t) as [|w ws] eqn:Ht.
  - exfalso; destruct t as [|d t']; cbn [split_ws] in Ht; [discriminate|].
    destruct (isspace d); [discriminate|].
    destruct (split_ws t'); discriminate.
  - exists w, ws; split; reflexivity.
Qed.

Lemma words_space (c : char) (t : str) :
  isspace c = true -> words (c :: t) = words t.
Proof. intros Hc; unfold words; cbn [split_ws]; rewrite Hc; reflexivity. Qed.

Lemma words_one (c : char) : isspace c = false -> words [c] = [[c]].
Proof. intros Hc; unfold words; cbn [split_ws]; rewrite Hc; reflexivity. Qed.

Lemma words_then_space (c d : char) (t : str) :
  isspace c = false -> isspace d = true ->
  words (c :: d :: t) = [c] :: words (d :: t).
Proof.
  intros Hc Hd; unfold words; cbn [split_ws]; rewrite Hc, Hd; reflexivity.
Qed.

Lemma words_then_nonspace (c d : char) (t : str) :
  isspace c = false -> isspace d = false ->
  exists w ws, words (d :: t) = (d :: w) :: ws /\
               words (c :: d :: t) = (c :: d :: w) :: ws.
Proof.
  intros Hc Hd.
  destruct (split_ws_cons d t Hd) as [w [ws [Ht Hdt]]].
  exists w, (filter (fun w => match w with [] => false | _ => true end) ws).
  unfold words; cbn [split_ws]; rewrite Hc.
  cbn [split_ws] in Hdt; rewrite Hdt; split; reflexivity.
Qed.

Lemma join_words_cons (c : char) (w : str) (ws : list str) :
  join_words ((c :: w) :: ws) = c :: join_words (w :: ws).
Proof. cbn [join_words]; destruct ws; reflexivity. Qed.

(** [sub_ws] writes the words of its argument with one space between
    them, a space in front when the argument starts with whitespace and
    no run is open, and at most whitespace at the end. *)
Lemma sub_ws_words (s : str) :
  forall b, exists post,
    forallb isspace post = true /\
    sub_ws b s = lead b s ++ join_words (words s) ++ post.
Proof.
  induction s as [|c t IH]; intros b.
  - exists []; split; reflexivity.
  - cbn [sub_ws lead]; destruct (isspace c) eqn:Hc.
    + rewrite (words_space c t Hc).
      destruct (IH true) as [post [Hp Ht]].
      assert (Hl : lead true t = []) by (destruct t; cbn; rewrite ?andb_false_r; reflexivity).
      rewrite Hl in Ht; cbn [app] in Ht.
      exists post; split; [exact Hp|].
      destruct b; cbn [andb negb app]; rewrite Ht; reflexivity.
    + cbn [andb app].
      destruct (IH false) as [post [Hp Ht]]; rewrite Ht.
      destruct t as [|d t'].
      * cbn [lead app words] in *; rewrite (words_one c Hc).
        exists post; split; [exact Hp | reflexivity].
      * cbn [lead]; destruct (isspace d) eqn:Hd; cbn [andb negb app].
        -- rewrite (words_then_space c d t' Hc Hd).
           destruct (words (d :: t')) as [|w ws].
           ++ exists (32 :: post); split; [cbn; rewrite Hp; reflexivity|].
              reflexivity.
           ++ exists post; split; [exact Hp|].
              cbn [join_words app]; reflexivity.
        -- destruct (words_then_nonspace c d t' Hc Hd) as [w [ws [H1 H2]]].
           rewrite H1, H2, !join_words_cons.
           exists post; split; [exact Hp | reflexivity].
Qed.

Lemma split_ws_nonspace (s : str) (w : str) :
  In w (split_ws s) -> forallb nonspace w = true.
Proof.
  revert w; induction s as [|c t IH]; intros w; cbn [split_ws].
  - intros [<-|[]]; reflexivity.
  - destruct (isspace c) eqn:Hc.
    + intros [<-|H]; [reflexivity | apply IH; exact H].
    + destruct (split_ws t) as [|w0 ws].
      * intros [<-|[]]; cbn; unfold nonspace; rewrite Hc; reflexivity.
      * intros [<-|H].
        -- cbn [forallb]; unfold nonspace at 1; rewrite Hc; cbn.
           apply IH; left; reflexivity.
        -- apply IH; right; exact H.
Qed.

Lemma words_spec (s w : str) :
  In w (words s) -> w <> [] /\ forallb nonspace w = true.
Proof.
  unfold words; intros H; apply filter_In in H; destruct H as [H Hne].
  split; [destruct w; [discriminate Hne | discriminate]|].
  eapply split_ws_nonspace; exact H.
Qed.

(** Words put together start and end with a character of a word. *)
Lemma join_words_head (ws : list str) (c : char) (t : str) :
  (forall w, In w ws -> w <> [] /\ forallb nonspace w = true) ->
  join_words ws = c :: t -> isspace c = false.
Proof.
  destruct ws as [|w rest]; [discriminate|].
  intros H Hj.
  destruct (H w (or_introl eq_refl)) as [Hne Hw].
  destruct w as [|x w']; [contradiction|].
  rewrite join_words_cons in Hj; injection Hj as <- _.
  cbn in Hw; apply andb_true_iff in Hw; destruct Hw as [Hx _].
  unfold nonspace in Hx; apply negb_true_iff in Hx; exact Hx.
Qed.

Lemma join_words_last (ws : list str) (a : str) (c : char) :
  (forall w, In w ws -> w <> [] /\ forallb nonspace w = true) ->
  join_words ws = a ++ [c] -> isspace c = false.
Proof.
  revert a; induction ws as [|w rest IH]; intros a H Hj.
  - destruct a; discriminate Hj.
  - destruct (H w (or_introl eq_refl)) as [Hne Hw].
    cbn [join_words] in Hj.
    destruct rest as [|w2 rest'].
    + subst w; rewrite forallb_app in Hw.
      apply andb_true_iff in Hw; destruct Hw as [_ Hw]; cbn in Hw.
      rewrite andb_true_r in Hw; unfold nonspace in Hw.
      apply negb_true_iff in Hw; exact Hw.
    + assert (Hr : forall w', In w' (w2 :: rest') ->
                              w' <> [] /\ forallb nonspace w' = true)
        by (intros w' Hw'; apply H; right; exact Hw').
      assert (Hj2 : join_words (w2 :: rest') <> []).
      { destruct (Hr w2 (or_introl eq_refl)) as [Hn2 _].
        destruct w2 as [|y w2']; [contradiction|].
        rewrite join_words_cons; discriminate. }
      destruct (exists_last Hj2) as [a2 [c2 Hl]].
      rewrite Hl in Hj.
      replace (w ++ 32 :: a2 ++ [c2]) with ((w ++ 32 :: a2) ++ [c2]) in Hj
        by (rewrite <- app_assoc; reflexivity).
      apply app_inj_tail in Hj; destruct Hj as [_ <-].
      eapply IH; [exact Hr | exact Hl].
Qed.

Lemma lstrip_spaces (l s : str) :
  forallb isspace l = true -> lstrip (l ++ s) = lstrip s.
Proof.
  induction l as [|c l IH]; [reflexivity|]; cbn [forallb app lstrip].
  intros H; apply andb_true_iff in H; destruct H as [Hc Hl].
  rewrite Hc; exact (IH Hl).
Qed.

Lemma lstrip_all_spaces (l : str) : forallb isspace l = true -> lstrip l = [].
Proof.
  intros H; rewrite <- (app_nil_r l), (lstrip_spaces l [] H); reflexivity.
Qed.

(** [strip] takes off exactly the whitespace around a text that neither
    starts nor ends with whitespace. *)
Lemma strip_unique (l1 m l2 : str) :
  forallb isspace l1 = true -> forallb isspace l2 = true ->
  (forall c t, m = c :: t -> isspace c = false) ->
  (forall a c, m = a ++ [c] -> isspace c = false) ->
  strip (l1 ++ m ++ l2) = m.
Proof.
  intros H1 H2 Hh Hl; unfold strip; rewrite (lstrip_spaces l1 _ H1).
  destruct m as [|c t].
  - cbn [app]; rewrite (lstrip_all_spaces l2 H2); reflexivity.
  - rewrite (lstrip_fixed ((c :: t) ++ l2))
      by (intros x r Hx; injection Hx as <- _; eapply Hh; reflexivity).
    unfold rstrip; rewrite rev_app_distr, lstrip_spaces.
    + rewrite lstrip_fixed; [apply rev_involutive|].
      intros x r Hx; apply (Hl (rev r) x).
      rewrite <- (rev_involutive (c :: t)), Hx; reflexivity.
    + rewrite forallb_forall in *; intros x Hx; apply H2, in_rev; exact Hx.
Qed.

Lemma strip_sub_ws (s : str) :
  strip (sub_ws false s) = join_words (words s).
Proof.
  destruct (sub_ws_words s false) as [post [Hp ->]].
  apply strip_unique.
  - destruct s as [|c t]; [reflexivity|].
    cbn [lead]; destruct (isspace c); reflexivity.
  - exact Hp.
  - intros c t; apply join_words_head; intros w; apply words_spec.
  - intros a c; apply join_words_last; intros w; apply words_spec.
Qed.

Lemma split_ws_app (x y : str) (c : char) :
  isspace c = true -> split_ws (x ++ c :: y) = split_ws x ++ split_ws y.
Proof.
  intros Hc; induction x as [|d x IH]; cbn [app split_ws].
  - rewrite Hc; reflexivity.
  - rewrite IH; destruct (isspace d); [reflexivity|].
    destruct (split_ws x) as [|w ws] eqn:Hx; [|reflexivity].
    exfalso; destruct x as [|e x']; cbn [split_ws] in Hx; [discriminate|].
    destruct (isspace e); [discriminate|].
    destruct (split_ws x'); discriminate.
Qed.

Lemma words_app (x y : str) (c : char) :
  isspace c = true -> words (x ++ c :: y) = words x ++ words y.
Proof.
  intros Hc; unfold words; rewrite (split_ws_app x y c Hc), filter_app.
  reflexivity.
Qed.

Lemma words_lead (l y : str) :
  forallb isspace l = true -> words (l ++ y) = words y.
Proof.
  induction l as [|c l IH]; [reflexivity|]; cbn [forallb app].
  intros H; apply andb_true_iff in H; destruct H as [Hc Hl].
  rewrite (words_space c _ Hc); exact (IH Hl).
Qed.

Lemma words_trail (x l : str) :
  forallb isspace l = true -> words (x ++ l) = words x.
Proof.
  destruct l as [|c l]; [rewrite app_nil_r; reflexivity|]; cbn [forallb].
  intros H; apply andb_true_iff in H; destruct H as [Hc Hl].
  rewrite (words_app x l c Hc).
  rewrite <- (app_nil_r l), (words_lead l [] Hl), app_nil_r; reflexivity.
Qed.

Lemma words_around (l1 m l2 : str) :
  forallb isspace l1 = true -> forallb isspace l2 = true ->
  words (l1 ++ m ++ l2) = words m.
Proof.
  intros H1 H2; rewrite (words_lead l1 _ H1); apply words_trail; exact H2.
Qed.

Lemma removed_unsafe (c : char) : removed c = unsafe_char c.
Proof.
  unfold removed, unsafe_char, forbidden_chars, c0_control; cbn [existsb].
  rewrite orb_false_r, !orb_assoc; reflexivity.
Qed.

(** The characters kept of a name: those not removed, a slash turned
    into a dash. *)
Lemma kept_app (a b : str) :
  filter (fun c => negb (removed c)) (replace_char 47 45 (a ++ b))
  = filter (fun c => negb (removed c)) (replace_char 47 45 a)
    ++ filter (fun c => negb (removed c)) (replace_char 47 45 b).
Proof. unfold replace_char; rewrite map_app, filter_app; reflexivity. Qed.

Lemma kept_spaces (l : str) :
  forallb isspace l = true ->
  forallb isspace
    (filter (fun c => negb (removed c)) (replace_char 47 45 l)) = true.
Proof.
  intros H; rewrite forallb_forall in *; intros c Hc.
  apply filter_In in Hc; destruct Hc as [Hc _].
  unfold replace_char in Hc; apply in_map_iff in Hc.
  destruct Hc as [x [Hx Hin]]; specialize (H x Hin).
  unfold char_eqb in Hx; destruct (N.eqb_spec x 47) as [->|_];
    [discriminate H | subst c; exact H].
Qed.

Lemma strip_around (s : str) :
  exists l1 l2, s = l1 ++ strip s ++ l2 /\
                forallb isspace l1 = true /\ forallb isspace l2 = true.
Proof.
  unfold strip.
  destruct (lstrip_suffix s) as [l1 [H1 Hs1]].
  destruct (rstrip_prefix (lstrip s)) as [l2 [H2 Hs2]].
  exists l1, l2; rewrite <- H2; auto.
Qed.

Lemma cleaned_sanitized (name : str) : cleaned name = sanitized name.
Proof.
  unfold cleaned, sanitized; rewrite strip_sub_ws; f_equal.
  unfold remove_unsafe.
  rewrite (filter_ext (fun c => negb (unsafe_char c))
                      (fun c => negb (removed c)))
    by (intros c; rewrite removed_unsafe; reflexivity).
  destruct (strip_around name) as [l1 [l2 [Hn [H1 H2]]]].
  rewrite Hn at 2; rewrite !kept_app.
  symmetry; apply words_around; apply kept_spaces; assumption.
Qed.

Lemma words_nil (s : str) (c : char) :
  words s = [] -> In c s -> isspace c = true.
Proof.
  induction s as [|x t IH]; [intros _ []|].
  destruct (isspace x) eqn:Hx.
  - rewrite (words_space x t Hx); intros Hw [<-|Hi]; [exact Hx | auto].
  - intros Hw; exfalso.
    destruct (split_ws_cons x t Hx) as [w [ws [_ Hs]]].
    unfold words in Hw; rewrite Hs in Hw; discriminate Hw.
Qed.

Lemma has_content_words (s : str) :
  has_content s = true ->
  words (filter (fun c => negb (removed c)) (replace_char 47 45 s)) <> [].
Proof.
  unfold has_content; intros H Hw.
  apply existsb_exists in H; destruct H as [c [Hin Hc]].
  apply andb_true_iff in Hc; destruct Hc as [Hs Hr].
  apply negb_true_iff in Hs.
  set (c' := if char_eqb c 47 then 45 else c).
  assert (Hc' : isspace c' = false /\ removed c' = false).
  { unfold c', char_eqb; destruct (N.eqb_spec c 47) as [->|_].
    - split; reflexivity.
    - split; [exact Hs | apply negb_true_iff; exact Hr]. }
  destruct Hc' as [Hs' Hr'].
  assert (Hk : In c' (filter (fun c => negb (removed c))
                             (replace_char 47 45 s))).
  { apply filter_In; split; [|rewrite Hr'; reflexivity].
    unfold replace_char; apply in_map_iff; exists c; split;
      [reflexivity | exact Hin]. }
  rewrite (words_nil _ c' Hw Hk) in Hs'; discriminate Hs'.
Qed.

Lemma join_words_app (u v : list str) :
  u <> [] -> v <> [] ->
  join_words (u ++ v) = join_words u ++ 32 :: join_words v.
Proof.
  intros Hu Hv; induction u as [|w u IH]; [contradiction|].
  cbn [app join_words].
  destruct u as [|w2 u'].
  - cbn [app]; destruct v; [contradiction | reflexivity].
  - cbn [app] in *; rewrite IH by discriminate.
    rewrite <- app_assoc; reflexivity.
Qed.

Lemma join_words_nonempty (ws : list str) :
  ws <> [] -> (forall w, In w ws -> w <> []) -> join_words ws <> [].
Proof.
  destruct ws as [|w rest]; [contradiction|]; intros _ H.
  pose proof (H w (or_introl eq_refl)) as Hw.
  destruct w as [|c w']; [contradiction|].
  rewrite join_words_cons; discriminate.
Qed.

Lemma sanitized_content (s : str) :
  has_content s = true -> clean_filename s = sanitized s /\ sanitized s <> [].
Proof.
  intros H; apply has_content_words in H.
  assert (Hne : sanitized s <> []).
  { unfold sanitized; apply join_words_nonempty; [exact H|].
    intros w Hw; apply (words_spec _ _ Hw). }
  split; [|exact Hne].
  rewrite clean_filename_cleaned, cleaned_sanitized.
  destruct (sanitized s); [contradiction | reflexivity].
Qed.


(** C8 (amended): for every input string the result of [clean_filename]
    is never empty; it holds none of the eight forbidden characters and
    no control character from U+0000 to U+001F; it is the input with
    those characters taken out (and each slash turned into a dash), cut
    into its words and put together with exactly one space between two
    words, so that no whitespace leads or trails, or the default name when
    no word is left; in particular a whitespace run between two parts
    that have content comes out as one space. *)
Theorem clean_filename_sanitizes (name : str) :
  let r := clean_filename name in
  r <> [] /\
  (forall c, In c r -> ~ In c forbidden_chars /\ c0_control c = false) /\
  r = match sanitized name with
      | [] => default_name
      | n => n
      end /\
  (forall a ws b,
     name = a ++ ws ++ b ->
     forallb isspace ws = true ->
     existsb (fun c => negb (c0_control c)) ws = true ->
     has_content a = true -> has_content b = true ->
     r = clean_filename a ++ [32] ++ clean_filename b).
Proof.
  cbv zeta; split; [|split; [|split]].
  - rewrite clean_filename_cleaned.
    destruct (cleaned name); discriminate.
  - rewrite clean_filename_cleaned.
    pose proof (cleaned_safe name) as Hsafe.
    destruct (cleaned name) as [|x t].
    + intros c Hc; apply unsafe_char_spec.
      assert (Hd : forallb (fun c => negb (unsafe_char c)) default_name = true)
        by reflexivity.
      rewrite forallb_forall in Hd; apply Hd in Hc.
      apply negb_true_iff in Hc; exact Hc.
    + intros c Hc; apply unsafe_char_spec, Hsafe; exact Hc.
  - rewrite clean_filename_cleaned, cleaned_sanitized.
    destruct (sanitized name); reflexivity.
  - intros a ws b -> Hws Hex Ha Hb.
    destruct (sanitized_content a Ha) as [-> Hna].
    destruct (sanitized_content b Hb) as [-> Hnb].
    rewrite clean_filename_cleaned, cleaned_sanitized.
    assert (Hs : sanitized (a ++ ws ++ b)
                 = sanitized a ++ [32] ++ sanitized b).
    { unfold sanitized; rewrite !kept_app.
      set (k := fun s => filter (fun c => negb (removed c))
                                (replace_char 47 45 s)).
      fold (k a) (k ws) (k b).
      assert (Hk : forallb isspace (k ws) = true) by (apply kept_spaces; exact Hws).
      assert (Hne : k ws <> []).
      { apply existsb_exists in Hex; destruct Hex as [c [Hin Hc]].
        apply negb_true_iff in Hc.
        rewrite forallb_forall in Hws; pose proof (Hws c Hin) as Hsp.
        assert (Hkc : In c (k ws)).
        { apply filter_In; split.
          - unfold replace_char; apply in_map_iff; exists c; split; [|exact Hin].
            unfold char_eqb; destruct (N.eqb_spec c 47) as [->|_];
              [discriminate Hsp | reflexivity].
          - unfold removed; rewrite Hc, orb_false_r.
            apply negb_true_iff.
            destruct (existsb (N.eqb c) forbidden_chars) eqn:He; [|reflexivity].
            apply existsb_exists in He; destruct He as [x [Hx He]].
            apply N.eqb_eq in He; subst x.
            simpl in Hx;
              repeat (destruct Hx as [<-|Hx]; [discriminate Hsp|]);
              destruct Hx. }
        intros Hnil; rewrite Hnil in Hkc; exact Hkc. }
      destruct (k ws) as [|c w'] eqn:Hkw; [contradiction|].
      cbn [forallb] in Hk; apply andb_true_iff in Hk; destruct Hk as [Hc Hw'].
      cbn [app].
      rewrite (words_app (k a) (w' ++ k b) c Hc), (words_lead w' (k b) Hw').
      apply join_words_app; apply has_content_words; assumption. }
    rewrite Hs.
    destruct (sanitized a ++ [32] ++ sanitized b) eqn:He; [|reflexivity].
    destruct (sanitized a); [contradiction | discriminate He].
Qed.

(** The result on a name with runs of blanks, and on a name in which the
    whitespace is a tab, which goes as a control character. *)
Example clean_filename_blanks :
  clean_filename (lit "  artist  -   my song ") = lit "artist - my song" /\
  clean_filename [97; 9; 98] = [97; 98] /\
  clean_filename [97; 32; 9; 32; 98] = [97; 32; 98] /\
  clean_filename (lit " ?*: ") = lit "audio".
Proof. repeat split; reflexivity. Qed.

(** C8, as stated, fails: the control characters above U+001F are not
    removed.  A name that holds U+007F comes out with it. *)
Lemma clean_filename_keeps_del :
  ~ (forall (name : str) (c : char),
       In c (clean_filename name) -> is_control c = false).
Proof.
  intros H.
  specialize (H [97; 127; 98] 127 ltac:(vm_compute; tauto)).
  discriminate H.
Qed.

(** ** The rendition selector and malformed descriptors *)

Lemma eligible_wf (d : json) : eligible d = true -> wf_descriptor d = true.
Proof.
  unfold eligible, wf_descriptor; intros H.
  apply andb_true_iff in H; destruct H as [H _].
  destruct d as [| | | | |kv];
    try (unfold format_of, field, py_or in H; cbn in H; discriminate H).
  destruct (format_of (JObj kv)) as [| | | | |fkv];
    try (cbn in H; discriminate H).
  unfold field in H; cbn [is_dict andb].
  destruct (assoc (lit "mime_type") fkv) as [[| | |m| |]|];
    try discriminate H; reflexivity.
Qed.

Lemma first_mp3_skip (before rest : list json) :
  forallb wf_descriptor before = true ->
  forallb (fun x => negb (eligible x)) before = true ->
  first_mp3 (before ++ rest) = first_mp3 rest.
Proof.
  induction before as [|d before IH]; [reflexivity|].
  cbn [forallb app]; intros Hw Hn.
  apply andb_true_iff in Hw; destruct Hw as [Hd Hw].
  apply andb_true_iff in Hn; destruct Hn as [He Hn].
  apply negb_true_iff in He.
  rewrite (first_mp3_step d _ Hd), He; exact (IH Hw Hn).
Qed.

Lemma first_mp3_unreadable (d : json) (rest : list json) (e : exn) :
  unreadable d = Some e -> first_mp3 (d :: rest) = Raise e.
Proof.
  unfold unreadable; intros H; cbn [first_mp3].
  destruct d as [| | | | |kv]; cbn [is_dict negb] in H;
    try (injection H as <-; reflexivity).
  rewrite py_get_field_dict; cbn [rbind].
  fold (format_of (JObj kv)).
  destruct (format_of (JObj kv)) as [| | | | |fkv];
    try (injection H as <-; reflexivity).
  cbn [py_get].
  destruct (assoc (lit "mime_type") fkv) as [[| | | | |]|];
    try discriminate H; injection H as <-; cbn [rbind];
    destruct (assoc (lit "protocol") fkv); reflexivity.
Qed.

Lemma find_mp3_transcoding_descriptors (track : json) (l : list json) :
  descriptors track = Some l -> find_mp3_transcoding track = first_mp3 l.
Proof.
  unfold descriptors, find_mp3_transcoding; intros H.
  destruct track as [| | | | |kv]; try discriminate H.
  rewrite py_get_field_dict; cbn [rbind]; cbn [is_dict andb] in H.
  destruct (py_or (field (lit "media") (JObj kv)) (JObj []))
    as [| | | | |mkv]; try discriminate H.
  rewrite py_get_field_dict; cbn [rbind].
  destruct (py_or (field (lit "transcodings") (JObj mkv)) (JArr []))
    as [| | | |l'|]; try discriminate H.
  injection H as ->; reflexivity.
Qed.

Lemma first_mp3_not_dict (s : str) (rest : list json) :
  first_mp3 (JStr s :: rest) = Raise AttributeError.
Proof. reflexivity. Qed.

Lemma find_mp3_transcoding_no_descriptors (track : json) :
  descriptors track = None ->
  exists e, find_mp3_transcoding track = Raise e /\
            (e = AttributeError \/ e = TypeError).
Proof.
  unfold descriptors, find_mp3_transcoding; intros H.
  destruct track as [| | | | |kv]; try (eexists; split; [reflexivity|auto]).
  rewrite py_get_field_dict; cbn [rbind]; cbn [is_dict andb] in H.
  destruct (py_or (field (lit "media") (JObj kv)) (JObj []))
    as [| | | | |mkv]; try (eexists; split; [reflexivity|auto]).
  rewrite py_get_field_dict; cbn [rbind].
  unfold py_or in *.
  destruct (field (lit "transcodings") (JObj mkv)) as [|b|n|s|l'|tkv];
    cbn [truthy] in *; try discriminate H.
  - destruct b; [|discriminate H]. eexists; split; [reflexivity|auto].
  - destruct (negb (n =? 0)%Z); [|discriminate H].
    eexists; split; [reflexivity|auto].
  - destruct s as [|c s']; [discriminate H|].
    eexists; split; [reflexivity|auto].
  - destruct l'; discriminate H.
  - destruct tkv as [|[k v] tkv']; [discriminate H|].
    eexists; split; [reflexivity|auto].
Qed.

Lemma wf_track_descriptors_some (track : json) :
  wf_track track = true ->
  descriptors track = Some (transcodings_of track) /\
  forallb wf_descriptor (transcodings_of track) = true.
Proof.
  unfold wf_track, descriptors, transcodings_of; intros H.
  apply andb_true_iff in H; destruct H as [H _].
  apply andb_true_iff in H; destruct H as [H Ht].
  rewrite H.
  destruct (py_or (field (lit "transcodings")
                     (py_or (field (lit "media") track) (JObj [])))
                  (JArr [])); try discriminate Ht.
  split; [reflexivity | exact Ht].
Qed.

(** C7 (amended): the selector reads the descriptors in list order.  It
    returns the first one whose MIME type names MPEG audio and whose
    protocol is [progressive], provided the descriptors before it are
    well typed; when all descriptors are well typed and none is eligible
    it returns [None], and for a track of the data model
    [get_track_download_info] then returns [None] as well, without
    raising and without touching the state.  It does not skip what it
    cannot read: a descriptor that is not an object, whose format is not
    an object, or whose MIME type is null, a boolean or a number, met
    before any eligible one, makes it raise; so does a track whose media
    or transcodings are of another type. *)
Theorem find_mp3_transcoding_first_eligible (track : json) :
  match descriptors track with
  | Some l =>
      (forall before d after,
         l = before ++ d :: after ->
         forallb wf_descriptor before = true ->
         forallb (fun x => negb (eligible x)) before = true ->
         eligible d = true ->
         find_mp3_transcoding track = Ok d) /\
      (forallb wf_descriptor l = true ->
       forallb (fun x => negb (eligible x)) l = true ->
       find_mp3_transcoding track = Ok JNull /\
       (wf_track track = true ->
        forall E client_id st,
          get_track_download_info E client_id track st = (st, Ok None))) /\
      (forall before d after e,
         l = before ++ d :: after ->
         forallb wf_descriptor before = true ->
         forallb (fun x => negb (eligible x)) before = true ->
         unreadable d = Some e ->
         find_mp3_transcoding track = Raise e /\
         (e = AttributeError \/ e = TypeError))
  | None =>
      exists e, find_mp3_transcoding track = Raise e /\
                (e = AttributeError \/ e = TypeError)
  end.
Proof.
  destruct (descriptors track) as [l|] eqn:Hd;
    [|apply find_mp3_transcoding_no_descriptors; exact Hd].
  rewrite (find_mp3_transcoding_descriptors track l Hd).
  split; [|split].
  - intros before d after -> Hw Hn He.
    rewrite (first_mp3_skip before _ Hw Hn).
    rewrite (first_mp3_step d after (eligible_wf d He)), He; reflexivity.
  - intros Hw Hn; split.
    + rewrite <- (app_nil_r l), (first_mp3_skip l [] Hw Hn); reflexivity.
    + intros Hwf E client_id st.
      destruct (wf_track_descriptors_some track Hwf) as [Hs _].
      rewrite Hd in Hs; injection Hs as ->.
      apply get_track_download_info_absent; assumption.
  - intros before d after e -> Hw Hn Hu.
    rewrite (first_mp3_skip before _ Hw Hn).
    split; [apply first_mp3_unreadable; exact Hu|].
    unfold unreadable in Hu.
    destruct (negb (is_dict d)); [injection Hu as <-; auto|].
    destruct (format_of d) as [| | | | |fkv];
      try (injection Hu as <-; auto).
    destruct (assoc (lit "mime_type") fkv) as [[| | | | |]|];
      try discriminate Hu; injection Hu as <-; auto.
Qed.

Lemma find_mp3_transcoding_first_eligible_witness :
  find_mp3_transcoding playable_track = Ok mp3_descriptor /\
  find_mp3_transcoding unplayable_track = Ok JNull /\
  find_mp3_transcoding null_mime_first_track = Raise TypeError.
Proof.
  split; [|split].
  - apply (proj1 (find_mp3_transcoding_first_eligible playable_track)
             [hls_descriptor] mp3_descriptor [opus_descriptor]);
      reflexivity.
  - apply (proj1 (proj2 (find_mp3_transcoding_first_eligible
                           unplayable_track))); reflexivity.
  - apply (proj2 (proj2 (find_mp3_transcoding_first_eligible
                           null_mime_first_track))
             [] null_mime_descriptor [mp3_descriptor] TypeError);
      reflexivity.
Defined.

(** C7, as stated, fails: a track whose only descriptor has a null MIME
    type has no eligible descriptor, and the selector raises [TypeError]
    on it where the claim has it return [None]. *)
Lemma find_mp3_transcoding_null_mime_raises :
  ~ (forall track : json,
       forallb (fun x => negb (eligible x)) (transcodings_of track) = true ->
       find_mp3_transcoding track = Ok JNull).
Proof.
  intros H; specialize (H null_mime_track eq_refl); discriminate H.
Qed.

(** With that descriptor first, the eligible one after it is not
    returned, and the download of the track ends with the error before
    any request. *)
Example null_mime_first_track_raises :
  find_mp3_transcoding null_mime_first_track = Raise TypeError /\
  download_track serving_env (lit "cid") null_mime_first_track (lit "out")
    initial_state
  = (mkState [] [] NoFile [] [EAttempt null_mime_first_track],
     Raise TypeError).
Proof. split; reflexivity. Qed.

(** ** The playlist batch *)

Lemma session_get_keeps_printed (E : env) (rq : request) :
  keeps printed (session_get E rq).
Proof.
  intros st; unfold session_get; destruct (net E (requests st) rq); reflexivity.
Qed.

Lemma api_request_keeps_printed (E : env) (url : str)
    (params : list (str * str)) (allow_404 : bool) :
  keeps printed (api_request E url params allow_404).
Proof.
  unfold api_request.
  apply keeps_try.
  - apply keeps_bind; [apply session_get_keeps_printed|]; intros r.
    destruct ((status_code r =? 404)%Z && allow_404); [apply keeps_ret|].
    apply keeps_bind; [apply raise_for_status_keeps|]; intros _.
    unfold response_json; destruct (json_body r);
      [apply keeps_raise | apply keeps_ret].
  - intros [m|s|m| | | |]; try apply keeps_raise.
    destruct ((s =? 401)%Z || (s =? 403)%Z); apply keeps_raise.
Qed.

Lemma get_track_download_info_keeps_printed (E : env) (client_id : str)
    (track : json) :
  keeps printed (get_track_download_info E client_id track).
Proof.
  unfold get_track_download_info.
  repeat (apply keeps_bind; [apply keeps_lift|]; intros ?).
  destruct (negb (truthy a3)); [apply keeps_ret|].
  repeat (apply keeps_bind; [apply keeps_lift|]; intros ?).
  apply keeps_bind; [apply api_request_keeps_printed|]; intros ?.
  apply keeps_bind; [apply keeps_lift|]; intros ?.
  destruct (negb (truthy a7)); [apply keeps_raise | apply keeps_ret].
Qed.

Lemma download_file_keeps_printed (E : env) (url save_path : str) :
  keeps printed (download_file E url save_path).
Proof.
  unfold download_file, get_url.
  apply keeps_bind; [apply session_get_keeps_printed|]; intros r.
  apply keeps_bind; [apply raise_for_status_keeps|]; intros _.
  destruct (content_length r); try apply keeps_raise;
    (destruct (can_create E save_path); [|apply keeps_raise];
     apply keeps_bind; [intros st; reflexivity|]; intros _;
     destruct (body_error r); [apply keeps_raise | apply keeps_ret]).
Qed.

Lemma report_line_is_report (n m : nat) : not_report (report_line n m) = false.
Proof. reflexivity. Qed.

(** What one call of [download_track] prints is never the report. *)
Lemma download_track_printed (E : env) (client_id output_dir : str)
    (track : json) (st st' : state) (r : result bool) :
  download_track E client_id track output_dir st = (st', r) ->
  exists lines,
    printed st' = lines ++ printed st /\ forallb not_report lines = true.
Proof.
  unfold download_track, bind at 1, emit; intros H.
  set (s0 := mkState (requests st) (files st) (cache st) (printed st)
                     (EAttempt track :: trace st)) in H.
  unfold bind at 1 in H.
  pose proof (get_track_download_info_keeps_printed E client_id track s0)
    as Hi.
  destruct (get_track_download_info E client_id track s0) as [s1 [[info|]|e]];
    cbn [fst] in Hi; change (printed s0) with (printed st) in Hi.
  - unfold bind at 1, get_files in H.
    unfold bind at 1, print in H.
    match type of H with context [download_file E ?u ?p] =>
      set (url := u) in H; set (path := p) in H end.
    unfold bind at 1 in H.
    match type of H with context [download_file E url path ?s] =>
      pose proof (download_file_keeps_printed E url path s) as Hd;
      destruct (download_file E url path s) as [s2 [[]|e]] end;
      cbn [fst printed] in Hd.
    + unfold bind, print, emit, ret in H; injection H as <- <-.
      cbn [printed]; rewrite Hd, Hi.
      eexists [_; _]; split; [reflexivity|]; reflexivity.
    + injection H as <- <-; rewrite Hd, Hi.
      eexists [_]; split; [reflexivity|]; reflexivity.
  - revert H; unfold bind, lift, print, ret.
    destruct (py_get track (lit "title") (JStr (lit "Unknown"))) as [title|e];
      [|intros H; injection H as <- <-; exists []; rewrite Hi; auto].
    destruct (py_get track (lit "user") JNull) as [user|e];
      [|intros H; injection H as <- <-; exists []; rewrite Hi; auto].
    destruct (py_get (py_or user (JObj [])) (lit "username")
                (JStr (lit "Unknown"))) as [artist|e];
      intros H; injection H as <- <-.
    + cbn [printed]; rewrite Hi.
      eexists [_]; split; [reflexivity|]; reflexivity.
    + exists []; rewrite Hi; auto.
  - injection H as <- <-; exists []; rewrite Hi; auto.
Qed.

(** The loop over the tracks: the tracks attempted are a prefix of the
    list, in order, and nothing printed is the report; the loop runs to
    the end and counts the saves unless a download raises, and then it
    ends in the state and with the error of that download. *)
Lemma download_each_batch (E : env) (client_id output_dir : str) :
  forall (tracks : list json) (i total success_count : nat)
         (st st' : state) (r : result nat),
    download_each E client_id output_dir tracks i total success_count st
    = (st', r) ->
    exists evs lines k,
      trace st' = evs ++ trace st /\
      printed st' = lines ++ printed st /\
      forallb not_report lines = true /\
      attempted evs = firstn k tracks /\
      match r with
      | Ok n =>
          k = List.length tracks /\ n = (success_count + saved evs)%nat
      | Raise e =>
          (1 <= k <= List.length tracks)%nat /\
          exists t s,
            nth_error tracks (k - 1) = Some t /\
            download_track E client_id t output_dir s = (st', Raise e)
      end.
Proof.
  induction tracks as [|t rest IH]; intros i total sc st st' r H.
  - cbn [download_each] in H; unfold ret in H; injection H as <- <-.
    exists [], [], 0%nat; repeat split; unfold saved; simpl; lia.
  - cbn [download_each] in H.
    unfold bind at 1, print in H.
    match type of H with context [mkState _ _ _ (?l :: _) _] =>
      set (line := l) in H end.
    assert (Hline : not_report line = true) by reflexivity.
    unfold bind at 1 in H.
    match type of H with
    | context [download_track E client_id t output_dir ?s] =>
        set (s0 := s) in H
    end.
    destruct (download_track E client_id t output_dir s0) as [s1 [b|e]] eqn:Hd.
    + destruct (download_track_trace E client_id output_dir t s0 s1 (Ok b) Hd)
        as [evs1 [Ht1 [Ha1 Hs1]]].
      destruct (download_track_printed E client_id output_dir t s0 s1 _ Hd)
        as [lines1 [Hp1 Hn1]].
      destruct (IH _ _ _ _ _ _ H) as [evs [lines [k [Ht [Hp [Hn [Ha Hr]]]]]]].
      exists (evs ++ evs1), (lines ++ lines1 ++ [line]), (S k).
      split; [|split; [|split; [|split]]].
      * rewrite Ht, Ht1, <- app_assoc; reflexivity.
      * rewrite Hp, Hp1, <- !app_assoc; reflexivity.
      * rewrite !forallb_app, Hn, Hn1; cbn [forallb andb]; rewrite Hline;
          reflexivity.
      * rewrite attempted_app, Ha1, Ha; reflexivity.
      * destruct r as [n|e].
        -- destruct Hr as [-> ->]; split; [reflexivity|].
           rewrite saved_app, Hs1; destruct b; lia.
        -- destruct Hr as [Hk [t' [s [Hnth Hdl]]]].
           split; [cbn [List.length]; lia|].
           exists t', s; split; [|exact Hdl].
           destruct k as [|k]; [lia|].
           replace (S (S k) - 1)%nat with (S k) by lia.
           replace (S k - 1)%nat with k in Hnth by lia.
           cbn [nth_error]; exact Hnth.
    + injection H as <- <-.
      destruct (download_track_trace E client_id output_dir t s0 s1 (Raise e) Hd)
        as [evs1 [Ht1 [Ha1 Hs1]]].
      destruct (download_track_printed E client_id output_dir t s0 s1 _ Hd)
        as [lines1 [Hp1 Hn1]].
      exists evs1, (lines1 ++ [line]), 1%nat.
      split; [exact Ht1|]; split; [|split; [|split]].
      * rewrite Hp1, <- app_assoc; reflexivity.
      * rewrite forallb_app, Hn1; cbn [forallb andb]; rewrite Hline;
          reflexivity.
      * exact Ha1.
      * split; [cbn [List.length]; lia|].
        exists t, s0; split; [reflexivity | exact Hd].
Qed.

Lemma not_report_lines (lines : list str) (n m : nat) :
  forallb not_report lines = true -> ~ In (report_line n m) lines.
Proof.
  intros H Hin; rewrite forallb_forall in H.
  apply H in Hin; rewrite report_line_is_report in Hin; discriminate Hin.
Qed.

(** C1 (amended): for a playlist with at least one track, the tracks
    whose download is started are a prefix of the track list, in order.
    When no download raises, every track is attempted and the run ends
    with the report of the number of saves out of the number of tracks.
    A download that raises ends the batch in the state and with the
    error of that download: the tracks after it are not attempted and no
    report is printed; the track it stops at is never a track of the
    data model that merely has no eligible rendition, for such a track is
    skipped: its download prints one line, makes no request, creates no
    file and returns false. *)
Theorem handle_download_playlist (E : env) (client_id output_dir : str)
    (fields : list (str * json)) (tracks : list json) (st : state) :
  (py_eq_str (field (lit "kind") (JObj fields)) (lit "playlist") = true \/
   py_eq_str (field (lit "kind") (JObj fields)) (lit "system-playlist")
   = true) ->
  field (lit "tracks") (JObj fields) = JArr tracks ->
  tracks <> [] ->
  (exists evs lines k,
     trace (fst (handle_download E client_id (JObj fields) output_dir st))
     = evs ++ trace st /\
     printed (fst (handle_download E client_id (JObj fields) output_dir st))
     = lines ++ printed st /\
     attempted evs = firstn k tracks /\
     match snd (handle_download E client_id (JObj fields) output_dir st) with
     | Ok _ =>
         k = List.length tracks /\
         exists earlier,
           lines = report_lines (saved evs) (List.length tracks) ++ earlier
     | Raise e =>
         (1 <= k <= List.length tracks)%nat /\
         (forall n m, ~ In (report_line n m) lines) /\
         exists t s,
           nth_error tracks (k - 1) = Some t /\
           download_track E client_id t output_dir s
           = (fst (handle_download E client_id (JObj fields) output_dir st),
              Raise e) /\
           ~ (wf_track t = true /\
              forallb (fun x => negb (eligible x)) (transcodings_of t) = true)
     end) /\
  (forall t s,
     wf_track t = true ->
     forallb (fun x => negb (eligible x)) (transcodings_of t) = true ->
     exists line,
       download_track E client_id t output_dir s
       = (mkState (requests s) (files s) (cache s) (line :: printed s)
                  (EAttempt t :: trace s), Ok false)).
Proof.
  intros Hkind Htracks Hne.
  assert (Hskip : forall t s,
     wf_track t = true ->
     forallb (fun x => negb (eligible x)) (transcodings_of t) = true ->
     exists line,
       download_track E client_id t output_dir s
       = (mkState (requests s) (files s) (cache s) (line :: printed s)
                  (EAttempt t :: trace s), Ok false)).
  { intros t s Hwf Hnone; apply download_track_skip.
    unfold ineligible; rewrite Hwf, Hnone; reflexivity. }
  split; [|exact Hskip].
  destruct (handle_download E client_id (JObj fields) output_dir st)
    as [st' r] eqn:Hrun; cbn [fst snd].
  unfold handle_download, bind at 1, lift in Hrun.
  rewrite py_get_field_dict in Hrun.
  assert (Hnt : py_eq_str (field (lit "kind") (JObj fields)) (lit "track")
                = false).
  { destruct (field (lit "kind") (JObj fields)) as [| | |s| |];
      try reflexivity.
    cbn [py_eq_str] in *.
    destruct (str_eqb s (lit "track")) eqn:Hs; [|reflexivity].
    apply str_eqb_eq in Hs; subst s.
    destruct Hkind as [H|H]; vm_compute in H; discriminate H. }
  rewrite Hnt in Hrun.
  assert (Hp : py_eq_str (field (lit "kind") (JObj fields)) (lit "playlist")
               || py_eq_str (field (lit "kind") (JObj fields))
                    (lit "system-playlist") = true)
    by (destruct Hkind as [-> | ->]; [reflexivity | apply orb_true_r]).
  rewrite Hp in Hrun.
  unfold bind at 1 in Hrun.
  rewrite py_get_field_dict, Htracks in Hrun.
  destruct tracks as [|t rest]; [contradiction|].
  cbn [py_or truthy py_len py_iter List.length] in Hrun.
  unfold bind at 1 in Hrun. unfold bind at 1 in Hrun.
  unfold bind at 1 in Hrun.
  destruct (download_each E client_id output_dir (t :: rest) 1
              (S (List.length rest)) 0 st) as [s1 [n|e]] eqn:Hloop;
    destruct (download_each_batch E client_id output_dir _ _ _ _ _ _ _ Hloop)
      as [evs [lines [k [Ht [Hpr [Hn [Ha Hr]]]]]]].
  - destruct Hr as [Hk Hcount].
    rewrite report_run in Hrun; injection Hrun as <- <-.
    exists evs, (report_lines n (S (List.length rest)) ++ lines), k.
    cbn [trace printed].
    split; [exact Ht|]; split; [rewrite Hpr, <- app_assoc; reflexivity|].
    split; [exact Ha|]; split; [exact Hk|].
    exists lines; rewrite Hcount; reflexivity.
  - injection Hrun as <- <-.
    destruct Hr as [Hk [t' [s [Hnth Hdl]]]].
    exists evs, lines, k.
    split; [exact Ht|]; split; [exact Hpr|]; split; [exact Ha|].
    split; [exact Hk|]; split.
    + intros a b; apply not_report_lines; exact Hn.
    + exists t', s; split; [exact Hnth|]; split; [exact Hdl|].
      intros [Hwf Hnone].
      destruct (Hskip t' s Hwf Hnone) as [line Hl].
      rewrite Hl in Hdl; discriminate Hdl.
Qed.

Lemma handle_download_playlist_witness :
  exists evs lines k,
    trace (fst (handle_download serving_env (lit "cid") mixed_playlist
                  (lit "out") initial_state)) = evs ++ [] /\
    printed (fst (handle_download serving_env (lit "cid") mixed_playlist
                    (lit "out") initial_state)) = lines ++ [] /\
    attempted evs
    = firstn k [playable_track; unplayable_track; playable_track].
Proof.
  destruct (handle_download_playlist serving_env (lit "cid") (lit "out")
              [(lit "kind", JStr (lit "playlist"));
               (lit "tracks",
                JArr [playable_track; unplayable_track; playable_track])]
              [playable_track; unplayable_track; playable_track]
              initial_state (or_introl eq_refl) eq_refl
              ltac:(discriminate))
    as [[evs [lines [k [Ht [Hp [Ha _]]]]]] _].
  exists evs, lines, k; split; [exact Ht|]; split; [exact Hp | exact Ha].
Defined.

(** A playlist whose first track has a descriptor with a null MIME type
    ends at that track with [TypeError]: the second track, which is
    playable, is not attempted, and no report is printed. *)
Example raw_first_playlist_aborts :
  let run := handle_download serving_env (lit "cid") raw_first_playlist
               (lit "out") initial_state in
  snd run = Raise TypeError /\
  trace (fst run) = [EAttempt null_mime_track] /\
  printed (fst run) = [lit "[1/2]"].
Proof. cbv zeta; repeat split; vm_compute; reflexivity. Qed.

(** ** The client-id patterns and the forms they stand for *)

Lemma spaces_then_run {A : Type} (k : str -> option A) (s : str) (r : A) :
  spaces_then k s = Some r ->
  exists ws s', s = ws ++ s' /\ forallb isspace ws = true /\ k s' = Some r.
Proof.
  induction s as [|c t IH]; simpl.
  - intros H; exists [], []; auto.
  - destruct (isspace c) eqn:Hc.
    + destruct (spaces_then k t) as [r'|] eqn:Ht.
      * intros H; injection H as <-.
        destruct (IH eq_refl) as [ws [s' [-> [Hws Hk]]]].
        exists (c :: ws), s'; simpl; rewrite Hc, Hws; auto.
      * intros H; exists [], (c :: t); auto.
    + intros H; exists [], (c :: t); auto.
Qed.

(** What a match of the quoted value consumes. *)
Lemma value_tail_sound (sep : char) (s g t : str) :
  match_atoms (value_tail sep) s g = Some t ->
  exists ws1 ws2 post,
    forallb isspace ws1 = true /\ forallb isspace ws2 = true /\
    List.length t = 32%nat /\ forallb isalnum62 t = true /\
    s = ws1 ++ [sep] ++ ws2 ++ dquote ++ t ++ dquote ++ post.
Proof.
  unfold value_tail; cbn [match_atoms]; intros H.
  apply spaces_then_run in H; destruct H as [ws1 [s1 [-> [H1 H]]]].
  destruct (eat [sep] s1) as [s2|] eqn:E1; [|discriminate H].
  apply eat_spec in E1; subst s1.
  apply spaces_then_run in H; destruct H as [ws2 [s3 [-> [H2 H]]]].
  destruct (eat dquote s3) as [s4|] eqn:E2; [|discriminate H].
  apply eat_spec in E2; subst s3.
  destruct (take_alnum 32 s4) as [[g1 s5]|] eqn:E3; [|discriminate H].
  apply take_alnum_spec in E3; destruct E3 as [-> [Hl Ha]].
  destruct (eat dquote s5) as [post|] eqn:E4; [|discriminate H].
  apply eat_spec in E4; subst s5.
  injection H as <-.
  exists ws1, ws2, post; repeat split; assumption.
Qed.

Lemma match_embed (f : form) (ws1 ws2 t post : str) :
  forallb isspace ws1 = true -> forallb isspace ws2 = true ->
  List.length t = 32%nat -> forallb isalnum62 t = true ->
  match_atoms (pattern_of f) (embed f ws1 ws2 t ++ post) [] = Some t.
Proof.
  intros H1 H2 Hl Ha; destruct f; cbn [pattern_of embed].
  - rewrite p_colon_eq; cbn [match_atoms].
    rewrite <- !app_assoc, eat_app; apply value_tail_hit; auto.
  - rewrite p_eq_eq; cbn [match_atoms].
    rewrite <- !app_assoc, eat_app; apply value_tail_hit; auto.
  - rewrite p_json_eq; cbn [match_atoms].
    replace ((dquote ++ client_id_key ++ dquote ++ ws1 ++ lit ":" ++ ws2
              ++ dquote ++ t ++ dquote) ++ post)
      with ((dquote ++ client_id_key ++ dquote) ++ ws1 ++ lit ":" ++ ws2
            ++ dquote ++ t ++ dquote ++ post)
      by (rewrite <- !app_assoc; reflexivity).
    rewrite eat_app; apply value_tail_hit; auto.
  - unfold p_query; cbn [match_atoms].
    replace ((client_id_key ++ lit "=" ++ t) ++ post)
      with ((client_id_key ++ lit "=") ++ t ++ post)
      by (rewrite <- !app_assoc; reflexivity).
    rewrite eat_app, <- Hl, take_alnum_app by exact Ha; reflexivity.
Qed.

Lemma match_sound (f : form) (s t : str) :
  match_atoms (pattern_of f) s [] = Some t ->
  exists ws1 ws2 post,
    forallb isspace ws1 = true /\ forallb isspace ws2 = true /\
    List.length t = 32%nat /\ forallb isalnum62 t = true /\
    s = embed f ws1 ws2 t ++ post.
Proof.
  destruct f; cbn [pattern_of embed].
  - rewrite p_colon_eq; cbn [match_atoms].
    destruct (eat client_id_key s) as [s1|] eqn:E; [|discriminate].
    apply eat_spec in E; subst s; intros H.
    apply value_tail_sound in H.
    destruct H as [ws1 [ws2 [post [H1 [H2 [Hl [Ha ->]]]]]]].
    exists ws1, ws2, post; repeat split; try assumption.
    rewrite <- !app_assoc; reflexivity.
  - rewrite p_eq_eq; cbn [match_atoms].
    destruct (eat client_id_key s) as [s1|] eqn:E; [|discriminate].
    apply eat_spec in E; subst s; intros H.
    apply value_tail_sound in H.
    destruct H as [ws1 [ws2 [post [H1 [H2 [Hl [Ha ->]]]]]]].
    exists ws1, ws2, post; repeat split; try assumption.
    rewrite <- !app_assoc; reflexivity.
  - rewrite p_json_eq; cbn [match_atoms].
    destruct (eat (dquote ++ client_id_key ++ dquote) s) as [s1|] eqn:E;
      [|discriminate].
    apply eat_spec in E; subst s; intros H.
    apply value_tail_sound in H.
    destruct H as [ws1 [ws2 [post [H1 [H2 [Hl [Ha ->]]]]]]].
    exists ws1, ws2, post; repeat split; try assumption.
    rewrite <- !app_assoc; reflexivity.
  - unfold p_query; cbn [match_atoms].
    destruct (eat (client_id_key ++ lit "=") s) as [s1|] eqn:E;
      [|discriminate].
    apply eat_spec in E; subst s.
    destruct (take_alnum 32 s1) as [[g s2]|] eqn:E3; [|discriminate].
    apply take_alnum_spec in E3; destruct E3 as [-> [Hl Ha]].
    intros H; injection H as <-.
    exists [], [], s2; repeat split; assumption.
Qed.

(** A token stands in a document in a form at a place exactly when the
    pattern of the form matches there with that token. *)
Lemma embedded_at_match (f : form) (n : nat) (doc t : str) :
  embedded_at f n doc t ->
  match_atoms (pattern_of f) (skipn n doc) [] = Some t.
Proof.
  intros [pre [post [ws1 [ws2 [Hn [H1 [H2 [Hl [Ha ->]]]]]]]]].
  subst n.
  replace (List.length pre) with (List.length pre + 0)%nat by lia.
  rewrite skipn_length_app; cbn [skipn].
  apply match_embed; assumption.
Qed.

Lemma match_embedded_at (f : form) (n : nat) (doc t : str) :
  (n <= List.length doc)%nat ->
  match_atoms (pattern_of f) (skipn n doc) [] = Some t ->
  embedded_at f n doc t.
Proof.
  intros Hn H; apply match_sound in H.
  destruct H as [ws1 [ws2 [post [H1 [H2 [Hl [Ha Hs]]]]]]].
  exists (firstn n doc), post, ws1, ws2.
  split; [apply firstn_length_le; exact Hn|].
  repeat split; try assumption.
  rewrite <- Hs, firstn_skipn; reflexivity.
Qed.

Lemma search_leftmost (p : pattern) (doc g : str) :
  search p doc = Some g ->
  exists n,
    (n <= List.length doc)%nat /\
    match_atoms p (skipn n doc) [] = Some g /\
    forall j, (j < n)%nat -> match_atoms p (skipn j doc) [] = None.
Proof.
  induction doc as [|x t IH]; cbn [search].
  - destruct (match_atoms p [] []) as [g'|] eqn:Hm; [|discriminate].
    intros H; injection H as <-.
    exists 0%nat; split; [lia|]; split; [exact Hm|]; intros j Hj; lia.
  - destruct (match_atoms p (x :: t) []) as [g'|] eqn:Hm.
    + intros H; injection H as <-.
      exists 0%nat; split; [lia|]; split; [exact Hm|]; intros j Hj; lia.
    + intros H; destruct (IH H) as [n [Hn [Hhit Hmiss]]].
      exists (S n); split; [cbn [List.length]; lia|]; split; [exact Hhit|].
      intros [|j] Hj; [exact Hm | apply Hmiss; lia].
Qed.

Lemma search_nowhere (p : pattern) (doc : str) :
  search p doc = None ->
  forall j, match_atoms p (skipn j doc) [] = None.
Proof.
  induction doc as [|x t IH]; cbn [search].
  - destruct (match_atoms p [] []) eqn:Hm; [discriminate|].
    intros _ j; rewrite skipn_nil; exact Hm.
  - destruct (match_atoms p (x :: t) []) eqn:Hm; [discriminate|].
    intros H [|j]; [exact Hm | exact (IH H j)].
Qed.

Lemma search_form_some (f : form) (doc u : str) :
  search (pattern_of f) doc = Some u ->
  exists n, embedded_at f n doc u /\
            forall n' v, (n' < n)%nat -> ~ embedded_at f n' doc v.
Proof.
  intros H; apply search_leftmost in H.
  destruct H as [n [Hn [Hhit Hmiss]]].
  exists n; split; [apply match_embedded_at; assumption|].
  intros n' v Hlt He; apply embedded_at_match in He.
  rewrite (Hmiss n' Hlt) in He; discriminate He.
Qed.

Lemma search_form_none (f : form) (doc : str) :
  search (pattern_of f) doc = None ->
  forall n v, ~ embedded_at f n doc v.
Proof.
  intros H n v He; apply embedded_at_match in He.
  rewrite (search_nowhere _ _ H n) in He; discriminate He.
Qed.

(** C6: when a token of 32 characters of [0-9a-zA-Z] stands in a
    document in one of the four forms, with any whitespace where the
    patterns allow it and any text around it, the ordered pattern set
    extracts a token that stands in the document: the one in the first
    form, in list order, in which any token stands there, and at the
    leftmost place where one stands in that form.  So it extracts exactly
    the embedded token whenever no other token is embedded in the
    document. *)
Theorem patterns_extract_embedded (doc t : str) :
  embedded doc t ->
  (exists u f n,
     search_patterns patterns doc = Some u /\
     embedded_at f n doc u /\
     (forall f' n' v, (rank f' < rank f)%nat -> ~ embedded_at f' n' doc v) /\
     (forall n' v, (n' < n)%nat -> ~ embedded_at f n' doc v)) /\
  ((forall v, embedded doc v -> v = t) ->
   search_patterns patterns doc = Some t).
Proof.
  intros [f0 [n0 He]].
  assert (Hfirst : exists u f n,
     search_patterns patterns doc = Some u /\
     embedded_at f n doc u /\
     (forall f' n' v, (rank f' < rank f)%nat -> ~ embedded_at f' n' doc v) /\
     (forall n' v, (n' < n)%nat -> ~ embedded_at f n' doc v)).
  { rewrite patterns_eq; cbn [search_patterns].
    destruct (search p_colon doc) as [u|] eqn:S1.
    { destruct (search_form_some ColonAssign doc u S1) as [n [Hn Hl]].
      exists u, ColonAssign, n; split; [reflexivity|]; split; [exact Hn|].
      split; [|exact Hl].
      intros f' n' v Hr; cbn [rank] in Hr; lia. }
    destruct (search p_eq doc) as [u|] eqn:S2.
    { destruct (search_form_some EqAssign doc u S2) as [n [Hn Hl]].
      exists u, EqAssign, n; split; [reflexivity|]; split; [exact Hn|].
      split; [|exact Hl].
      intros f' n' v Hr; destruct f'; cbn [rank] in Hr; try lia.
      apply (search_form_none ColonAssign doc S1). }
    destruct (search p_json doc) as [u|] eqn:S3.
    { destruct (search_form_some JsonKey doc u S3) as [n [Hn Hl]].
      exists u, JsonKey, n; split; [reflexivity|]; split; [exact Hn|].
      split; [|exact Hl].
      intros f' n' v Hr; destruct f'; cbn [rank] in Hr; try lia.
      - apply (search_form_none ColonAssign doc S1).
      - apply (search_form_none EqAssign doc S2). }
    destruct (search p_query doc) as [u|] eqn:S4.
    { destruct (search_form_some QueryParam doc u S4) as [n [Hn Hl]].
      exists u, QueryParam, n; split; [reflexivity|]; split; [exact Hn|].
      split; [|exact Hl].
      intros f' n' v Hr; destruct f'; cbn [rank] in Hr; try lia.
      - apply (search_form_none ColonAssign doc S1).
      - apply (search_form_none EqAssign doc S2).
      - apply (search_form_none JsonKey doc S3). }
    exfalso; destruct f0.
    - exact (search_form_none ColonAssign doc S1 n0 t He).
    - exact (search_form_none EqAssign doc S2 n0 t He).
    - exact (search_form_none JsonKey doc S3 n0 t He).
    - exact (search_form_none QueryParam doc S4 n0 t He). }
  split; [exact Hfirst|].
  intros Honly.
  destruct Hfirst as [u [f [n [Hs [Hu _]]]]].
  rewrite Hs; f_equal; apply Honly; exists f, n; exact Hu.
Qed.

(** Every token that stands in a document is among the groups of the
    matches of the four patterns. *)
Lemma matches_from_In (p : pattern) (n : nat) (doc v : str) :
  match_atoms p (skipn n doc) [] = Some v -> In v (matches_from p doc).
Proof.
  revert doc; induction n as [|n IH]; intros doc H.
  - cbn [skipn] in H; destruct doc; cbn [matches_from]; rewrite H;
      left; reflexivity.
  - destruct doc as [|x t].
    + cbn [skipn] in H; cbn [matches_from]; rewrite H; left; reflexivity.
    + cbn [skipn] in H; cbn [matches_from].
      apply in_or_app; right; apply IH; exact H.
Qed.

Lemma embedded_matched (doc v : str) :
  embedded doc v -> In v (matched_tokens doc).
Proof.
  intros [f [n He]]; apply embedded_at_match in He.
  unfold matched_tokens; apply in_flat_map.
  exists (pattern_of f); split.
  - rewrite patterns_eq; destruct f; simpl; auto.
  - eapply matches_from_In; exact He.
Qed.

Lemma patterns_extract_embedded_witness :
  embedded one_token_doc token_a /\
  search_patterns patterns one_token_doc = Some token_a.
Proof.
  assert (He : embedded one_token_doc token_a).
  { exists QueryParam, 15%nat, (lit "var client_id; "), (lit "&x"), [], [].
    repeat split; reflexivity. }
  split; [exact He|].
  apply (proj2 (patterns_extract_embedded one_token_doc token_a He)).
  intros v Hv; apply embedded_matched in Hv.
  vm_compute in Hv; destruct Hv as [Hv|[]]; symmetry; exact Hv.
Defined.

(** A document that holds two tokens: the first as a query parameter,
    the second, further on, as a colon assignment.  The second is the
    one extracted, its form being the first of the list. *)
Example two_token_document_extracts_second :
  search_patterns patterns
    (two_token_pre ++ embed QueryParam [] [] token_a ++ two_token_post)
  = Some token_b.
Proof. reflexivity. Qed.
